(** * DOI-Validator: extraction, reference slicing and title matching

    A shallow embedding of the text-processing core of the DOI validator
    ([src/pdf_extract.py], [src/doi_extract.py], [src/references.py],
    [src/metadata.py], [documento.py] and the title extractor of [app.py]),
    together with the properties of its specification, and of the check
    against the resolver ([src/doi_validate.py]) with the category
    [app.py] shows for its verdicts, the resolver being a parameter.

    Python strings are sequences of Unicode code points: a character is a
    code point in [N] and a string a [list] of them.  The parts of the
    Python runtime the program leans on are modelled alongside it: the
    string methods in [Py], the backtracking matcher of [re] in [Re], the
    matching-block count of [difflib.SequenceMatcher] in [Difflib].  The
    Unicode character database (normalisation forms, case mapping, the
    digit and word classes) is an interface, [Unicode], so that every
    general statement holds whatever the tables are; a small instance
    covering Basic Latin and the accented Latin-1 letters is used to run
    the program on concrete inputs. *)

From Stdlib Require Import ZArith NArith QArith Strings.String Strings.Ascii List Bool Lia Sorted.
From Stdlib Require Import DecimalString.
From stdpp Require Import base list gmap sets.

Local Open Scope N_scope.

(** ** Characters and strings *)

Definition char := N.
Definition str := list char.

(** The code points of an ASCII literal. *)
Definition codes (s : string) : str :=
  map N_of_ascii (list_ascii_of_string s).
Arguments codes s%_string.

Definition in_range (lo hi c : char) : bool := (lo <=? c) && (c <=? hi).

Definition one_of (cs : str) (c : char) : bool := existsb (N.eqb c) cs.

(** [str.isspace] on one character, which is also the class [\s] of [re]
    on [str] patterns and what [str.strip] and [str.split] remove. *)
Definition is_space (c : char) : bool :=
  in_range 9 13 c || in_range 28 32 c || (c =? 133) || (c =? 160)
  || (c =? 5760) || in_range 8192 8202 c || (c =? 8232) || (c =? 8233)
  || (c =? 8239) || (c =? 8287) || (c =? 12288).

Definition not_space (c : char) : bool := negb (is_space c).

(** The line boundaries of [str.splitlines] (a CR LF pair counts once). *)
Definition is_linebreak (c : char) : bool :=
  in_range 10 13 c || in_range 28 30 c || (c =? 133) || (c =? 8232) || (c =? 8233).

Definition LF : char := 10.
Definition FF : char := 12.
Definition CR : char := 13.
Definition SP : char := 32.
Definition SHY : char := 173.

(** ** Python string methods *)

Module Py.

Fixpoint drop_while (p : char → bool) (s : str) : str :=
  match s with
  | [] => []
  | c :: t => if p c then drop_while p t else s
  end.

Definition lstrip (s : str) : str := drop_while is_space s.
Definition rstrip (s : str) : str := rev (drop_while is_space (rev s)).
Definition strip (s : str) : str := rstrip (lstrip s).

(** [s.rstrip(chars)] *)
Definition rstrip_chars (cs s : str) : str := rev (drop_while (one_of cs) (rev s)).

Fixpoint starts_with (p s : str) : bool :=
  match p, s with
  | [], _ => true
  | a :: p', b :: s' => (a =? b) && starts_with p' s'
  | _ :: _, [] => false
  end.

(** [p in s] *)
Fixpoint contains (p s : str) : bool :=
  starts_with p s ||
  match s with
  | [] => false
  | _ :: t => contains p t
  end.

(** [s.replace(old, new)] for a non-empty [old]: occurrences are taken
    from the left and do not overlap; [skip] counts the characters of the
    current occurrence still to pass over. *)
Fixpoint replace_from (old new : str) (skip : nat) (s : str) : str :=
  match s with
  | [] => []
  | c :: t =>
      match skip with
      | S n => replace_from old new n t
      | O => if starts_with old s
             then new ++ replace_from old new (Nat.pred (length old)) t
             else c :: replace_from old new 0 t
      end
  end.

Definition replace (old new s : str) : str := replace_from old new 0 s.

(** [sep.join(parts)] *)
Fixpoint join (sep : str) (parts : list str) : str :=
  match parts with
  | [] => []
  | [p] => p
  | p :: ps => p ++ sep ++ join sep ps
  end.

(** [s.split(c)] for a one-character separator: empty fields are kept. *)
Fixpoint split_on_from (c : char) (cur : str) (s : str) : list str :=
  match s with
  | [] => [rev cur]
  | x :: t => if x =? c then rev cur :: split_on_from c [] t
              else split_on_from c (x :: cur) t
  end.

Definition split_on (c : char) (s : str) : list str := split_on_from c [] s.

(** [s.split(c, 1)]: the text before the first [c] and, when there is
    one, the text after it. *)
Fixpoint split_once_from (c : char) (cur : str) (s : str) : str * option str :=
  match s with
  | [] => (rev cur, None)
  | x :: t => if x =? c then (rev cur, Some t)
              else split_once_from c (x :: cur) t
  end.

Definition split_once (c : char) (s : str) : str * option str :=
  split_once_from c [] s.

(** [s.split()]: the maximal runs of non-whitespace characters. *)
Fixpoint split_ws_from (cur : str) (s : str) : list str :=
  match s with
  | [] => match cur with [] => [] | _ => [rev cur] end
  | x :: t =>
      if is_space x
      then match cur with [] => split_ws_from [] t | _ => rev cur :: split_ws_from [] t end
      else split_ws_from (x :: cur) t
  end.

Definition split_ws (s : str) : list str := split_ws_from [] s.

(** [s.splitlines()]: no empty last line after a final line boundary. *)
Fixpoint splitlines_from (cur : str) (s : str) : list str :=
  match s with
  | [] => match cur with [] => [] | _ => [rev cur] end
  | x :: t =>
      if is_linebreak x
      then rev cur ::
           match t with
           | y :: t' => if (x =? CR) && (y =? LF) then splitlines_from [] t'
                        else splitlines_from [] t
           | [] => []
           end
      else splitlines_from (x :: cur) t
  end.

Definition splitlines (s : str) : list str := splitlines_from [] s.

(** A slice bound as Python resolves it: negative bounds count from the
    end, and the result is clamped to the sequence. *)
Definition clamp_index (len : nat) (i : Z) : nat :=
  let i' := if (i <? 0)%Z then (i + Z.of_nat len)%Z else i in
  Nat.min len (Z.to_nat i').

(** [l[a:b]] *)
Definition slice {A} (l : list A) (a b : Z) : list A :=
  let a' := clamp_index (length l) a in
  let b' := clamp_index (length l) b in
  take (b' - a')%nat (drop a' l).

End Py.

(** ** The matcher of [re]

    A pattern is a tree; matching is the backtracking search of [re],
    written with a continuation: the first alternative that lets the
    rest of the pattern succeed wins, greedy repetitions try one more
    round before they try to stop, lazy ones the other way round. *)

Module Re.

Inductive regex : Type :=
| Eps                                   (* the empty pattern *)
| Cls (p : char → bool)                 (* one character satisfying [p] *)
| Seq (r1 r2 : regex)
| Alt (r1 r2 : regex)                   (* r1|r2 *)
| Star (greedy : bool) (r : regex)      (* r* and r*? *)
| Grp (n : nat) (r : regex)             (* capturing group number n *)
| NLook (r : regex)                     (* (?!r) *)
| Bos                                   (* ^ *)
| Eos                                   (* $ : at the end, or before a final newline *)
| Wordb (w : char → bool).              (* \b for the word class w *)

(** Where the matcher stands: the character before the cursor, the
    offset of the cursor, the text after it, and the groups closed so
    far (most recent first) with their start offset and text. *)
Record mstate := MState {
  m_prev : option char;
  m_pos : nat;
  m_rest : str;
  m_caps : list (nat * (nat * str))
}.

Definition step_char (c : char) (t : str) (s : mstate) : mstate :=
  MState (Some c) (S (m_pos s)) t (m_caps s).

Definition close_group (n : nat) (s s' : mstate) : mstate :=
  MState (m_prev s') (m_pos s') (m_rest s')
         ((n, (m_pos s, take (m_pos s' - m_pos s) (m_rest s))) :: m_caps s').

Definition at_boundary (w : char → bool) (s : mstate) : bool :=
  xorb (match m_prev s with Some c => w c | None => false end)
       (match m_rest s with c :: _ => w c | [] => false end).

Definition at_end (s : mstate) : bool :=
  match m_rest s with
  | [] => true
  | [c] => c =? LF
  | _ => false
  end.

(** The repetition loop: [body] matches one round.  A round that does
    not move the cursor is not taken again.  [fuel] bounds the number of
    rounds; the number of characters left, plus one, is never reached. *)
Fixpoint star_loop {A : Type} (body : (mstate → option A) → mstate → option A)
  (greedy : bool) (k : mstate → option A) (fuel : nat) (s : mstate) : option A :=
  match fuel with
  | O => k s
  | S fuel' =>
      let round (_ : unit) :=
        body (λ s', if (m_pos s' =? m_pos s)%nat then None
                    else star_loop body greedy k fuel' s') s in
      if greedy then
        match round () with
        | Some a => Some a
        | None => k s
        end
      else
        match k s with
        | Some a => Some a
        | None => round ()
        end
  end.

Fixpoint rmatch (r : regex) {A : Type} (k : mstate → option A) (s : mstate)
  {struct r} : option A :=
  match r with
  | Eps => k s
  | Cls p =>
      match m_rest s with
      | c :: t => if p c then k (step_char c t s) else None
      | [] => None
      end
  | Seq r1 r2 => rmatch r1 (rmatch r2 k) s
  | Alt r1 r2 =>
      match rmatch r1 k s with
      | Some a => Some a
      | None => rmatch r2 k s
      end
  | Star greedy r1 =>
      star_loop (@rmatch r1 A) greedy k (S (length (m_rest s))) s
  | Grp n r1 => rmatch r1 (λ s', k (close_group n s s')) s
  | NLook r1 =>
      match rmatch r1 (λ _, Some tt) s with
      | Some _ => None
      | None => k s
      end
  | Bos => if (m_pos s =? 0)%nat then k s else None
  | Eos => if at_end s then k s else None
  | Wordb w => if at_boundary w s then k s else None
  end.

(** What a pattern can do, whatever the order of the search: [denotes r
    s s'] when [r] can take the matcher from [s] to [s'].  A negative
    look-ahead is only known not to move. *)
Inductive denotes : regex → mstate → mstate → Prop :=
| d_eps s : denotes Eps s s
| d_cls p c t s :
    m_rest s = c :: t → p c = true → denotes (Cls p) s (step_char c t s)
| d_seq r1 r2 s s1 s2 :
    denotes r1 s s1 → denotes r2 s1 s2 → denotes (Seq r1 r2) s s2
| d_alt_l r1 r2 s s' : denotes r1 s s' → denotes (Alt r1 r2) s s'
| d_alt_r r1 r2 s s' : denotes r2 s s' → denotes (Alt r1 r2) s s'
| d_star_stop g r s : denotes (Star g r) s s
| d_star_round g r s s1 s2 :
    denotes r s s1 → denotes (Star g r) s1 s2 → denotes (Star g r) s s2
| d_grp n r s s' : denotes r s s' → denotes (Grp n r) s (close_group n s s')
| d_nlook r s : denotes (NLook r) s s
| d_bos s : m_pos s = O → denotes Bos s s
| d_eos s : at_end s = true → denotes Eos s s
| d_wordb w s : at_boundary w s = true → denotes (Wordb w) s s.

(** [requires c r]: every match of [r] contains the character [c]. *)
Inductive requires (c0 : char) : regex → Prop :=
| rq_cls p : (∀ c, p c = true → c = c0) → requires c0 (Cls p)
| rq_seq_l r1 r2 : requires c0 r1 → requires c0 (Seq r1 r2)
| rq_seq_r r1 r2 : requires c0 r2 → requires c0 (Seq r1 r2)
| rq_alt r1 r2 : requires c0 r1 → requires c0 r2 → requires c0 (Alt r1 r2)
| rq_grp n r : requires c0 r → requires c0 (Grp n r).

(** Derived forms. *)
Definition Plus (greedy : bool) (r : regex) : regex := Seq r (Star greedy r).
Definition Opt (r : regex) : regex := Alt r Eps.              (* r? *)

Fixpoint Times (n : nat) (r : regex) : regex :=             (* r{n} *)
  match n with O => Eps | S n' => Seq r (Times n' r) end.

Fixpoint UpTo (n : nat) (r : regex) : regex :=              (* r{0,n} *)
  match n with O => Eps | S n' => Opt (Seq r (UpTo n' r)) end.

Definition Rep (lo hi : nat) (r : regex) : regex :=         (* r{lo,hi} *)
  Seq (Times lo r) (UpTo (hi - lo) r).

Definition Chr (c : char) : regex := Cls (N.eqb c).

Fixpoint Lit (s : str) : regex :=
  match s with [] => Eps | c :: t => Seq (Chr c) (Lit t) end.

Definition Any : regex := Cls (λ c, negb (c =? LF)).          (* . *)
Definition Space : regex := Cls is_space.                     (* \s *)
Definition NonSpace : regex := Cls not_space.                 (* \S *)

(** A match object: [start()], [end()], [group(0)] and the groups. *)
Record mobj := MObj {
  mo_start : nat;
  mo_end : nat;
  mo_text : str;
  mo_caps : list (nat * (nat * str))
}.

Definition mk_mobj (pos : nat) (rest : str) (e : mstate) : mobj :=
  MObj pos (m_pos e) (take (m_pos e - pos) rest) (m_caps e).

(** [m.group(n)]; a group that did not take part is [None]. *)
Fixpoint lookup_group (n : nat) (caps : list (nat * (nat * str))) : option str :=
  match caps with
  | [] => None
  | (k, (_, t)) :: rest => if (k =? n)%nat then Some t else lookup_group n rest
  end.

Definition group (n : nat) (m : mobj) : option str := lookup_group n (mo_caps m).

Definition match_at (r : regex) (prev : option char) (pos : nat) (rest : str)
  : option mobj :=
  match rmatch r Some (MState prev pos rest []) with
  | Some e => Some (mk_mobj pos rest e)
  | None => None
  end.

(** [re.match(r, s)] *)
Definition match_ (r : regex) (s : str) : option mobj := match_at r None 0 s.

(** [re.fullmatch(r, s)] *)
Definition fullmatch (r : regex) (s : str) : option mobj :=
  match rmatch r (λ e, match m_rest e with [] => Some e | _ => None end)
               (MState None 0 s []) with
  | Some e => Some (mk_mobj 0 s e)
  | None => None
  end.

(** [re.search(r, s)]: the leftmost position with a match. *)
Fixpoint search_from (r : regex) (prev : option char) (pos : nat) (rest : str)
  : option mobj :=
  match match_at r prev pos rest with
  | Some m => Some m
  | None =>
      match rest with
      | [] => None
      | c :: t => search_from r (Some c) (S pos) t
      end
  end.

Definition search (r : regex) (s : str) : option mobj := search_from r None 0 s.

(** One pass over the text as [finditer] and [sub] make it: the matches
    from left to right, without overlap, and between them the characters
    no match covers.  [skip] counts the characters of the current match
    still to pass over.  After an empty match the scan moves on by one
    character. *)
Fixpoint scan (r : regex) (prev : option char) (pos : nat) (skip : nat)
  (rest : str) : list (char + mobj) :=
  match skip with
  | S n =>
      match rest with
      | [] => []
      | c :: t => scan r (Some c) (S pos) n t
      end
  | O =>
      match match_at r prev pos rest with
      | Some m =>
          inr m ::
          match rest with
          | [] => []
          | c :: t =>
              match (mo_end m - pos)%nat with
              | O => inl c :: scan r (Some c) (S pos) 0 t
              | S n => scan r (Some c) (S pos) n t
              end
          end
      | None =>
          match rest with
          | [] => []
          | c :: t => inl c :: scan r (Some c) (S pos) 0 t
          end
      end
  end.

Fixpoint matches_of (ps : list (char + mobj)) : list mobj :=
  match ps with
  | [] => []
  | inl _ :: t => matches_of t
  | inr m :: t => m :: matches_of t
  end.

(** [re.finditer(r, s)] *)
Definition finditer (r : regex) (s : str) : list mobj :=
  matches_of (scan r None 0 0 s).

Fixpoint rebuild (repl : mobj → str) (ps : list (char + mobj)) : str :=
  match ps with
  | [] => []
  | inl c :: t => c :: rebuild repl t
  | inr m :: t => repl m ++ rebuild repl t
  end.

(** [re.sub(r, repl, s)], the replacement given as a function of the match. *)
Definition sub (r : regex) (repl : mobj → str) (s : str) : str :=
  rebuild repl (scan r None 0 0 s).

(** [re.sub(r, text, s)] for a replacement without group references. *)
Definition sub_const (r : regex) (text : str) (s : str) : str :=
  sub r (λ _, text) s.

(** The text of group [n], empty when the group did not take part. *)
Definition group_or_empty (n : nat) (m : mobj) : str :=
  match group n m with Some t => t | None => [] end.

End Re.

(** ** The Unicode character database

    What the program takes from [unicodedata], from [str.lower] and from
    the Unicode-aware classes of [re].  The only law used is that
    normalising the empty string gives the empty string. *)

Class Unicode := {
  nfkc : str → str;            (* unicodedata.normalize("NFKC", s) *)
  nfkd : str → str;            (* unicodedata.normalize("NFKD", s) *)
  combining : char → bool;     (* unicodedata.combining(c) != 0 *)
  lower : str → str;           (* s.lower() *)
  sre_lower : char → char;     (* the one-character lower-casing of re.IGNORECASE *)
  is_digit : char → bool;      (* \d *)
  is_word : char → bool;       (* \w *)
  nfkc_nil : nfkc [] = []
}.

Definition ch (a : ascii) : char := N_of_ascii a.
Arguments ch a%_char.

Definition ascii_upper_letter (c : char) : bool := in_range 65 90 c.
Definition ascii_lower_letter (c : char) : bool := in_range 97 122 c.
Definition ascii_digit (c : char) : bool := in_range 48 57 c.

(** The lower case of an ASCII letter of a pattern, taken when the
    pattern is compiled. *)
Definition pattern_lower (c : char) : char :=
  if ascii_upper_letter c then c + 32 else c.

(** The characters [re] treats as equal to a lower-case ASCII letter
    beyond its upper case: dotless i, long s and the Kelvin sign. *)
Definition case_fixes (c : char) : str :=
  if c =? 105 then [305] else if c =? 115 then [383] else if c =? 107 then [8490] else [].

Definition all_case_fixes : str := [305; 383; 8490].

(** ** A character database for Basic Latin and Latin-1

    The instance used to run the program: the normalisation algorithm of
    Unicode (decomposition, canonical ordering, composition) over Basic
    Latin and Latin-1, the ligatures and the ellipsis PDF text commonly
    carries, and the combining marks these need.  Every other character
    is taken to be a starter without decomposition or case, and a
    composition that would leave Latin-1 (a second accent on an accented
    letter) is not made. *)

Module Latin1.

(** Canonical decompositions of the upper-case letters: composite, base,
    mark.  The lower-case ones are 32 further on. *)
Definition upper_decompositions : list (char * (char * char)) :=
  [ (192, (65, 768)); (193, (65, 769)); (194, (65, 770)); (195, (65, 771));
    (196, (65, 776)); (197, (65, 778)); (199, (67, 807)); (200, (69, 768));
    (201, (69, 769)); (202, (69, 770)); (203, (69, 776)); (204, (73, 768));
    (205, (73, 769)); (206, (73, 770)); (207, (73, 776)); (209, (78, 771));
    (210, (79, 768)); (211, (79, 769)); (212, (79, 770)); (213, (79, 771));
    (214, (79, 776)); (217, (85, 768)); (218, (85, 769)); (219, (85, 770));
    (220, (85, 776)); (221, (89, 769)) ].

Definition canonical_decompositions : list (char * (char * char)) :=
  upper_decompositions
  ++ map (λ e, (fst e + 32, (fst (snd e) + 32, snd (snd e)))) upper_decompositions
  ++ [ (255, (121, 776)) ].

(** Compatibility decompositions: those of Latin-1 (no-break space,
    spacing accents, ordinal indicators, superscript digits, micro sign,
    vulgar fractions), the fi and fl ligatures and the horizontal
    ellipsis. *)
Definition compatibility_decompositions : list (char * str) :=
  [ (160, [32]); (168, [32; 776]); (170, [97]); (175, [32; 772]);
    (178, [50]); (179, [51]); (180, [32; 769]); (181, [956]);
    (184, [32; 807]); (185, [49]); (186, [111]);
    (188, [49; 8260; 52]); (189, [49; 8260; 50]); (190, [51; 8260; 52]);
    (64257, [102; 105]); (64258, [102; 108]); (8230, [46; 46; 46]) ].

(** Canonical combining classes of the marks. *)
Definition ccc (c : char) : N :=
  if one_of [768; 769; 770; 771; 772; 776; 778] c then 230
  else if c =? 803 then 220
  else if c =? 807 then 202
  else 0.

Fixpoint assoc {B} (c : char) (l : list (char * B)) : option B :=
  match l with
  | [] => None
  | (k, v) :: t => if c =? k then Some v else assoc c t
  end.

Definition decompose_char (compat : bool) (c : char) : str :=
  match assoc c canonical_decompositions with
  | Some (b, m) => [b; m]
  | None =>
      if compat then
        match assoc c compatibility_decompositions with
        | Some s => s
        | None => [c]
        end
      else [c]
  end.

(** Canonical ordering: a mark moves left past the marks of a higher
    class, never past a starter. *)
Fixpoint insert_mark (c : char) (rev_out : str) : str :=
  match rev_out with
  | x :: t => if (0 <? ccc c) && (ccc c <? ccc x) then x :: insert_mark c t
              else c :: rev_out
  | [] => [c]
  end.

Definition reorder (s : str) : str := rev (fold_left (λ acc c, insert_mark c acc) s []).

Definition decompose (compat : bool) (s : str) : str :=
  reorder (flat_map (decompose_char compat) s).

Fixpoint primary_composite (b m : char) (l : list (char * (char * char))) : option char :=
  match l with
  | [] => None
  | (k, (b', m')) :: t => if (b =? b') && (m =? m') then Some k
                          else primary_composite b m t
  end.

(** Canonical composition.  The state is the finished text (reversed),
    and the last starter with the marks kept after it (reversed). *)
Definition compose_step (st : str * option (char * str)) (c : char)
  : str * option (char * str) :=
  match st with
  | (out, None) =>
      if ccc c =? 0 then (out, Some (c, [])) else (c :: out, None)
  | (out, Some (starter, marks)) =>
      let blocked :=
        match marks with
        | [] => false
        | m :: _ => (ccc c =? 0) || (ccc c <=? ccc m)
        end in
      match (if blocked then None
             else primary_composite starter c canonical_decompositions) with
      | Some p => (out, Some (p, marks))
      | None =>
          if ccc c =? 0 then (marks ++ starter :: out, Some (c, []))
          else (out, Some (starter, c :: marks))
      end
  end.

Definition compose (s : str) : str :=
  match fold_left compose_step s ([], None) with
  | (out, None) => rev out
  | (out, Some (starter, marks)) => rev (marks ++ starter :: out)
  end.

Definition lower_char (c : char) : char :=
  if in_range 65 90 c || in_range 192 214 c || in_range 216 222 c then c + 32 else c.

Definition word_char (c : char) : bool :=
  in_range 48 57 c || in_range 65 90 c || (c =? 95) || in_range 97 122 c
  || one_of [170; 178; 179; 181; 185; 186; 188; 189; 190] c
  || in_range 192 214 c || in_range 216 246 c || in_range 248 255 c
  || (c =? 956) || (c =? 64257) || (c =? 64258).

End Latin1.

#[export] Instance latin1 : Unicode := {|
  nfkc := λ s, Latin1.compose (Latin1.decompose true s);
  nfkd := Latin1.decompose true;
  combining := λ c, negb (Latin1.ccc c =? 0);
  lower := map Latin1.lower_char;
  sre_lower := Latin1.lower_char;
  is_digit := ascii_digit;
  is_word := Latin1.word_char;
  nfkc_nil := eq_refl
|}.

(** ** The matching blocks of [difflib.SequenceMatcher]

    [SequenceMatcher(None, a, b)]: no junk predicate, automatic junk
    heuristic on.  Only what [ratio()] needs is modelled: the total size
    of the matching blocks. *)

Module Difflib.

(** [__chain_b]: the indices of every element of [b], in increasing
    order; once [b] has 200 elements or more, the elements that occur
    more than [len(b) // 100 + 1] times are dropped from the index. *)
Fixpoint index_elements (i : nat) (b : str) (b2j : gmap char (list nat))
  : gmap char (list nat) :=
  match b with
  | [] => b2j
  | elt :: t => index_elements (S i) t (<[elt := default [] (b2j !! elt) ++ [i]]> b2j)
  end.

Definition chain_b (b : str) : gmap char (list nat) :=
  let b2j := index_elements 0 b ∅ in
  let n := length b in
  if (200 <=? n)%nat
  then filter (λ kv : char * list nat, (length kv.2 ≤ n / 100 + 1)%nat) b2j
  else b2j.

Definition block : Type := nat * nat * nat.        (* i, j, size *)

(** The inner loop of [find_longest_match] for one [i]: the indices [j]
    of [a[i]] in [b], those below [blo] skipped, the loop left at the
    first one from [bhi] on. *)
Fixpoint scan_js (i blo bhi : nat) (j2len : gmap nat nat) (js : list nat)
  (st : block * gmap nat nat) : block * gmap nat nat :=
  match js with
  | [] => st
  | j :: js' =>
      if (j <? blo)%nat then scan_js i blo bhi j2len js' st
      else if (bhi <=? j)%nat then st
      else
        let k := S (match j with O => O | S j' => default O (j2len !! j') end) in
        let best := if (st.1.2 <? k)%nat then (i + 1 - k, j + 1 - k, k)%nat else st.1 in
        scan_js i blo bhi j2len js' (best, <[j := k]> st.2)
  end.

(** The outer loop, over [a[alo:ahi]] given as the list [row] of its
    elements from index [i] on. *)
Fixpoint scan_is (b2j : gmap char (list nat)) (blo bhi : nat) (i : nat) (row : str)
  (best : block) (j2len : gmap nat nat) : block :=
  match row with
  | [] => best
  | x :: t =>
      let st := scan_js i blo bhi j2len (default [] (b2j !! x)) (best, ∅) in
      scan_is b2j blo bhi (S i) t st.1 st.2
  end.

Definition same_at (a b : str) (i j : nat) : bool :=
  match a !! i, b !! j with
  | Some x, Some y => x =? y
  | _, _ => false
  end.

(** The two loops that extend the best block over equal elements on
    each side (the loops over junk never run: there is no junk). *)
Fixpoint extend_left (a b : str) (alo blo : nat) (fuel : nat) (best : block) : block :=
  match fuel with
  | O => best
  | S fuel' =>
      let '(bi, bj, bs) := best in
      if (alo <? bi)%nat && (blo <? bj)%nat && same_at a b (bi - 1) (bj - 1)
      then extend_left a b alo blo fuel' (bi - 1, bj - 1, S bs)%nat
      else best
  end.

Fixpoint extend_right (a b : str) (ahi bhi : nat) (fuel : nat) (best : block) : block :=
  match fuel with
  | O => best
  | S fuel' =>
      let '(bi, bj, bs) := best in
      if (bi + bs <? ahi)%nat && (bj + bs <? bhi)%nat && same_at a b (bi + bs) (bj + bs)
      then extend_right a b ahi bhi fuel' (bi, bj, S bs)
      else best
  end.

Definition find_longest_match (a b : str) (b2j : gmap char (list nat))
  (alo ahi blo bhi : nat) : block :=
  let best := scan_is b2j blo bhi alo (take (ahi - alo) (drop alo a)) (alo, blo, O) ∅ in
  let best := extend_left a b alo blo best.1.1 best in
  extend_right a b ahi bhi (ahi - (best.1.1 + best.2)) best.

(** The total size of the blocks [get_matching_blocks] finds in
    [a[alo:ahi]] against [b[blo:bhi]]: the longest block, then the same
    on its left and on its right.  [fuel] bounds the depth; the length
    of the range of [a] is enough, each side being strictly shorter. *)
Fixpoint matched (a b : str) (b2j : gmap char (list nat)) (fuel : nat)
  (alo ahi blo bhi : nat) : nat :=
  match fuel with
  | O => O
  | S fuel' =>
      let '(i, j, k) := find_longest_match a b b2j alo ahi blo bhi in
      match k with
      | O => O
      | S _ =>
          (if (alo <? i)%nat && (blo <? j)%nat
           then matched a b b2j fuel' alo i blo j else O)
          + k
          + (if (i + k <? ahi)%nat && (j + k <? bhi)%nat
             then matched a b b2j fuel' (i + k) ahi (j + k) bhi else O)
      end
  end%nat.

Definition matches (a b : str) : nat :=
  matched a b (chain_b b) (S (length a)) 0 (length a) 0 (length b).

(** [ratio()]: [2.0 * matches / length], and 1.0 for two empty
    sequences. *)
Definition ratio (a b : str) : Q :=
  match (length a + length b)%nat with
  | O => 1%Q
  | S n => Z.of_nat (2 * matches a b) # Pos.of_succ_nat n
  end.

End Difflib.

(** ** Numbers

    The scores are Python floats; they are modelled by the rationals
    they approximate. *)

Definition Qltb (x y : Q) : bool := negb (Qle_bool y x).
Definition Qmaxb (x y : Q) : Q := if Qle_bool x y then y else x.
Definition Qminb (x y : Q) : Q := if Qle_bool x y then x else y.

(** [round(x, 4)]: the nearest multiple of 1/10000, a tie going to the
    even one. *)
Definition round4 (x : Q) : Q :=
  let n := (Qnum x * 10000)%Z in
  let d := Z.pos (Qden x) in
  let q := (n / d)%Z in
  let r := (n mod d)%Z in
  let up := match (2 * r ?= d)%Z with
            | Lt => false
            | Gt => true
            | Eq => Z.odd q
            end in
  (if up then q + 1 else q)%Z # 10000.

(** ** The program *)

Section Program.
Context `{U : Unicode}.

Import Re.

(** *** Pattern pieces that depend on the character database *)

Definition Digit : regex := Cls is_digit.                     (* \d *)
Definition Word : regex := Cls is_word.                       (* \w *)
Definition WordBoundary : regex := Wordb is_word.             (* \b *)

(** One pattern character under [re.IGNORECASE]: a cased character
    matches whatever lower-cases to it or to one of its case fixes; an
    uncased one matches itself. *)
Definition ci (c : char) : char → bool :=
  if ascii_upper_letter c || ascii_lower_letter c
  then λ x, let y := sre_lower x in
            (y =? pattern_lower c) || one_of (case_fixes (pattern_lower c)) y
  else N.eqb c.

Fixpoint LitI (s : str) : regex :=
  match s with [] => Eps | c :: t => Seq (Cls (ci c)) (LitI t) end.

(** A character set under [re.IGNORECASE]: the set is lower-cased (and
    extended with the case fixes when it has letters) at compile time,
    the subject character is lower-cased before the test. *)
Definition set_i (p : char → bool) : char → bool := λ x, p (sre_lower x).

(** *** src/pdf_extract.py *)

Definition normalize_text (t : str) : str :=
  let t := nfkc t in
  let t := Py.replace [SHY] [] t in
  Py.replace [CR] [LF] (Py.replace [CR; LF] [LF] t).

(** *** src/doi_extract.py *)

(** [10\.\d{4,9}(?:\.\d+)*] *)
Definition doi_registrant : regex :=
  Seq (Lit (codes "10."))
      (Seq (Rep 4 9 Digit) (Star true (Seq (Chr (ch ".")) (Plus true Digit)))).

(** Patterns are quoted as the source writes them, except that Q stands
    for the double quote (code point 34) and that a space keeps a star
    apart from a closing parenthesis.

    [10\.\d{4,9}(?:\.\d+)*\/(?:(?![Q&'<>])\S)+] *)
Definition doi_shape : regex :=
  Seq doi_registrant
      (Seq (Chr (ch "/"))
           (Plus true (Seq (NLook (Cls (one_of (34 :: codes "&'<>")))) NonSpace))).

Definition DOI_PATTERNS : list regex :=
  [ (* doi:\s*(...) *)
    Seq (LitI (codes "doi:")) (Seq (Star true Space) (Grp 1 doi_shape));
    (* https?://(?:dx\.)?doi\.org/(...) *)
    Seq (LitI (codes "http"))
        (Seq (Opt (Cls (ci (ch "s"))))
             (Seq (Lit (codes "://"))
                  (Seq (Opt (LitI (codes "dx.")))
                       (Seq (LitI (codes "doi.org/")) (Grp 1 doi_shape)))));
    (* (?:^|[\s\(\[{,;:])(...) *)
    Seq (Alt Bos (Cls (λ c, is_space c || one_of (codes "([{,;:") c)))
        (Grp 1 doi_shape);
    (* [\[\(\{](...)[\]\)\}] *)
    Seq (Cls (one_of (codes "[({")))
        (Seq (Grp 1 doi_shape) (Cls (one_of (codes "])}"))));
    (* (?:DOI|doi|Doi)[\s:]+(...) *)
    Seq (Alt (LitI (codes "DOI")) (Alt (LitI (codes "doi")) (LitI (codes "Doi"))))
        (Seq (Plus true (Cls (λ c, is_space c || (c =? ch ":"))))
             (Grp 1 doi_shape)) ].

(** [\s*\n\s*], what all the line-break repairs have in the middle *)
Definition break_re : regex :=
  Seq (Star true Space) (Seq (Chr LF) (Star true Space)).

(** [-\s*\n\s*] *)
Definition hyphen_break_re : regex := Seq (Chr (ch "-")) break_re.

(** [/\s*\n\s*] *)
Definition break_after_slash_re : regex := Seq (Chr (ch "/")) break_re.

(** [\s*\n\s*/] *)
Definition break_before_slash_re : regex :=
  Seq (Star true Space) (Seq (Chr LF) (Seq (Star true Space) (Chr (ch "/")))).

Definition normalize_text_for_doi_extraction (text : str) : str :=
  match text with
  | [] => []
  | _ =>
      let t := Py.replace [FF] [LF] text in
      let t := sub_const hyphen_break_re [] t in
      let t := sub_const break_after_slash_re [ch "/"] t in
      sub_const break_before_slash_re [ch "/"] t
  end.

(** [\s+] *)
Definition spaces_re : regex := Plus true Space.

(** [[.,;:)\]}'Q]+$] *)
Definition trailing_punct_re : regex :=
  Seq (Plus true (Cls (one_of (34 :: codes ".,;:)]}'")))) Eos.

(** [\.{2,}$] *)
Definition trailing_dots_re : regex :=
  Seq (Times 2 (Chr (ch "."))) (Seq (Star true (Chr (ch "."))) Eos).

Definition clean_doi (doi : str) : str :=
  let doi := normalize_text doi in
  let doi := sub_const spaces_re [] doi in
  let doi := Py.replace (codes "&quot;") [] doi in
  let doi := Py.replace (codes "&#34;") [] doi in
  let doi := Py.replace (codes "&nbsp;") [] doi in
  let doi := Py.replace (codes "&amp;") (codes "&") doi in
  let doi := Py.replace (codes "&lt;") (codes "<") doi in
  let doi := Py.replace (codes "&gt;") (codes ">") doi in
  let doi := sub_const trailing_punct_re [] doi in
  let doi := sub_const trailing_dots_re [] doi in
  Py.strip doi.

(** [^10\.\d{4,9}(?:\.\d+)*\/.+$] *)
Definition doi_format_re : regex :=
  Seq Bos (Seq doi_registrant (Seq (Chr (ch "/")) (Seq (Plus true Any) Eos))).

Definition invalid_chars : str := 34 :: codes "<>{}|\^` ".

Definition is_valid_doi_format (doi : str) : bool :=
  match match_ doi_format_re doi with
  | None => false
  | Some _ =>
      match Py.split_once (ch "/") doi with
      | (_, None) => false
      | (_, Some rest) =>
          let suffix := Py.strip rest in
          if (length suffix <? 2)%nat then false
          else negb (existsb (λ c, Py.contains [c] doi) invalid_chars)
      end
  end.

(** One extracted occurrence, the dictionary the extractors build. *)
Record doi_record := DoiRecord {
  doi : str;
  raw : str;
  pattern : str;
  position : nat;
  context : str
}.

(** [t[max(0, m.start() - max_context) : min(len(t), m.end() + max_context)]]
    with its newlines turned into spaces, stripped. *)
Definition context_of (t : str) (m : mobj) (max_context : Z) : str :=
  let start := Z.max 0 (Z.of_nat (mo_start m) - max_context) in
  let stop := Z.min (Z.of_nat (length t)) (Z.of_nat (mo_end m) + max_context) in
  Py.strip (Py.replace [LF] [SP] (Py.slice t start stop)).

(** A stable sort on [position], as [list.sort(key=...)] is. *)
Fixpoint insert_by_position (r : doi_record) (l : list doi_record) : list doi_record :=
  match l with
  | [] => [r]
  | x :: t => if (position r <=? position x)%nat then r :: l
              else x :: insert_by_position r t
  end.

Definition sort_by_position (l : list doi_record) : list doi_record :=
  foldr insert_by_position [] l.

(** The decimal digits of a small number, for the pattern labels. *)
Definition digit_char (n : nat) : char := 48 + N.of_nat n.

(** The records one pattern contributes, in the order of its matches. *)
Definition records_of_pattern (t : str) (max_context : Z) (idx : nat) (pat : regex)
  : list doi_record :=
  flat_map (λ m,
      let raw := group_or_empty 1 m in
      let doi := clean_doi raw in
      match doi with
      | [] => []
      | _ => if is_valid_doi_format doi
             then [DoiRecord doi raw
                     (codes "Patr" ++ [243] ++ codes "n " ++ [digit_char idx])
                     (mo_start m) (context_of t m max_context)]
             else []
      end)
    (finditer pat t).

Definition extract_dois_from_text (text : str) (max_context : Z) : list doi_record :=
  let repaired := normalize_text_for_doi_extraction text in
  let t := normalize_text repaired in
  let out := concat (imap (λ i pat, records_of_pattern t max_context (S i) pat)
                          DOI_PATTERNS) in
  sort_by_position out.

(** [re.sub] of [\s+] by the empty string *)
Definition compact (s : str) : str := sub_const spaces_re [] s.

(** [doi_norm] and [ln_norm] of the searches for a reference line: the
    DOI lower-cased and without whitespace; the line repaired,
    normalised, lower-cased and without whitespace. *)
Definition doi_norm_of (doi : str) : str := compact (lower doi).

Definition line_norm_of (ln : str) : str :=
  compact (lower (normalize_text (normalize_text_for_doi_extraction ln))).

Definition find_reference_candidates_for_doi (doi : str) (reference_lines : list str)
  : list (nat * str) :=
  let doi_norm := doi_norm_of doi in
  match doi_norm with
  | [] => []
  | _ =>
      concat (imap (λ i ln,
                if Py.contains doi_norm (line_norm_of ln)
                then [(i, normalize_text (normalize_text_for_doi_extraction ln))]
                else [])
              reference_lines)
  end.

(** [re.sub] of [\s+] by one space *)
Definition collapse_spaces (s : str) : str := sub_const spaces_re [SP] s.

Definition build_reference_block_around_index (reference_lines : list str)
  (idx : nat) (before after : Z) : str :=
  let start := Z.max 0 (Z.of_nat idx - before) in
  let stop := Z.min (Z.of_nat (length reference_lines)) (Z.of_nat idx + after + 1) in
  let block := Py.join [SP] (Py.slice reference_lines start stop) in
  let block := normalize_text_for_doi_extraction block in
  let block := normalize_text block in
  Py.strip (collapse_spaces block).

(** [\bpp\b|\bvol\b|\bno\b|\bissue\b|\bpages?\b] *)
Definition fragment_marker_re : regex :=
  let w (s : string) := Seq WordBoundary (Seq (Lit (codes s)) WordBoundary) in
  Alt (w "pp"%string) (Alt (w "vol"%string) (Alt (w "no"%string) (Alt (w "issue"%string)
    (Seq WordBoundary (Seq (Lit (codes "page")) (Seq (Opt (Chr (ch "s"))) WordBoundary)))))).

(** [(19|20)\d{2}([,;]\s* )?(pp\.?)?] *)
Definition bare_year_re : regex :=
  Seq (Grp 1 (Alt (Lit (codes "19")) (Lit (codes "20"))))
      (Seq (Times 2 Digit)
           (Seq (Opt (Grp 2 (Seq (Cls (one_of (codes ",;"))) (Star true Space))))
                (Opt (Grp 3 (Seq (Lit (codes "pp")) (Opt (Chr (ch ".")))))))).

Definition _is_plausible_title_for_selection (t : option str) : bool :=
  match t with
  | None | Some [] => false
  | Some t =>
      let s := Py.strip (collapse_spaces t) in
      let low := lower s in
      if (length (Py.split_ws s) <? 5)%nat then false
      else if bool_decide (is_Some (search fragment_marker_re low))
              && (length (Py.split_ws s) <? 8)%nat then false
      else if bool_decide (is_Some (fullmatch bare_year_re low)) then false
      else true
  end.

(** [https?://\S+] *)
Definition url_re (ignore_case : bool) : regex :=
  let lit := if ignore_case then LitI else Lit in
  Seq (lit (codes "http"))
      (Seq (Opt (Cls (if ignore_case then ci (ch "s") else N.eqb (ch "s"))))
           (Seq (Lit (codes "://")) (Plus true NonSpace))).

(** [doi:\s*\S+] under IGNORECASE *)
Definition doi_token_re : regex :=
  Seq (LitI (codes "doi:")) (Seq (Star true Space) (Plus true NonSpace)).

(** The letters [a-z] under IGNORECASE. *)
Definition letter_i : char → bool :=
  set_i (λ c, ascii_lower_letter c || one_of all_case_fixes c).

(** [\(\s*((?:19|20)\d{2}[a-z]?|n\.d\.)\s*\)\s*] under IGNORECASE *)
Definition year_marker_re : regex :=
  Seq (Chr (ch "("))
      (Seq (Star true Space)
           (Seq (Grp 1 (Alt (Seq (Alt (Lit (codes "19")) (Lit (codes "20")))
                                 (Seq (Times 2 Digit) (Opt (Cls letter_i))))
                            (LitI (codes "n.d."))))
                (Seq (Star true Space) (Seq (Chr (ch ")")) (Star true Space))))).

(** [\(\s*n\.d\.\s*\)] under IGNORECASE *)
Definition no_date_re : regex :=
  Seq (Chr (ch "("))
      (Seq (Star true Space)
           (Seq (LitI (codes "n.d.")) (Seq (Star true Space) (Chr (ch ")"))))).

(** [^[\.\:\;\-–—\s]+]; the dashes are U+2013 and U+2014. *)
Definition leading_punct_re : regex :=
  Seq Bos (Plus true (Cls (λ c, one_of (codes ".:;-" ++ [8211; 8212]) c || is_space c))).

(** [\bRetrieved\s+from\b] under IGNORECASE *)
Definition retrieved_from_re : regex :=
  Seq WordBoundary
      (Seq (LitI (codes "Retrieved"))
           (Seq (Plus true Space) (Seq (LitI (codes "from")) WordBoundary))).

(** [[Q“”](.+?)[Q“”]]; the curly quotes are U+201C and U+201D. *)
Definition quoted_re : regex :=
  let q := Cls (one_of [34; 8220; 8221]) in
  Seq q (Seq (Grp 1 (Plus false Any)) q).

(** [[p.strip() for p in s.split(".") if p.strip()]] *)
Definition sentence_parts (s : str) : list str :=
  List.filter (λ p, negb (bool_decide (p = []))) (map Py.strip (Py.split_on (ch ".") s)).

Definition length_between (lo hi : nat) (s : str) : bool :=
  (lo <=? length s)%nat && (length s <=? hi)%nat.

(** The part of [extract_bibliographic_title] that works without a
    year marker: quoted text, else the second sentence part. *)
Definition title_without_year (ln : str) : option str :=
  let by_parts :=
    match sentence_parts ln with
    | _ :: cand :: _ :: _ => if length_between 8 300 cand then Some cand else None
    | _ => None
    end in
  match search quoted_re ln with
  | Some mq =>
      let cand := Py.strip (group_or_empty 1 mq) in
      if (8 <=? length cand)%nat then Some cand else by_parts
  | None => by_parts
  end.

Definition extract_bibliographic_title (reference_line : option str) : option str :=
  match reference_line with
  | None | Some [] => None
  | Some reference_line =>
      let ln := normalize_text (normalize_text_for_doi_extraction reference_line) in
      let ln := sub_const (url_re true) [] ln in
      let ln := sub_const (Seq WordBoundary doi_token_re) [] ln in
      (* \b10\.\d{4,9}(?:\.\d+)*\/\S+ *)
      let ln := sub_const (Seq WordBoundary
                  (Seq doi_registrant (Seq (Chr (ch "/")) (Plus true NonSpace)))) [] ln in
      let ln := Py.strip (collapse_spaces ln) in
      let before_bracket := Py.strip (Py.split_once (ch "[") ln).1 in
      if bool_decide (is_Some (search no_date_re ln))
         && Py.contains [ch "["] ln && Py.contains [ch "]"] ln
         && length_between 8 300 before_bracket
      then Some before_bracket
      else
        match search year_marker_re ln with
        | Some m =>
            let rest := Py.lstrip (drop (mo_end m) ln) in
            let rest := Py.strip (sub_const leading_punct_re [] rest) in
            let rest :=
              Py.strip (match search retrieved_from_re rest with
                        | Some m' => take (mo_start m') rest
                        | None => rest
                        end) in
            match sentence_parts rest with
            | p :: _ =>
                let cand := Py.strip p in
                if length_between 8 300 cand then Some cand
                else if length_between 8 300 rest then Some rest
                else title_without_year ln
            | [] =>
                if length_between 8 300 rest then Some rest
                else title_without_year ln
            end
        | None => title_without_year ln
        end
  end.

(** *** src/metadata.py *)

Definition _strip_accents (s : str) : str :=
  match s with
  | [] => []
  | _ => List.filter (λ c, negb (combining c)) (nfkd s)
  end.

(** [[‐‑‒–—−]], the dashes U+2010 to U+2014 and the minus sign U+2212 *)
Definition unicode_dash_re : regex :=
  Cls (λ c, in_range 8208 8212 c || (c =? 8722)).

(** [[^a-z0-9\s\-]] *)
Definition not_title_char_re : regex :=
  Cls (λ c, negb (ascii_lower_letter c || ascii_digit c || is_space c || (c =? ch "-"))).

Definition normalize_title (t : str) : str :=
  let t := Py.strip t in
  let t := lower (_strip_accents t) in
  let t := sub_const unicode_dash_re [ch "-"] t in
  let t := sub_const not_title_char_re [SP] t in
  Py.strip (collapse_spaces t).

Definition token_set (s : str) : gset str := list_to_set (Py.split_ws s).

Definition jaccard (a b : str) : Q :=
  let ta := token_set a in
  let tb := token_set b in
  if bool_decide (ta = ∅) && bool_decide (tb = ∅) then 0%Q
  else Z.of_nat (size (ta ∩ tb)) # Pos.of_nat (Nat.max 1 (size (ta ∪ tb))).

(** A missing title is [None]; [not title] also holds of the empty one. *)
Definition missing (t : option str) : bool :=
  match t with
  | None | Some [] => true
  | Some _ => false
  end.

Definition title_match_score (bibliographic_title crossref_title : option str)
  : option Q :=
  if missing bibliographic_title || missing crossref_title then None
  else
    let a := normalize_title (default [] bibliographic_title) in
    let b := normalize_title (default [] crossref_title) in
    match a, b with
    | [], _ | _, [] => None
    | _, _ =>
        let seq := Difflib.ratio a b in
        let jacc := jaccard a b in
        let score := Qmaxb (Qmaxb seq jacc) ((seq + jacc) / 2) in
        Some (round4 score)
    end.

Inductive match_label := label_unknown | label_match | label_mismatch.

Definition title_match_label (score : option Q) (threshold : Q) : match_label :=
  match score with
  | None => label_unknown
  | Some s => if Qle_bool threshold s then label_match else label_mismatch
  end.

(** *** src/doi_extract.py, the candidate selector *)

(** One round of the loop of [pick_best_reference_block_for_doi]; the
    state is [(best_block, best_title, best_score)]. *)
Definition pick_step (reference_lines : list str) (cr : str) (before after : Z)
  (best : str * option str * Q) (cand : nat * str) : str * option str * Q :=
  let block := build_reference_block_around_index reference_lines cand.1 before after in
  let bib_title := extract_bibliographic_title (Some block) in
  if negb (_is_plausible_title_for_selection bib_title) then best
  else
    let s :=
      match cr with
      | [] => Qminb 1%Q (Z.of_nat (length (default [] bib_title)) # 200)
      | _ => default 0%Q (title_match_score bib_title (Some cr))
      end in
    if Qltb best.2 s then (block, bib_title, s) else best.

Definition pick_best_reference_block_for_doi (doi : str) (reference_lines : list str)
  (crossref_title : str) (before after : Z) : str * option str * Q :=
  let cands := find_reference_candidates_for_doi doi reference_lines in
  match cands with
  | [] => ([], None, 0%Q)
  | c0 :: _ =>
      let cr := normalize_text crossref_title in
      let best := fold_left (pick_step reference_lines cr before after) cands ([], None, 0%Q) in
      match best.1.1 with
      | [] =>
          let best_block :=
            build_reference_block_around_index reference_lines c0.1 before after in
          (best_block, extract_bibliographic_title (Some best_block), 0%Q)
      | _ => best
      end
  end.

(** *** src/references.py *)

(** The optional list number, [(?:\d+[\.\)]\s* )?] *)
Definition list_number_re : regex :=
  Opt (Seq (Plus true Digit) (Seq (Cls (one_of (codes ".)"))) (Star true Space))).

(** A letter given with its accented form, as [[ií]] under IGNORECASE. *)
Definition either_i (plain accented : char) : regex :=
  Cls (set_i (λ c, (c =? plain) || (c =? accented) || one_of (case_fixes plain) c)).

(** [\s+] between two words of a heading *)
Definition words_i (w1 w2 : string) : regex :=
  Seq (LitI (codes w1)) (Seq (Plus true Space) (LitI (codes w2))).

(** [^\s*(?:\d+[\.\)]\s* )?(?:...)\s*[:\-]?\s*$] around the headings *)
Definition heading_re (names : regex) : regex :=
  Seq Bos
      (Seq (Star true Space)
           (Seq list_number_re
                (Seq names
                     (Seq (Star true Space)
                          (Seq (Opt (Cls (one_of (codes ":-"))))
                               (Seq (Star true Space) Eos)))))).

Fixpoint alternatives (rs : list regex) : regex :=
  match rs with
  | [] => Eps
  | [r] => r
  | r :: rs' => Alt r (alternatives rs')
  end.

Definition REF_START : regex :=
  heading_re (alternatives
    [ LitI (codes "references");
      LitI (codes "bibliography");
      words_i "works" "cited";
      words_i "literature" "cited";
      LitI (codes "referencias");
      Seq (LitI (codes "bibliograf")) (Seq (either_i 105 237) (LitI (codes "a")));
      Seq (LitI (codes "referencias"))
          (Seq (Plus true Space)
               (Seq (LitI (codes "bibliogr"))
                    (Seq (either_i 97 225) (LitI (codes "ficas")))));
      words_i "obras" "citadas";
      words_i "literatura" "citada" ]).

Definition REF_END : regex :=
  heading_re (alternatives
    [ LitI (codes "appendix");
      Seq (LitI (codes "ap")) (Seq (either_i 101 233) (LitI (codes "ndice")));
      LitI (codes "annex");
      LitI (codes "anexo");
      Seq (LitI (codes "acknowledg"))
          (Seq (Opt (Grp 1 (LitI (codes "e")))) (LitI (codes "ments")));
      LitI (codes "agradecimientos");
      LitI (codes "supplementary");
      words_i "material" "suplementario";
      LitI (codes "funding");
      LitI (codes "financiamiento");
      words_i "author" "contributions";
      Seq (LitI (codes "contribuci"))
          (Seq (either_i 111 243)
               (Seq (LitI (codes "n")) (Seq (Plus true Space)
                    (Seq (LitI (codes "de")) (Seq (Plus true Space)
                         (LitI (codes "autores")))))));
      Seq (LitI (codes "conflict")) (Seq (Plus true Space)
          (Seq (LitI (codes "of")) (Seq (Plus true Space) (LitI (codes "interest")))));
      Seq (LitI (codes "conflicto")) (Seq (Plus true Space)
          (Seq (LitI (codes "de")) (Seq (Plus true Space)
               (Seq (LitI (codes "inter")) (Seq (either_i 101 233) (LitI (codes "s"))))))) ]).

Definition is_heading (re : regex) (line : str) : bool :=
  bool_decide (is_Some (match_ re (Py.strip line))).

(** The first loop of [slice_references_section]: the index of the
    first line that is a start heading, counted from [i]. *)
Fixpoint find_start (i : nat) (lines : list str) : option nat :=
  match lines with
  | [] => None
  | line :: t => if is_heading REF_START line then Some i else find_start (S i) t
  end.

(** The second loop: [j] runs over the lines after the start; the first
    end heading at least [min_lines_after] lines past the start ends
    the section, otherwise it runs to the last line. *)
Fixpoint find_end (start : nat) (min_lines_after : Z) (total : nat) (j : nat)
  (lines : list str) : nat :=
  match lines with
  | [] => total
  | line :: t =>
      if is_heading REF_END line && (min_lines_after <=? Z.of_nat j - Z.of_nat start)%Z
      then j
      else find_end start min_lines_after total (S j) t
  end.

(** Where the section that starts at line [start] ends. *)
Definition section_end (lines : list str) (start : nat) (min_lines_after : Z) : nat :=
  find_end start min_lines_after (length lines) (S start) (drop (S start) lines).

(** ["\n".join(lines[start:end]).strip()] *)
Definition section_text (lines : list str) (start stop : nat) : str :=
  Py.strip (Py.join [LF] (take (stop - start) (drop start lines))).

Definition slice_references_section (full_text : str) (min_lines_after : Z)
  : str * option nat * option nat :=
  let lines := Py.splitlines full_text in
  match find_start 0 lines with
  | None => (full_text, None, None)
  | Some start =>
      let stop := section_end lines start min_lines_after in
      let ref_text := section_text lines start stop in
      if (length ref_text <? 250)%nat then (full_text, None, None)
      else (ref_text, Some start, Some stop)
  end.

Definition extract_reference_lines (ref_text : str) : list str :=
  let lines := map Py.strip (Py.splitlines (normalize_text ref_text)) in
  let lines := List.filter (λ ln, (35 <=? length ln)%nat) lines in
  List.filter (λ ln, negb (bool_decide (is_Some (match_ REF_START ln)))) lines.

(** *** documento.py *)

(** [(10\.\d{4,9}(?:\.\d+)*\s*/\s*[-._;()/:A-Z0-9]+)] under IGNORECASE *)
Definition _DOI_REGEX_ROBUST : regex :=
  Grp 1 (Seq doi_registrant
          (Seq (Star true Space)
               (Seq (Chr (ch "/"))
                    (Seq (Star true Space)
                         (Plus true (Cls (set_i (λ c,
                            one_of (codes "-._;()/:") c || ascii_lower_letter c
                            || ascii_digit c || one_of all_case_fixes c)))))))).

Definition _TRAILING_PUNCT : str := codes ".,;:)]}>" ++ [34; ch "'"].

(** [(\w)-\s*\n\s*(\w)] *)
Definition word_hyphen_break_re : regex :=
  Seq (Grp 1 Word) (Seq (Chr (ch "-")) (Seq break_re (Grp 2 Word))).

(** [(\S)\s*\n\s*(\S)] *)
Definition line_break_re : regex :=
  Seq (Grp 1 NonSpace) (Seq break_re (Grp 2 NonSpace)).

(** [\s*/\s*] *)
Definition slash_re : regex :=
  Seq (Star true Space) (Seq (Chr (ch "/")) (Star true Space)).

Definition _normalize_for_doi_harvest (t : str) : str :=
  match t with
  | [] => []
  | _ =>
      let t := Py.replace [SHY] [] t in
      (* \1\2 *)
      let t := sub word_hyphen_break_re
                   (λ m, group_or_empty 1 m ++ group_or_empty 2 m) t in
      (* \1 \2 *)
      let t := sub line_break_re
                   (λ m, group_or_empty 1 m ++ [SP] ++ group_or_empty 2 m) t in
      sub_const slash_re [ch "/"] t
  end.

(** The records of [extract_dois_robust] before they are sorted and
    deduplicated. *)
Definition robust_records (t : str) (max_context : Z) : list doi_record :=
  flat_map (λ m,
      let raw := Py.rstrip_chars _TRAILING_PUNCT (Py.strip (group_or_empty 1 m)) in
      let doi := Py.rstrip_chars _TRAILING_PUNCT (clean_doi raw) in
      match doi with
      | [] => []
      | _ => if is_valid_doi_format doi
             then [DoiRecord doi raw (codes "Robusto") (mo_start m)
                             (context_of t m max_context)]
             else []
      end)
    (finditer _DOI_REGEX_ROBUST t).

(** The loop that keeps the first record of every lower-cased DOI. *)
Fixpoint keep_first (seen : gset str) (out : list doi_record) : list doi_record :=
  match out with
  | [] => []
  | d :: t =>
      let k := lower (doi d) in
      if bool_decide (k ∈ seen) then keep_first seen t
      else d :: keep_first ({[ k ]} ∪ seen) t
  end.

Definition extract_dois_robust (text : str) (max_context : Z) : list doi_record :=
  let t := _normalize_for_doi_harvest (normalize_text text) in
  keep_first ∅ (sort_by_position (robust_records t max_context)).

(** *** app.py *)

(** [_dedupe_dois]: as [keep_first] over the records sorted by position,
    a record with an empty DOI being dropped. *)
Fixpoint dedupe_from (seen : gset str) (out : list doi_record) : list doi_record :=
  match out with
  | [] => []
  | d :: t =>
      let k := lower (doi d) in
      if bool_decide (k = []) || bool_decide (k ∈ seen) then dedupe_from seen t
      else d :: dedupe_from ({[ k ]} ∪ seen) t
  end.

Definition _dedupe_dois (dois_info : list doi_record) : list doi_record :=
  dedupe_from ∅ (sort_by_position dois_info).

(** The [style] argument: the five names the function knows; any other
    string selects the cascade. *)
Inductive citation_style := APA7 | IEEE | MLA | Chicago | Vancouver | AutoDetect.

(** [\((\d{4}[a-z]?)\)\.\s*] under IGNORECASE, the year of an APA entry *)
Definition apa_year_re : regex :=
  Seq (Chr (ch "("))
      (Seq (Grp 1 (Seq (Times 4 Digit) (Opt (Cls letter_i))))
           (Seq (Chr (ch ")")) (Seq (Chr (ch ".")) (Star true Space)))).

(** [\((\d{4}[a-z]?)\)\.\s*(.+?)\.(?:\s+[A-Z]|\s+http|$)] *)
Definition apa_re : regex :=
  Seq apa_year_re
      (Seq (Grp 2 (Plus false Any))
           (Seq (Chr (ch "."))
                (Alt (Seq (Plus true Space) (Cls letter_i))
                     (Alt (Seq (Plus true Space) (LitI (codes "http"))) Eos)))).

(** [\((\d{4}[a-z]?)\)\.\s*(.+?)(?:\s+Vol\.|\s+pp\.|\s+\d+\(|\.|http)] *)
Definition apa_relaxed_re : regex :=
  Seq apa_year_re
      (Seq (Grp 2 (Plus false Any))
           (Alt (Seq (Plus true Space) (LitI (codes "Vol.")))
                (Alt (Seq (Plus true Space) (LitI (codes "pp.")))
                     (Alt (Seq (Plus true Space) (Seq (Plus true Digit) (Chr (ch "("))))
                          (Alt (Chr (ch ".")) (LitI (codes "http"))))))).

(** [Q([^Q]+)Q] *)
Definition double_quoted_re : regex :=
  Seq (Chr 34) (Seq (Grp 1 (Plus true (Cls (λ c, negb (c =? 34))))) (Chr 34)).

(** [,\s+([^,]+?),\s+(?:vol\.|in\s+)] under IGNORECASE *)
Definition ieee_unquoted_re : regex :=
  Seq (Chr (ch ","))
      (Seq (Plus true Space)
           (Seq (Grp 1 (Plus false (Cls (λ c, negb (c =? ch ",")))))
                (Seq (Chr (ch ","))
                     (Seq (Plus true Space)
                          (Alt (LitI (codes "vol."))
                               (Seq (LitI (codes "in")) (Plus true Space))))))).

(** [(?:^|\.\s+)([A-Z][^.]+?)\.\s+[A-Z]] *)
Definition mla_unquoted_re : regex :=
  Seq (Alt Bos (Seq (Chr (ch ".")) (Plus true Space)))
      (Seq (Grp 1 (Seq (Cls ascii_upper_letter)
                       (Plus false (Cls (λ c, negb (c =? ch "."))))))
           (Seq (Chr (ch ".")) (Seq (Plus true Space) (Cls ascii_upper_letter)))).

(** [(\d{4})\.\s*(.+?)\.(?:\s+[A-Z]|$)] *)
Definition chicago_re : regex :=
  Seq (Grp 1 (Times 4 Digit))
      (Seq (Chr (ch "."))
           (Seq (Star true Space)
                (Seq (Grp 2 (Plus false Any))
                     (Seq (Chr (ch "."))
                          (Alt (Seq (Plus true Space) (Cls ascii_upper_letter)) Eos))))).

(** The clean-up the APA, Chicago and Vancouver branches apply: URLs
    (in lower case only), then [doi:] tokens, then the strip. *)
Definition strip_links (title : str) : str :=
  Py.strip (sub_const doi_token_re [] (sub_const (url_re false) [] title)).

(** [extract_title_by_style] for one of the five named styles. *)
Definition title_for_style (reference : str) (style : citation_style) : str :=
  let ref := Py.strip reference in
  match style with
  | APA7 =>
      match search apa_re ref with
      | Some m => strip_links (Py.strip (group_or_empty 2 m))
      | None =>
          match search apa_relaxed_re ref with
          | Some m => strip_links (Py.strip (group_or_empty 2 m))
          | None => []
          end
      end
  | IEEE =>
      match search double_quoted_re ref with
      | Some m => Py.strip (group_or_empty 1 m)
      | None =>
          match search ieee_unquoted_re ref with
          | Some m => Py.strip (group_or_empty 1 m)
          | None => []
          end
      end
  | MLA =>
      match search double_quoted_re ref with
      | Some m => Py.strip (group_or_empty 1 m)
      | None =>
          match search mla_unquoted_re ref with
          | Some m => Py.strip (group_or_empty 1 m)
          | None => []
          end
      end
  | Chicago =>
      match search chicago_re ref with
      | Some m => strip_links (Py.strip (group_or_empty 2 m))
      | None => []
      end
  | Vancouver =>
      match Py.split_on (ch ".") ref with
      | _ :: p1 :: _ :: _ =>
          let title := Py.strip p1 in
          match title with
          | [] => []
          | _ => if bool_decide (is_Some (match_ (Seq Bos (Times 4 Digit)) title))
                 then []
                 else strip_links title
          end
      | _ => []
      end
  | AutoDetect => []
  end.

(** The cascade: the first style whose title has more than 10
    characters. *)
Fixpoint first_reasonable (reference : str) (styles : list citation_style) : str :=
  match styles with
  | [] => []
  | st :: rest =>
      let title := title_for_style reference st in
      if (10 <? length title)%nat then title else first_reasonable reference rest
  end.

Definition extract_title_by_style (reference : str) (style : citation_style) : str :=
  match Py.strip reference with
  | [] => []
  | _ =>
      match style with
      | AutoDetect => first_reasonable reference [APA7; IEEE; MLA; Vancouver; Chicago]
      | _ => title_for_style reference style
      end
  end.

End Program.

(** ** Vocabulary of the statements and inputs of the examples *)

(** Records in ascending order of position. *)
Definition by_position `{U : Unicode} : list doi_record → Prop :=
  StronglySorted (λ a b, (position a <= position b)%nat).

(** The key records are compared by: the DOI in lower case. *)
Definition doi_key `{U : Unicode} (r : doi_record) : str := lower (doi r).

(** The same DOI, its case varied, at offsets 10 and 200. *)
Definition twice_cited : str :=
  codes "See also: 10.1234/AbCd " ++ concat (replicate 88 (codes "x "))
  ++ codes " 10.1234/abcd".

(** An a, a soft hyphen, a combining acute accent. *)
Definition accent_after_soft_hyphen : str := [97; 173; 769].

(** Text with a soft hyphen, a CR LF pair and a decomposed accent. *)
Definition messy_line : str :=
  codes "co" ++ [SHY] ++ codes "operate" ++ [CR; LF] ++ codes "re" ++ [769] ++ codes "sume".

(** A reference of two lines in APA style, and its DOI. *)
Definition sample_doi : str := codes "10.1109/TEST.2020.1234567".

Definition sample_lines : list str :=
  [ codes "Smith, J. (2020). Deep learning for text classification. Journal of AI, 12(3),";
    codes "45-67. https://doi.org/10.1109/TEST.2020.1234567" ].


(** A document whose reference section is one short line. *)
Definition short_document : str :=
  codes "Intro" ++ [LF] ++ codes "References" ++ [LF] ++ codes "Smith (2020). A title.".

(** The inputs of the hyphenation examples: a word broken by a hyphen,
    a DOI broken before a dot, after its slash and before its slash. *)
Definition full_doi : str := codes "10.1109/MIC.2022.3141559".

Definition broken_word : str := codes "climate-" ++ [LF] ++ codes "change".

Definition broken_before_dot : str :=
  codes "10.1109/MIC.2022" ++ [LF] ++ codes ".3141559".

Definition broken_after_slash : str :=
  codes "10.1109/" ++ [LF] ++ codes "MIC.2022.3141559".

Definition broken_before_slash : str :=
  codes "10.1109" ++ [LF] ++ codes "/MIC.2022.3141559".

(** A line wrapped between two words. *)
Definition wrapped_words : str := codes "word" ++ [LF] ++ codes "word".

(** An IEEE reference whose quoted title carries a URL. *)
Definition ieee_reference : str :=
  codes "A. Author, " ++ [34] ++ codes "Notes on https://example.org/page usage,"
  ++ [34] ++ codes " IEEE Trans., vol. 1, 2020.".

(** No whitespace next to a slash: [after_space] tells whether the
    character before the text is whitespace. *)
Fixpoint slash_tight (after_space : bool) (s : str) : bool :=
  match s with
  | [] => true
  | c :: t =>
      if c =? ch "/"
      then negb after_space
           && match t with d :: _ => negb (is_space d) | [] => true end
           && slash_tight false t
      else slash_tight (is_space c) t
  end.

(** Whether the character before the cursor is whitespace. *)
Definition space_before (prev : option char) : bool :=
  match prev with Some c => is_space c | None => false end.

(** The Jaccard index of two sets of tokens. *)
Definition jaccard_index (ta tb : gset str) : Q :=
  Z.of_nat (size (ta ∩ tb)) # Pos.of_nat (size (ta ∪ tb)).

(** A block that lies within [a[alo:hi]] and [b[blo:bhi]]. *)
Definition block_within (alo hi blo bhi : nat) (b : Difflib.block) : Prop :=
  (alo <= b.1.1 ∧ b.1.1 + b.2 <= hi ∧ blo <= b.1.2 ∧ b.1.2 + b.2 <= bhi)%nat.

(** A row of match lengths, none longer than [n], each ending at its
    index and starting from [blo] on, below [bhi]. *)
Definition row_within (blo bhi n : nat) (row : gmap nat nat) : Prop :=
  ∀ j k, row !! j = Some k → (k <= n ∧ k + blo <= j + 1 ∧ j < bhi)%nat.

(** Two titles that differ in case only, and two unrelated ones. *)
Definition title_upper : str := codes "Deep Learning for NLP".

(** The reference of the end-to-end scenario of the specification. *)
Definition sample_reference : str :=
  codes "Smith, J. (2020). Deep learning for text classification. Journal of AI, 12(3), 45-67. https://doi.org/10.1109/TEST.2020.1234567".

(** ** The rest of the pipeline *)

(** *** src/doi_extract.py: the page of a DOI, the first reference line *)

(** The value [assign_page] stores under the key [page]: the string N/A
    or the number of a page, counted from 1. *)
Inductive page_label := NoPage | PageNumber (n : nat).

Section Lookup.
Context `{U : Unicode}.

(** The inner loop of [assign_page]: [pi] is the number of the first
    page of [pages_text]. *)
Fixpoint first_page_with (target_compact : str) (pi : nat) (pages_text : list str)
  : page_label :=
  match pages_text with
  | [] => NoPage
  | ptxt :: rest =>
      let page_repaired := normalize_text_for_doi_extraction ptxt in
      let page_norm := lower (normalize_text page_repaired) in
      let page_compact := compact page_norm in
      if Py.contains target_compact page_compact then PageNumber pi
      else first_page_with target_compact (S pi) rest
  end.

Definition page_of (d : doi_record) (pages_text : list str) : page_label :=
  let target := lower (doi d) in
  match target with
  | [] => NoPage
  | _ => first_page_with (compact target) 1 pages_text
  end.

(** [assign_page] updates the dictionaries in place; the model returns
    every record with the page it is given. *)
Definition assign_page (dois_info : list doi_record) (pages_text : list str)
  : list (doi_record * page_label) :=
  map (λ d, (d, page_of d pages_text)) dois_info.

(** The loop of [find_reference_line_for_doi]. *)
Fixpoint first_line_with (doi_norm : str) (reference_lines : list str) : option str :=
  match reference_lines with
  | [] => None
  | ln :: rest =>
      let ln_rep := normalize_text_for_doi_extraction ln in
      let ln_norm := compact (lower (normalize_text ln_rep)) in
      if Py.contains doi_norm ln_norm then Some (normalize_text ln_rep)
      else first_line_with doi_norm rest
  end.

Definition find_reference_line_for_doi (doi : str) (reference_lines : list str)
  : option str :=
  let doi_norm := compact (lower doi) in
  match doi_norm with
  | [] => None
  | _ => first_line_with doi_norm reference_lines
  end.

End Lookup.

(** *** documento.py: the rows of one document *)

Module Documento.
Section Rows.
Context `{U : Unicode}.

(** The loop of the [find_reference_line_for_doi] of [documento.py],
    which compares the lines as they are and returns them as they are. *)
Fixpoint first_raw_line_with (doi_norm : str) (reference_lines : list str) : option str :=
  match reference_lines with
  | [] => None
  | ln :: rest =>
      let ln_norm := compact (lower ln) in
      if Py.contains doi_norm ln_norm then Some ln
      else first_raw_line_with doi_norm rest
  end.

Definition find_reference_line_for_doi (doi : str) (reference_lines : list str)
  : option str :=
  let doi_norm := compact (lower doi) in
  match doi_norm with
  | [] => None
  | _ => first_raw_line_with doi_norm reference_lines
  end.

(** A record of [extract_dois_robust] with the three keys
    [process_pdf_bytes_to_doi_rows] adds to it. *)
Record doi_row := DoiRow {
  row_record : doi_record;
  file_name : str;
  page : page_label;
  reference_line : str
}.

(** [process_pdf_bytes_to_doi_rows] from the text the PDF library
    extracted: [extracted] is what [extract_text_from_pdf_bytes]
    returned for the bytes, the mode and the page count. *)
Definition process_pdf_bytes_to_doi_rows (extracted : str) (name : str)
  (prefer_refs_section : bool) : list doi_row * list str :=
  let base_text := normalize_text extracted in
  let text_for_dois :=
    if prefer_refs_section then
      match (slice_references_section base_text 12).1.1 with
      | [] => base_text
      | ref_text => ref_text
      end
    else base_text in
  let dois_info := extract_dois_robust text_for_dois 60 in
  let reference_lines := extract_reference_lines text_for_dois in
  (map (λ d, DoiRow d name NoPage
               (default [] (find_reference_line_for_doi (doi d) reference_lines)))
       dois_info,
   reference_lines).

End Rows.
End Documento.

(** *** src/doi_validate.py

    The resolver is outside the program: what it answers to the HEAD and
    to the GET request of every attempt, and the time the clock shows
    when the verdict is stored, are given by a [network].  The function
    returns its tuple, the cache as it leaves it, and the requests and
    pauses it made, in order. *)

(** [str(n)] for an integer *)
Definition decimal (n : Z) : str := codes (NilZero.string_of_int (Z.to_int n)).

(** The exceptions the function tells apart: [requests.exceptions.Timeout],
    [requests.exceptions.ConnectionError] that is no timeout, and any
    other, with the name of its type and its text. *)
Inductive failure :=
| Timeout
| ConnectionError
| OtherError (type_name text : str).

Inductive response :=
| Responds (status_code : Z)
| Raises (e : failure).

Record network := Network {
  head_response : nat → response;     (* requests.head of attempt n *)
  get_response : nat → response;      (* requests.get of attempt n *)
  elapsed : nat → Q                   (* time.time() - start, read in attempt n *)
}.

Inductive event :=
| SendHead (attempt : nat)
| SendGet (attempt : nat)
| Sleep (seconds : Q).

(** An entry of the cache. *)
Record verdict := Verdict {
  ok : bool;
  category : str;
  status : Z;
  message : str;
  time : Q
}.

(** What [store] is called with. *)
Definition answer : Type := bool * str * Z * str.

(** How an attempt ends: with a call of [store], or with a pause before
    the next attempt when one is left and the same call of [store] when
    none is. *)
Inductive decision :=
| Final (a : answer)
| RetryOr (factor : Q) (a : answer).

Definition warning_sign : str := [9888; 65039].

Definition needs_get (status : Z) : bool :=
  (status =? 405)%Z || (status =? 403)%Z || (status =? 404)%Z || (status =? 400)%Z
  || (500 <=? status)%Z.

Definition interpret (status : Z) : decision :=
  if (200 <=? status)%Z && (status <? 400)%Z then
    Final (true, codes "valid", status,
           [10003] ++ codes " Resuelve (HTTP " ++ decimal status ++ codes ")")
  else if (status =? 429)%Z then
    RetryOr 1 (false, codes "unknown", status,
               warning_sign ++ codes " Rate limit (HTTP 429)")
  else if (500 <=? status)%Z && (status <? 600)%Z then
    RetryOr (8 # 10) (false, codes "unknown", status,
               warning_sign ++ codes " Error servidor (HTTP " ++ decimal status ++ codes ")")
  else if (status =? 404)%Z then
    Final (false, codes "invalid", status,
           [10007] ++ codes " doi.org respondi" ++ [243] ++ codes " 404 (no resolvi"
           ++ [243] ++ codes " el DOI)")
  else if (status =? 400)%Z then
    Final (false, codes "invalid", status,
           [10007] ++ codes " doi.org respondi" ++ [243]
           ++ codes " 400 (Bad Request; posible DOI/formato inv" ++ [225] ++ codes "lido)")
  else
    RetryOr (6 # 10) (false, codes "unknown", status,
               warning_sign ++ codes " Respuesta no concluyente (HTTP " ++ decimal status
               ++ codes ")").

Definition on_failure (e : failure) : decision :=
  match e with
  | Timeout => RetryOr 1 (false, codes "unknown", 0%Z, warning_sign ++ codes " Timeout")
  | ConnectionError =>
      RetryOr 1 (false, codes "unknown", 0%Z,
                 warning_sign ++ codes " Error de conexi" ++ [243] ++ codes "n")
  | OtherError type_name text =>
      RetryOr (6 # 10) (false, codes "unknown", 0%Z,
                 warning_sign ++ codes " Error: " ++ type_name ++ codes ": " ++ take 80 text)
  end.

(** The body of the [try] of one attempt: the requests it sends and how
    it ends. *)
Definition attempt_once (net : network) (attempt : nat) : list event * decision :=
  match head_response net attempt with
  | Raises e => ([SendHead attempt], on_failure e)
  | Responds status =>
      if needs_get status then
        match get_response net attempt with
        | Raises e => ([SendHead attempt; SendGet attempt], on_failure e)
        | Responds status' => ([SendHead attempt; SendGet attempt], interpret status')
        end
      else ([SendHead attempt], interpret status)
  end.

(** [(2 ** attempt) * factor] *)
Definition backoff (attempt : nat) (factor : Q) : Q :=
  (inject_Z (2 ^ Z.of_nat attempt) * factor)%Q.

(** The loop over [range(max_retries)] from [attempt] on, [remaining]
    attempts being left, and the call of [store] after it: the events,
    the answer stored and the attempt in which it is stored. *)
Fixpoint attempts (net : network) (max_retries : Z) (remaining attempt : nat)
  : list event * (answer * nat) :=
  match remaining with
  | O =>
      ([], ((false, codes "unknown", 0%Z,
             warning_sign ++ codes " M" ++ [225] ++ codes "ximo de reintentos alcanzado"),
            attempt))
  | S remaining' =>
      let (sent, d) := attempt_once net attempt in
      match d with
      | Final a => (sent, (a, attempt))
      | RetryOr factor a =>
          if (Z.of_nat attempt <? max_retries - 1)%Z then
            let (later, r) := attempts net max_retries remaining' (S attempt) in
            (sent ++ Sleep (backoff attempt factor) :: later, r)
          else (sent, (a, attempt))
      end
  end.

Section Validation.
Context `{U : Unicode}.

Definition validate_doi_http (doi : str) (timeout : Q) (max_retries : Z)
  (cache : gmap str verdict) (net : network)
  : (str * bool * str * Z * str * Q) * gmap str verdict * list event :=
  let key := lower doi in
  match cache !! key with
  | Some c => ((doi, ok c, category c, status c, message c, time c), cache, [])
  | None =>
      let (sent, r) := attempts net max_retries (Z.to_nat max_retries) 0 in
      let '((ok, cat, status, msg), attempt) := r in
      let rt := elapsed net attempt in
      ((doi, ok, cat, status, msg, rt),
       <[ key := Verdict ok cat status msg rt ]> cache,
       sent)
  end.

End Validation.

(** *** app.py: the category shown for a verdict

    [http_status] is the status [validate_doi_http] returned, an
    integer, or [None]. *)
Definition _categorize_doi (category : str) (http_status : option Z) : str :=
  if bool_decide (category = codes "valid") then codes "v" ++ [225] ++ codes "lido"
  else if bool_decide (category = codes "invalid") then
    codes "inv" ++ [225] ++ codes "lido"
  else if bool_decide (category = codes "unknown") then
    match http_status with
    | Some status_code =>
        if (400 <=? status_code)%Z && (status_code <? 600)%Z then codes "sospechoso"
        else codes "desconocido"
    | None => codes "desconocido"
    end
  else category.

(** ** Vocabulary of the further properties *)

(** Every maximal run of characters satisfying [p] replaced by [text];
    [in_run] tells whether the character before belongs to a run. *)
Fixpoint replace_runs (p : char → bool) (text : str) (in_run : bool) (s : str) : str :=
  match s with
  | [] => []
  | c :: t =>
      if p c then (if in_run then [] else text) ++ replace_runs p text true t
      else c :: replace_runs p text false t
  end.

(** Text without whitespace other than single spaces between two
    characters that are none; [after_space] tells whether the text
    follows a space or starts the string. *)
Fixpoint single_spaced_from (after_space : bool) (s : str) : bool :=
  match s with
  | [] => negb after_space
  | c :: t =>
      if is_space c then (c =? SP) && negb after_space && single_spaced_from true t
      else single_spaced_from false t
  end.

Definition single_spaced (s : str) : bool :=
  match s with
  | [] => true
  | _ => single_spaced_from true s
  end.

(** The characters a normalised title is made of. *)
Definition title_char (c : char) : bool :=
  ascii_lower_letter c || ascii_digit c || (c =? ch "-") || (c =? SP).

(** The number of requests and of pauses in a list of events. *)
Definition requests_in (evs : list event) : nat :=
  length (List.filter (λ e, match e with Sleep _ => false | _ => true end) evs).

Definition pauses_in (evs : list event) : nat :=
  length (List.filter (λ e, match e with Sleep _ => true | _ => false end) evs).

(** [spells P r]: every match of [r] is made of characters that
    satisfy [P]. *)
Inductive spells (P : char → Prop) : Re.regex → Prop :=
| sp_eps : spells P Re.Eps
| sp_cls p : (∀ c, p c = true → P c) → spells P (Re.Cls p)
| sp_seq r1 r2 : spells P r1 → spells P r2 → spells P (Re.Seq r1 r2)
| sp_alt r1 r2 : spells P r1 → spells P r2 → spells P (Re.Alt r1 r2)
| sp_star g r : spells P r → spells P (Re.Star g r).

(** The previous character once the matcher has passed over [w]. *)
Definition prev_after (w : str) (prev : option char) : option char :=
  fold_left (λ _ c, Some c) w prev.

(** The text does not start with a character satisfying [p]. *)
Definition starts_outside (p : char → bool) (rest : str) : Prop :=
  match rest with d :: _ => p d = false | [] => True end.

(** A document with a reference section of three entries between its
    heading and an appendix. *)
Definition long_document : str :=
  let entry (n : string) :=
    codes "Author, A., and Writer, B. (2020). A study of reference sections, part "
    ++ codes n ++ codes ". Journal of Documents, 12(3), 45-67." in
  codes "Intro" ++ [LF] ++ codes "References" ++ [LF]
  ++ entry "one"%string ++ [LF] ++ entry "two"%string ++ [LF] ++ entry "three"%string ++ [LF]
  ++ codes "Appendix" ++ [LF] ++ codes "Tables".

(** The answer a decision carries. *)
Definition decision_answer (d : decision) : answer :=
  match d with Final a | RetryOr _ a => a end.

(** The verdict agrees with the status: [ok] stands for valid, valid for
    a status from 200 to 399, invalid for 404 and 400. *)
Definition sound_answer (a : answer) : Prop :=
  let '(ok, cat, status, _) := a in
  (ok = true ↔ cat = codes "valid")
  ∧ (cat = codes "valid" ↔ (200 <= status < 400)%Z)
  ∧ (cat = codes "invalid" ↔ status = 404%Z ∨ status = 400%Z)
  ∧ (cat = codes "valid" ∨ cat = codes "invalid" ∨ cat = codes "unknown").

(** A resolver that refuses HEAD requests and answers GET requests, and
    one that turns every request away for its rate. *)
Definition head_refusing_resolver : network :=
  Network (λ _, Responds 405) (λ _, Responds 200) (λ _, 1 # 2).

Definition rate_limiting_resolver : network :=
  Network (λ _, Responds 429) (λ _, Responds 429) (λ n, inject_Z (Z.of_nat n)).

(** A resolver whose server fails once and then answers. *)
Definition recovering_resolver : network :=
  Network (λ n, match n with O => Responds 503 | _ => Responds 302 end)
          (λ _, Responds 503) (λ _, 3 # 2).

(** Two titles with the same words in another order. *)
Definition title_reordered : str := codes "NLP for deep learning".

(** The text without the characters satisfying [p] it ends with. *)
Fixpoint without_trailing (p : char → bool) (s : str) : str :=
  match s with
  | [] => []
  | c :: t => if forallb p s then [] else c :: without_trailing p t
  end.

(** The punctuation [clean_doi] takes off the end of a DOI. *)
Definition dangling (c : char) : bool := one_of (34 :: codes ".,;:)]}'") c.

(** The first character after the whitespace the text starts with is a
    slash. *)
Definition slash_ahead (t : str) : bool :=
  match Py.drop_while is_space t with
  | c :: _ => c =? ch "/"
  | [] => false
  end.

(** * Properties *)

(** ** Python string methods *)

Section PyFacts.

Lemma elem_of_rev {A} (x : A) (l : list A) : x ∈ rev l ↔ x ∈ l.
Proof. rewrite !list_elem_of_In. symmetry. apply in_rev. Qed.

Lemma drop_while_elem (p : char → bool) (s : str) (c : char) :
  c ∈ Py.drop_while p s → c ∈ s.
Proof.
  induction s as [|x t IH]; simpl; [done|].
  destruct (p x); [|done].
  intros H. right. by apply IH.
Qed.

Lemma drop_while_head (p : char → bool) (s : str) (c : char) (t : str) :
  Py.drop_while p s = c :: t → p c = false.
Proof.
  induction s as [|x s' IH]; simpl; [done|].
  destruct (p x) eqn:E; [done|].
  intros [= -> _]. done.
Qed.

Lemma strip_elem (s : str) (c : char) : c ∈ Py.strip s → c ∈ s.
Proof.
  unfold Py.strip, Py.rstrip, Py.lstrip.
  rewrite elem_of_rev. intros H%drop_while_elem.
  rewrite elem_of_rev in H. by apply drop_while_elem in H.
Qed.

Lemma rstrip_chars_elem (cs s : str) (c : char) : c ∈ Py.rstrip_chars cs s → c ∈ s.
Proof.
  unfold Py.rstrip_chars.
  rewrite elem_of_rev. intros H%drop_while_elem.
  by rewrite elem_of_rev in H.
Qed.

(** A stripped string that is not empty ends with a character that is
    not whitespace. *)
Lemma strip_nonempty_elem (s : str) :
  Py.strip s ≠ [] → ∃ c, c ∈ Py.strip s ∧ is_space c = false.
Proof.
  unfold Py.strip, Py.rstrip. intros H.
  destruct (Py.drop_while is_space (rev (Py.lstrip s))) as [|c t] eqn:E; [done|].
  exists c. split.
  - rewrite elem_of_rev. by left.
  - by apply drop_while_head in E.
Qed.

Lemma replace_from_elem (old new : str) (skip : nat) (s : str) (c : char) :
  c ∈ Py.replace_from old new skip s → c ∈ s ∨ c ∈ new.
Proof.
  revert skip. induction s as [|x t IH]; intros skip; simpl.
  - intros H. by left.
  - destruct skip as [|n].
    + destruct (Py.starts_with old (x :: t)).
      * rewrite elem_of_app. intros [H|H]; [by right|].
        apply IH in H as [H|H]; [left; by right|by right].
      * rewrite elem_of_cons. intros [->|H]; [left; by left|].
        apply IH in H as [H|H]; [left; by right|by right].
    + intros H. apply IH in H as [H|H]; [left; by right|by right].
Qed.

Lemma replace_elem (old new s : str) (c : char) :
  c ∈ Py.replace old new s → c ∈ s ∨ c ∈ new.
Proof. apply replace_from_elem. Qed.

Lemma starts_with_head (x : char) (p s : str) :
  Py.starts_with (x :: p) s = true → ∃ t, s = x :: t.
Proof.
  destruct s as [|y t]; simpl; [done|].
  intros [->%N.eqb_eq _]%andb_true_iff. by exists t.
Qed.

(** Replacing a string whose first character does not occur changes
    nothing. *)
Lemma replace_absent (x : char) (old new s : str) :
  x ∉ s → Py.replace (x :: old) new s = s.
Proof.
  unfold Py.replace. induction s as [|y t IH]; [done|].
  intros H. apply not_elem_of_cons in H as [Hxy Ht].
  cbn [Py.replace_from].
  destruct (Py.starts_with (x :: old) (y :: t)) eqn:E.
  - apply starts_with_head in E as [t' [= ->]]. done.
  - by rewrite IH.
Qed.

(** Replacing one character leaves no occurrence of it, unless the
    replacement brings one. *)
Lemma replace_char_gone (x : char) (new s : str) :
  x ∉ new → x ∉ Py.replace [x] new s.
Proof.
  intros Hnew. unfold Py.replace. induction s as [|y t IH]; [apply not_elem_of_nil|].
  cbn [Py.replace_from Py.starts_with length Nat.pred].
  destruct (x =? y) eqn:E; cbn [andb].
  - rewrite not_elem_of_app. done.
  - apply not_elem_of_cons. split; [|done].
    intros ->. by rewrite N.eqb_refl in E.
Qed.

Lemma replace_keeps_absent (x : char) (old new s : str) :
  x ∉ s → x ∉ new → x ∉ Py.replace old new s.
Proof.
  intros Hs Hnew H. apply replace_elem in H as [H|H]; done.
Qed.

Lemma drop_while_length (p : char → bool) (s : str) :
  (length (Py.drop_while p s) <= length s)%nat.
Proof.
  induction s as [|x t IH]; simpl; [done|].
  destruct (p x); simpl; lia.
Qed.

Lemma strip_length (s : str) : (length (Py.strip s) <= length s)%nat.
Proof.
  unfold Py.strip, Py.rstrip, Py.lstrip. rewrite length_rev.
  etrans; [apply drop_while_length|]. rewrite length_rev. apply drop_while_length.
Qed.

(** The length of [sep.join(parts)]: the parts and a separator between
    each two. *)
Lemma join_length (sep : str) (parts : list str) :
  length (Py.join sep parts)
  = (list_sum (map length parts) + length sep * (length parts - 1))%nat.
Proof.
  induction parts as [|p ps IH]; simpl; [lia|].
  destruct ps as [|q qs]; [simpl; lia|].
  rewrite !length_app, IH. simpl. lia.
Qed.

Lemma list_sum_take_drop (n m : nat) (l : list nat) :
  (list_sum (take n (drop m l)) <= list_sum l)%nat.
Proof.
  revert n m. induction l as [|x t IH]; intros n m.
  - by destruct n, m.
  - destruct m as [|m]; simpl.
    + destruct n as [|n]; simpl; [lia|]. specialize (IH n 0%nat). rewrite drop_0 in IH. lia.
    + specialize (IH n m). lia.
Qed.

(** A slice of the parts joins to no more than the parts do. *)
Lemma join_slice_length (sep : str) (parts : list str) (n m : nat) :
  (length (Py.join sep (take n (drop m parts))) <= length (Py.join sep parts))%nat.
Proof.
  rewrite !join_length.
  pose proof (list_sum_take_drop n m (map length parts)) as H.
  rewrite <- fmap_drop, <- fmap_take in H.
  assert (length (take n (drop m parts)) <= length parts)%nat.
  { rewrite length_take, length_drop. lia. }
  change (map length) with (fmap (M:=list) (@length char)) in *.
  assert (length sep * (length (take n (drop m parts)) - 1)
          <= length sep * (length parts - 1))%nat
    by (apply Nat.mul_le_mono_l; lia).
  unfold str in *. lia.
Qed.

(** The lines of a text, joined by one character each, are no longer
    than the text. *)
Lemma splitlines_from_length (s : str) :
  (∀ cur, length (Py.join [LF] (Py.splitlines_from cur s)) <= length cur + length s)%nat
  ∧ (∀ x cur, length (Py.join [LF] (Py.splitlines_from cur (x :: s)))
              <= length cur + S (length s))%nat.
Proof.
  assert (Hcons : ∀ (l : str) (ls : list str) (n : nat),
             (length (Py.join [LF] ls) <= n)%nat →
             (length (Py.join [LF] (l :: ls)) <= length l + S n)%nat).
  { intros l [|l' ls] n H; simpl in *; [lia|]. rewrite !length_app in *. simpl. lia. }
  induction s as [|y t [IH1 IH2]].
  - split; intros.
    + simpl. destruct cur; simpl; [lia|]. rewrite length_app, length_rev. simpl. lia.
    + simpl. destruct (is_linebreak x); simpl.
      * rewrite length_rev. lia.
      * rewrite length_app, length_rev. simpl. lia.
  - split; [intros cur; apply IH2|].
    intros x cur. cbn [Py.splitlines_from].
    destruct (is_linebreak x).
    + destruct ((x =? CR) && (y =? LF)).
      * etrans; [apply Hcons, (IH1 [])|]. rewrite length_rev. simpl. lia.
      * etrans; [apply Hcons, (IH2 y [])|]. rewrite length_rev. simpl. lia.
    + etrans; [apply (IH2 y (x :: cur))|]. simpl. lia.
Qed.

Lemma splitlines_length (s : str) :
  (length (Py.join [LF] (Py.splitlines s)) <= length s)%nat.
Proof. apply (proj1 (splitlines_from_length s) []). Qed.

End PyFacts.

(** ** The matcher *)

Section ReFacts.
Import Re.

Lemma star_loop_sound {A} (body : (mstate → option A) → mstate → option A)
  (r : regex) (g : bool) (k : mstate → option A) :
  (∀ k' s a, body k' s = Some a → ∃ s', denotes r s s' ∧ k' s' = Some a) →
  ∀ fuel s a, star_loop body g k fuel s = Some a →
              ∃ s', denotes (Star g r) s s' ∧ k s' = Some a.
Proof.
  intros Hbody fuel. induction fuel as [|fuel IH]; intros s a; simpl.
  - intros H. exists s. split; [constructor|done].
  - assert (Hround : ∀ a',
      body (λ s', if (m_pos s' =? m_pos s)%nat then None
                  else star_loop body g k fuel s') s = Some a' →
      ∃ s', denotes (Star g r) s s' ∧ k s' = Some a').
    { intros a' H. apply Hbody in H as (s1 & Hd & H).
      destruct (m_pos s1 =? m_pos s)%nat; [done|].
      apply IH in H as (s2 & Hd2 & H). exists s2. split; [|done].
      by eapply d_star_round. }
    destruct g.
    + destruct (body _ s) as [a'|] eqn:E.
      * intros [= <-]. by apply Hround.
      * intros H. exists s. split; [constructor|done].
    + destruct (k s) as [a'|] eqn:E.
      * intros [= <-]. exists s. split; [constructor|done].
      * apply Hround.
Qed.

(** Soundness of the search: a successful match went through a state
    the pattern denotes. *)
Lemma rmatch_sound (r : regex) :
  ∀ A (k : mstate → option A) s a,
    rmatch r k s = Some a → ∃ s', denotes r s s' ∧ k s' = Some a.
Proof.
  induction r as [|p|r1 IH1 r2 IH2|r1 IH1 r2 IH2|g r IH|n r IH|r IH| | |w];
    intros A k s a; cbn [rmatch].
  - intros H. exists s. split; [constructor|done].
  - destruct (m_rest s) as [|c t] eqn:E; [done|].
    destruct (p c) eqn:Ep; [|done].
    intros H. exists (step_char c t s). split; [by constructor|done].
  - intros H. apply IH1 in H as (s1 & Hd1 & H).
    apply IH2 in H as (s2 & Hd2 & H).
    exists s2. split; [by econstructor|done].
  - destruct (rmatch r1 k s) as [a'|] eqn:E.
    + intros [= <-]. apply IH1 in E as (s' & Hd & H).
      exists s'. split; [by apply d_alt_l|done].
    + intros H. apply IH2 in H as (s' & Hd & H).
      exists s'. split; [by apply d_alt_r|done].
  - apply star_loop_sound. intros k' s0 a0. apply IH.
  - intros H. apply IH in H as (s' & Hd & H).
    exists (close_group n s s'). split; [by constructor|done].
  - destruct (rmatch r _ s); [done|].
    intros H. exists s. split; [constructor|done].
  - destruct (m_pos s =? 0)%nat eqn:E; [|done].
    intros H. exists s. split; [|done].
    constructor. by apply Nat.eqb_eq.
  - destruct (at_end s) eqn:E; [|done].
    intros H. exists s. split; [by constructor|done].
  - destruct (at_boundary w s) eqn:E; [|done].
    intros H. exists s. split; [by constructor|done].
Qed.

(** A pattern only moves forward, over a prefix of the text left. *)
Lemma denotes_rest (r : regex) (s s' : mstate) :
  denotes r s s' →
  ∃ w, m_rest s = w ++ m_rest s' ∧ m_pos s' = (m_pos s + length w)%nat.
Proof.
  induction 1 as [s|p c t s E Hp|r1 r2 s s1 s2 _ IH1 _ IH2|r1 r2 s s' _ IH
                 |r1 r2 s s' _ IH|g r s|g r s s1 s2 _ IH1 _ IH2|n r s s' _ IH
                 |r s|s|s|w s];
    try (exists []; simpl; split; [done|lia]).
  - exists [c]. simpl. split; [done|lia].
  - destruct IH1 as (w1 & E1 & P1), IH2 as (w2 & E2 & P2).
    exists (w1 ++ w2). rewrite E1, E2, length_app, <- app_assoc. split; [done|lia].
  - done.
  - done.
  - destruct IH1 as (w1 & E1 & P1), IH2 as (w2 & E2 & P2).
    exists (w1 ++ w2). rewrite E1, E2, length_app, <- app_assoc. split; [done|lia].
  - done.
Qed.

Lemma requires_contains (c0 : char) (r : regex) :
  requires c0 r → ∀ s s', denotes r s s' → ∃ w, m_rest s = w ++ m_rest s' ∧ c0 ∈ w.
Proof.
  induction 1 as [p Hp|r1 r2 _ IH|r1 r2 _ IH|r1 r2 _ IH1 _ IH2|n r _ IH];
    intros s s' Hd; inversion Hd; subst.
  - exists [c]. split; [done|]. rewrite (Hp c); [by left|done].
  - match goal with H1 : denotes r1 _ _, H2 : denotes r2 _ _ |- _ =>
      apply IH in H1 as (w1 & E1 & Hin); apply denotes_rest in H2 as (w2 & E2 & _) end.
    exists (w1 ++ w2). rewrite E1, E2, <- app_assoc. split; [done|].
    apply elem_of_app. by left.
  - match goal with H1 : denotes r1 _ _, H2 : denotes r2 _ _ |- _ =>
      apply IH in H2 as (w2 & E2 & Hin); apply denotes_rest in H1 as (w1 & E1 & _) end.
    exists (w1 ++ w2). rewrite E1, E2, <- app_assoc. split; [done|].
    apply elem_of_app. by right.
  - by apply IH1.
  - by apply IH2.
  - match goal with H : denotes r _ _ |- _ => apply IH in H as (w & E & Hin) end.
    by exists w.
Qed.

(** A pattern that requires a character does not match where the text
    left does not have it. *)
Lemma match_at_requires (c0 : char) (r : regex) prev pos rest :
  requires c0 r → c0 ∉ rest → match_at r prev pos rest = None.
Proof.
  intros Hreq Hnot. unfold match_at.
  destruct (rmatch r Some _) as [e|] eqn:E; [|done].
  apply rmatch_sound in E as (s' & Hd & _).
  apply (requires_contains _ _ Hreq) in Hd as (w & Hw & Hin).
  simpl in Hw. subst rest. exfalso. apply Hnot, elem_of_app. by left.
Qed.

(** Where no position has a match, the scan gives the text back. *)
Lemma scan_no_match (r : regex) (rest : str) :
  (∀ prev pos suf, suffix suf rest → match_at r prev pos suf = None) →
  ∀ prev pos, scan r prev pos 0 rest = map inl rest.
Proof.
  induction rest as [|c t IH]; intros H prev pos; simpl.
  - rewrite H; [done|]. done.
  - rewrite H; [|done]. f_equal. apply IH.
    intros prev' pos' suf Hs. apply H. by apply suffix_cons_r.
Qed.

Lemma rebuild_inl (repl : mobj → str) (s : str) : rebuild repl (map inl s) = s.
Proof. induction s as [|c t IH]; simpl; [done|by rewrite IH]. Qed.

Lemma sub_requires (c0 : char) (r : regex) (repl : mobj → str) (s : str) :
  requires c0 r → c0 ∉ s → sub r repl s = s.
Proof.
  intros Hreq Hnot. unfold sub.
  rewrite scan_no_match; [apply rebuild_inl|].
  intros prev pos suf [pre ->]. apply (match_at_requires c0); [done|].
  intros Hin. apply Hnot, elem_of_app. by right.
Qed.

(** The characters a scan leaves between the matches are characters of
    the text. *)
Lemma scan_inl_elem (r : regex) (rest : str) :
  ∀ prev pos skip c, inl c ∈ scan r prev pos skip rest → c ∈ rest.
Proof.
  induction rest as [|x t IH]; intros prev pos skip c; simpl.
  - destruct skip; [|by intros ?%elem_of_nil].
    destruct (match_at r prev pos []); [|by intros ?%elem_of_nil].
    intros H%elem_of_cons. destruct H as [H|H%elem_of_nil]; done.
  - destruct skip as [|n].
    + destruct (match_at r prev pos (x :: t)) as [m|].
      * intros [H|H]%elem_of_cons; [done|].
        destruct (mo_end m - pos)%nat.
        -- apply elem_of_cons in H as [[= ->]|H]; [by left|].
           right. by eapply IH.
        -- right. by eapply IH.
      * intros [[= ->]|H]%elem_of_cons; [by left|].
        right. by eapply IH.
    + intros H. right. by eapply IH.
Qed.

Lemma rebuild_const_elem (text : str) (ps : list (char + mobj)) (c : char) :
  c ∈ rebuild (λ _, text) ps → inl c ∈ ps ∨ c ∈ text.
Proof.
  induction ps as [|[x|m] t IH]; simpl.
  - by intros ?%elem_of_nil.
  - intros [->|H]%elem_of_cons; [left; by left|].
    apply IH in H as [H|H]; [left; by right|by right].
  - intros [H|H]%elem_of_app; [by right|].
    apply IH in H as [H|H]; [left; by right|by right].
Qed.

Lemma sub_const_elem (r : regex) (text s : str) (c : char) :
  c ∈ sub_const r text s → c ∈ s ∨ c ∈ text.
Proof.
  unfold sub_const, sub. intros [H|H]%rebuild_const_elem; [|by right].
  left. by eapply scan_inl_elem.
Qed.

(** A repetition succeeds whenever what follows it does. *)
Lemma star_loop_total {A} (body : (mstate → option A) → mstate → option A)
  (g : bool) (k : mstate → option A) (fuel : nat) (s : mstate) :
  is_Some (k s) → is_Some (star_loop body g k fuel s).
Proof.
  intros [a Ha]. destruct fuel as [|fuel]; simpl; [by exists a|].
  destruct g.
  - destruct (body _ s) as [a'|]; [by exists a'|by exists a].
  - rewrite Ha. by exists a.
Qed.

End ReFacts.

(** ** The text normaliser *)

Section NormalizerFacts.
Context `{U : Unicode}.

Lemma normalize_text_no_cr (x : str) : CR ∉ normalize_text x.
Proof. unfold normalize_text. apply replace_char_gone. by intros [=]%list_elem_of_singleton. Qed.

Lemma normalize_text_no_shy (x : str) : SHY ∉ normalize_text x.
Proof.
  unfold normalize_text.
  apply replace_keeps_absent; [|by intros [=]%list_elem_of_singleton].
  apply replace_keeps_absent; [|by intros [=]%list_elem_of_singleton].
  apply replace_char_gone. apply not_elem_of_nil.
Qed.

(** Once the unicode normal form leaves a string alone, the rest of the
    normaliser has nothing to do on a string it produced. *)
Lemma normalize_text_fixpoint (y : str) :
  nfkc y = y → SHY ∉ y → CR ∉ y → normalize_text y = y.
Proof.
  intros Hn Hs Hc. unfold normalize_text. rewrite Hn.
  by rewrite (replace_absent SHY [] [] y Hs), (replace_absent CR [LF] [LF] y Hc),
    (replace_absent CR [] [LF] y Hc).
Qed.

End NormalizerFacts.

(** ** The matcher on the patterns of the program *)

Section PatternFacts.
Context `{U : Unicode}.
Import Re.

(** [\s+] matches at every whitespace character, and takes it. *)
Lemma spaces_match_at prev pos (c : char) (t : str) :
  is_space c = true →
  ∃ m n, match_at spaces_re prev pos (c :: t) = Some m ∧ (mo_end m - pos)%nat = S n.
Proof.
  intros Hc. unfold match_at, spaces_re, Plus, Space. cbn [rmatch m_rest]. rewrite Hc.
  set (s1 := step_char c t _).
  destruct (star_loop_total (rmatch (Cls is_space)) true Some
              (S (length (m_rest s1))) s1) as [e He]; [by eexists|].
  change (star_loop _ _ _ _ _) with (rmatch (Star true (Cls is_space)) Some s1) in He.
  change (star_loop _ _ _ _ _) with (rmatch (Star true (Cls is_space)) Some s1).
  rewrite He. apply rmatch_sound in He as (s' & Hd & [= <-]).
  apply denotes_rest in Hd as (w & _ & Hp).
  exists (mk_mobj pos (c :: t) s'), (length w). split; [done|].
  simpl. rewrite Hp. simpl. lia.
Qed.

Lemma scan_spaces_inl (rest : str) :
  ∀ prev pos skip c, inl c ∈ scan spaces_re prev pos skip rest → is_space c = false.
Proof.
  induction rest as [|x t IH]; intros prev pos skip c; simpl.
  - destruct skip; by intros ?%elem_of_nil.
  - destruct skip as [|n]; [|by apply IH].
    destruct (is_space x) eqn:Ex.
    + destruct (spaces_match_at prev pos x t Ex) as (m & n & -> & ->).
      intros [H|H]%elem_of_cons; [done|]. by eapply IH.
    + destruct (match_at spaces_re prev pos (x :: t)) as [m|].
      * intros [H|H]%elem_of_cons; [done|].
        destruct (mo_end m - pos)%nat.
        -- apply elem_of_cons in H as [[= ->]|H]; [done|]. by eapply IH.
        -- by eapply IH.
      * intros [[= ->]|H]%elem_of_cons; [done|]. by eapply IH.
Qed.

(** What [re.sub] of [\s+] by the empty string returns has no whitespace. *)
Lemma compact_no_space (s : str) (c : char) : c ∈ compact s → is_space c = false.
Proof.
  unfold compact, sub_const, sub.
  intros [H|H]%rebuild_const_elem; [|by apply elem_of_nil in H].
  by eapply scan_spaces_inl.
Qed.

End PatternFacts.

(** ** The DOI extractors *)

Section ExtractorFacts.
Context `{U : Unicode}.
Import Re.

Local Ltac from_char H :=
  first [ by apply elem_of_nil in H
        | apply list_elem_of_singleton in H; subst; reflexivity ].

Lemma clean_doi_no_space (raw : str) (c : char) :
  c ∈ clean_doi raw → is_space c = false.
Proof.
  unfold clean_doi. intros H%strip_elem.
  apply sub_const_elem in H as [H|H]; [|from_char H].
  apply sub_const_elem in H as [H|H]; [|from_char H].
  apply replace_elem in H as [H|H]; [|from_char H].
  apply replace_elem in H as [H|H]; [|from_char H].
  apply replace_elem in H as [H|H]; [|from_char H].
  apply replace_elem in H as [H|H]; [|from_char H].
  apply replace_elem in H as [H|H]; [|from_char H].
  apply replace_elem in H as [H|H]; [|from_char H].
  by eapply compact_no_space.
Qed.

Lemma insert_by_position_elem (r x : doi_record) (l : list doi_record) :
  r ∈ insert_by_position x l ↔ r = x ∨ r ∈ l.
Proof.
  induction l as [|y t IH]; simpl.
  - rewrite list_elem_of_singleton, elem_of_nil. tauto.
  - destruct (position x <=? position y)%nat.
    + by rewrite elem_of_cons.
    + rewrite !elem_of_cons, IH. tauto.
Qed.

Lemma sort_by_position_elem (r : doi_record) (l : list doi_record) :
  r ∈ sort_by_position l ↔ r ∈ l.
Proof.
  unfold sort_by_position. induction l as [|y t IH]; simpl; [done|].
  by rewrite insert_by_position_elem, elem_of_cons, IH.
Qed.

Lemma keep_first_elem (r : doi_record) (l : list doi_record) :
  ∀ seen, r ∈ keep_first seen l → r ∈ l.
Proof.
  induction l as [|d t IH]; intros seen; simpl; [done|].
  destruct (bool_decide _).
  - intros H. right. by eapply IH.
  - intros [->|H]%elem_of_cons; [by left|]. right. by eapply IH.
Qed.

Lemma records_of_pattern_elem (t : str) (mc : Z) (idx : nat) (pat : regex)
  (r : doi_record) :
  r ∈ records_of_pattern t mc idx pat →
  is_valid_doi_format (doi r) = true ∧ ∃ raw, doi r = clean_doi raw.
Proof.
  unfold records_of_pattern. rewrite list_elem_of_In, in_flat_map.
  intros (m & _ & H).
  destruct (clean_doi (group_or_empty 1 m)) as [|c d] eqn:E; [done|].
  destruct (is_valid_doi_format (c :: d)) eqn:V; [|done].
  destruct H as [<-|[]]. simpl. split; [done|]. by eexists.
Qed.

Lemma robust_records_elem (t : str) (mc : Z) (r : doi_record) :
  r ∈ robust_records t mc →
  is_valid_doi_format (doi r) = true
  ∧ ∃ raw, doi r = Py.rstrip_chars _TRAILING_PUNCT (clean_doi raw).
Proof.
  unfold robust_records. rewrite list_elem_of_In, in_flat_map.
  intros (m & _ & H).
  destruct (Py.rstrip_chars _TRAILING_PUNCT (clean_doi _)) as [|c d] eqn:E; [done|].
  destruct (is_valid_doi_format (c :: d)) eqn:V; [|done].
  destruct H as [<-|[]]. simpl. split; [done|]. by eexists.
Qed.

Lemma extract_dois_from_text_elem (text : str) (mc : Z) (r : doi_record) :
  r ∈ extract_dois_from_text text mc →
  is_valid_doi_format (doi r) = true ∧ ∃ raw, doi r = clean_doi raw.
Proof.
  unfold extract_dois_from_text. rewrite sort_by_position_elem.
  rewrite list_elem_of_In, in_concat. intros (l & Hl & Hr).
  apply list_elem_of_In, elem_of_lookup_imap in Hl as (i & pat & -> & _).
  apply list_elem_of_In in Hr. by eapply records_of_pattern_elem.
Qed.

Lemma extract_dois_robust_elem (text : str) (mc : Z) (r : doi_record) :
  r ∈ extract_dois_robust text mc →
  is_valid_doi_format (doi r) = true
  ∧ ∃ raw, doi r = Py.rstrip_chars _TRAILING_PUNCT (clean_doi raw).
Proof.
  unfold extract_dois_robust. intros H%keep_first_elem.
  rewrite sort_by_position_elem in H. by eapply robust_records_elem.
Qed.

(** C1. Every record either extractor returns carries a DOI that
    [is_valid_doi_format] accepts and that has no whitespace character. *)
Theorem extracted_doi_valid (text : str) (max_context : Z) (r : doi_record) :
  r ∈ extract_dois_from_text text max_context
  ∨ r ∈ extract_dois_robust text max_context →
  is_valid_doi_format (doi r) = true ∧ Forall (λ c, is_space c = false) (doi r).
Proof.
  intros [H|H].
  - apply extract_dois_from_text_elem in H as (V & raw & E).
    split; [done|]. apply Forall_forall. intros c Hc. rewrite E in Hc.
    by eapply clean_doi_no_space.
  - apply extract_dois_robust_elem in H as (V & raw & E).
    split; [done|]. apply Forall_forall. intros c Hc. rewrite E in Hc.
    apply rstrip_chars_elem in Hc. by eapply clean_doi_no_space.
Qed.

End ExtractorFacts.

(** ** Deduplication *)

Section DedupFacts.
Context `{U : Unicode}.

Lemma insert_by_position_sorted (x : doi_record) (l : list doi_record) :
  by_position l → by_position (insert_by_position x l).
Proof.
  unfold by_position. induction 1 as [|y t Ht IH Hy]; simpl.
  - repeat constructor.
  - destruct (position x <=? position y)%nat eqn:E.
    + apply Nat.leb_le in E. constructor; [by constructor|].
      constructor; [done|]. eapply Forall_impl; [exact Hy|]. simpl. lia.
    + apply Nat.leb_gt in E. constructor; [done|].
      apply Forall_forall. intros r [->|Hr]%insert_by_position_elem; [lia|].
      by eapply Forall_forall in Hy.
Qed.

Lemma sort_by_position_sorted (l : list doi_record) : by_position (sort_by_position l).
Proof.
  unfold sort_by_position. induction l as [|x t IH]; simpl.
  - constructor.
  - by apply insert_by_position_sorted.
Qed.

Lemma keep_first_fresh (l : list doi_record) :
  ∀ seen r, r ∈ keep_first seen l → doi_key r ∉ seen.
Proof.
  induction l as [|d t IH]; intros seen r; simpl; [by intros ?%elem_of_nil|].
  destruct (bool_decide _) eqn:E.
  - apply IH.
  - apply bool_decide_eq_false in E.
    intros [->|H]%elem_of_cons; [done|].
    apply IH in H. set_solver.
Qed.

Lemma keep_first_NoDup (l : list doi_record) :
  ∀ seen, NoDup (map doi_key (keep_first seen l)).
Proof.
  induction l as [|d t IH]; intros seen; simpl; [constructor|].
  destruct (bool_decide _); [apply IH|].
  simpl. constructor; [|apply IH].
  intros H%list_elem_of_fmap. destruct H as (r & E & H).
  apply keep_first_fresh in H. unfold doi_key in *. set_solver.
Qed.

Lemma keep_first_earliest (l : list doi_record) :
  by_position l →
  ∀ seen r r', r ∈ keep_first seen l → r' ∈ l → doi_key r' = doi_key r →
               (position r <= position r')%nat.
Proof.
  unfold by_position. induction 1 as [|d t Ht IH Hd]; intros seen r r'; simpl.
  - by intros ?%elem_of_nil.
  - destruct (bool_decide _) eqn:E.
    + apply bool_decide_eq_true in E.
      intros Hr [->|Hr']%elem_of_cons Hk.
      * apply keep_first_fresh in Hr. unfold doi_key in *. by rewrite <- Hk in Hr.
      * by eapply IH.
    + intros [->|Hr]%elem_of_cons [->|Hr']%elem_of_cons Hk.
      * done.
      * by eapply Forall_forall in Hd.
      * apply keep_first_fresh in Hr. unfold doi_key in *. set_solver.
      * by eapply IH.
Qed.

Lemma dedupe_from_fresh (l : list doi_record) :
  ∀ seen r, r ∈ dedupe_from seen l → (doi_key r ∉ seen) ∧ (r ∈ l).
Proof.
  induction l as [|d t IH]; intros seen r; simpl; [by intros ?%elem_of_nil|].
  destruct (bool_decide (lower (doi d) = [])); simpl.
  { intros H. destruct (IH _ _ H) as [H1 H2]. split; [done|by right]. }
  destruct (bool_decide _) eqn:E.
  - intros H. destruct (IH _ _ H) as [H1 H2]. split; [done|by right].
  - apply bool_decide_eq_false in E.
    intros [->|H]%elem_of_cons; [split; [done|by left]|].
    destruct (IH _ _ H) as [H1 H2]. clear IH. split; [set_solver|by right].
Qed.

Lemma dedupe_from_nonempty (l : list doi_record) :
  ∀ seen r, r ∈ dedupe_from seen l → doi_key r ≠ [].
Proof.
  induction l as [|d t IH]; intros seen r; simpl; [by intros ?%elem_of_nil|].
  destruct (bool_decide (lower (doi d) = [])) eqn:E0; simpl; [apply IH|].
  apply bool_decide_eq_false in E0.
  destruct (bool_decide _); [apply IH|].
  intros [->|H]%elem_of_cons; [done|]. by eapply IH.
Qed.

Lemma dedupe_from_earliest (l : list doi_record) :
  by_position l →
  ∀ seen r r', r ∈ dedupe_from seen l → r' ∈ l → doi_key r' = doi_key r →
               (position r <= position r')%nat.
Proof.
  unfold by_position. induction 1 as [|d t Ht IH Hd]; intros seen r r'; simpl.
  - by intros ?%elem_of_nil.
  - destruct (bool_decide (lower (doi d) = [])) eqn:E0; simpl.
    { apply bool_decide_eq_true in E0.
      intros Hr [->|Hr']%elem_of_cons Hk; [|by eapply IH].
      exfalso. apply (dedupe_from_nonempty _ _ _ Hr). by rewrite <- Hk. }
    clear E0. destruct (bool_decide (_ ∈ _)) eqn:E.
    + apply bool_decide_eq_true in E.
      intros Hr [->|Hr']%elem_of_cons Hk; [|by eapply IH].
      destruct (dedupe_from_fresh _ _ _ Hr) as [Hf _].
      exfalso. apply Hf. by rewrite <- Hk.
    + intros [->|Hr]%elem_of_cons [->|Hr']%elem_of_cons Hk.
      * lia.
      * by eapply Forall_forall in Hd.
      * destruct (dedupe_from_fresh _ _ _ Hr) as [Hf _].
        exfalso. apply Hf. rewrite <- Hk. unfold doi_key. set_solver.
      * by eapply IH.
Qed.

Lemma dedupe_from_NoDup (l : list doi_record) :
  ∀ seen, NoDup (map doi_key (dedupe_from seen l)).
Proof.
  induction l as [|d t IH]; intros seen; simpl; [constructor|].
  destruct (bool_decide (lower (doi d) = [])); simpl; [apply IH|].
  destruct (bool_decide _); [apply IH|].
  simpl. constructor; [|apply IH].
  intros H%list_elem_of_fmap. destruct H as (r & E & H).
  apply dedupe_from_fresh in H as [H _]. unfold doi_key in *. set_solver.
Qed.

(** C2 (amended). [extract_dois_robust] returns at most one record per
    DOI compared in lower case, and the record it keeps has the smallest
    position among the occurrences found with that DOI.
    [extract_dois_from_text] returns its records in ascending order of
    position and leaves the duplicates in; [_dedupe_dois], which the
    caller applies, keeps the first record of every DOI. *)
Theorem robust_keeps_earliest_per_doi (text : str) (max_context : Z) :
  let found := robust_records (_normalize_for_doi_harvest (normalize_text text))
                              max_context in
  let all := extract_dois_from_text text max_context in
  NoDup (map doi_key (extract_dois_robust text max_context))
  ∧ (∀ r r', r ∈ extract_dois_robust text max_context → r' ∈ found →
             doi_key r' = doi_key r → (position r <= position r')%nat)
  ∧ by_position all
  ∧ NoDup (map doi_key (_dedupe_dois all))
  ∧ (∀ r r', r ∈ _dedupe_dois all → r' ∈ all →
             doi_key r' = doi_key r → (position r <= position r')%nat).
Proof.
  intros found all. repeat split.
  - apply keep_first_NoDup.
  - intros r r' Hr Hr' Hk. unfold extract_dois_robust in Hr.
    eapply keep_first_earliest; [apply sort_by_position_sorted|exact Hr| |exact Hk].
    by apply sort_by_position_elem.
  - apply sort_by_position_sorted.
  - apply dedupe_from_NoDup.
  - intros r r' Hr Hr' Hk. unfold _dedupe_dois in Hr.
    eapply dedupe_from_earliest; [apply sort_by_position_sorted|exact Hr| |exact Hk].
    by apply sort_by_position_elem.
Qed.

End DedupFacts.

(** ** The extractors and the normaliser on concrete inputs *)

(** C1, at work: the first record found in a [doi:] citation. *)
Lemma extracted_doi_valid_witness :
  ∃ r, extract_dois_from_text (U:=latin1) (codes "doi:10.1234/abcd") 60 !! 0%nat = Some r
       ∧ is_valid_doi_format (doi r) = true
       ∧ Forall (λ c, is_space c = false) (doi r).
Proof.
  eexists. split; [vm_compute; reflexivity|].
  apply (extracted_doi_valid (U:=latin1) (codes "doi:10.1234/abcd") 60).
  left. apply list_elem_of_lookup_2 with 0%nat. vm_compute. reflexivity.
Defined.

(** C2, as stated, fails for [extract_dois_from_text]: the DOI cited at
    offsets 10 and 200 comes back twice. *)
Lemma extract_dois_from_text_not_deduplicated :
  ¬ NoDup (map doi_key (extract_dois_from_text (U:=latin1) twice_cited 60)).
Proof.
  intros H. vm_compute in H. apply NoDup_cons in H as [H _].
  apply H. left.
Qed.

(** C2, at work: [extract_dois_robust] on the same text keeps one
    record, the one at offset 10. *)
Lemma robust_twice_cited :
  ∃ r, extract_dois_robust (U:=latin1) twice_cited 60 = [r]
       ∧ position r = 10%nat
       ∧ NoDup (map doi_key (extract_dois_robust (U:=latin1) twice_cited 60)).
Proof.
  eexists. split; [vm_compute; reflexivity|]. split; [reflexivity|].
  apply (robust_keeps_earliest_per_doi (U:=latin1) twice_cited 60).
Defined.

(** C9, as stated, fails: the soft hyphen that kept the accent apart
    from its letter is removed after the normal form is taken, so a
    second pass composes the two. *)
Lemma normalize_text_not_idempotent :
  normalize_text (U:=latin1) (normalize_text accent_after_soft_hyphen)
  ≠ normalize_text accent_after_soft_hyphen.
Proof. vm_compute. discriminate. Qed.

(** C9 (amended). [normalize_text] is idempotent on every text whose
    normalised form is left unchanged by the NFKC normal form; it is
    total, and maps the empty text to the empty text. *)
Theorem normalize_text_idempotent_when_stable `{U : Unicode} (x : str)
  (stable : nfkc (normalize_text x) = normalize_text x) :
  normalize_text (normalize_text x) = normalize_text x
  ∧ normalize_text [] = [].
Proof.
  split.
  - apply normalize_text_fixpoint;
      [done|apply normalize_text_no_shy|apply normalize_text_no_cr].
  - unfold normalize_text. by rewrite nfkc_nil.
Qed.

Lemma normalize_text_idempotent_witness :
  nfkc (normalize_text (U:=latin1) messy_line) = normalize_text messy_line
  ∧ normalize_text (normalize_text messy_line) = normalize_text messy_line
  ∧ normalize_text (U:=latin1) [] = [].
Proof.
  split; [vm_compute; reflexivity|].
  apply (normalize_text_idempotent_when_stable (U:=latin1) messy_line).
  vm_compute. reflexivity.
Defined.

(** ** The candidate selector *)

Section SelectorFacts.
Context `{U : Unicode}.











End SelectorFacts.




(** ** The reference section locator *)

Section LocatorFacts.
Context `{U : Unicode}.

Lemma find_start_none (lines : list str) :
  (∀ i line, lines !! i = Some line → is_heading REF_START line = false) →
  ∀ k, find_start k lines = None.
Proof.
  induction lines as [|l t IH]; intros H k; simpl; [done|].
  rewrite (H 0%nat l eq_refl). apply IH. intros i line Hi. by apply (H (S i)).
Qed.

Lemma find_start_first (lines : list str) (start : nat) (line : str) :
  lines !! start = Some line →
  is_heading REF_START line = true →
  (∀ j l, (j < start)%nat → lines !! j = Some l → is_heading REF_START l = false) →
  ∀ k, find_start k lines = Some (k + start)%nat.
Proof.
  revert start. induction lines as [|l t IH]; intros start Hs Hh Hlt k; [done|].
  simpl. destruct start as [|start].
  - injection Hs as ->. rewrite Hh. f_equal. lia.
  - rewrite (Hlt 0%nat l); [|lia|done].
    rewrite (IH start Hs Hh); [f_equal; lia|].
    intros j l' Hj Hl'. apply (Hlt (S j)); [lia|done].
Qed.

(** The section is no longer than the text it is cut from. *)
Lemma section_text_length (full_text : str) (start stop : nat) :
  (length (section_text (Py.splitlines full_text) start stop) <= length full_text)%nat.
Proof.
  unfold section_text. etrans; [apply strip_length|].
  etrans; [apply join_slice_length|]. apply splitlines_length.
Qed.

(** C4. Without a start heading, or with a section of fewer than 250
    characters after the first start heading (as with every text of
    fewer than 250 characters), the whole text comes back unchanged,
    without line bounds. *)
Theorem slice_references_fallback (full_text : str) (min_lines_after : Z) :
  let lines := Py.splitlines full_text in
  (∀ i line, lines !! i = Some line → is_heading REF_START line = false)
  ∨ (∃ start line,
        lines !! start = Some line
        ∧ is_heading REF_START line = true
        ∧ (∀ j l, (j < start)%nat → lines !! j = Some l →
                  is_heading REF_START l = false)
        ∧ (length (section_text lines start
                     (section_end lines start min_lines_after)) < 250)%nat)
  ∨ (length full_text < 250)%nat →
  slice_references_section full_text min_lines_after = (full_text, None, None).
Proof.
  intros lines [H|[(start & line & Hs & Hh & Hlt & Hlen)|Hshort]];
    unfold slice_references_section; fold lines.
  - by rewrite find_start_none.
  - rewrite (find_start_first lines start line Hs Hh Hlt). simpl.
    apply Nat.ltb_lt in Hlen. by rewrite Hlen.
  - destruct (find_start 0 lines) as [start|]; [|done].
    pose proof (section_text_length full_text start
                  (section_end lines start min_lines_after)) as Hle.
    fold lines in Hle.
    destruct (length (section_text _ _ _) <? 250)%nat eqn:E; [done|].
    apply Nat.ltb_ge in E. lia.
Qed.

End LocatorFacts.

(** C4, at work: a heading followed by one short reference. *)
Lemma slice_references_fallback_witness :
  slice_references_section (U:=latin1) short_document 12 = (short_document, None, None).
Proof.
  apply (slice_references_fallback (U:=latin1)). right. left.
  exists 1%nat, (codes "References").
  split; [vm_compute; reflexivity|]. split; [vm_compute; reflexivity|]. split.
  - intros [|j] l Hj Hl; [|lia]. injection Hl as <-. vm_compute. reflexivity.
  - vm_compute. lia.
Defined.

(** ** The repair passes on the examples of the specification *)

(** C6, as stated, fails on its second input: a break before a dot is
    none of the breaks the repairs undo, and both extractors stop at
    the end of the line. *)
Lemma break_before_dot_truncates :
  map doi (extract_dois_from_text (U:=latin1) broken_before_dot 60)
    = [codes "10.1109/MIC.2022"]
  ∧ map doi (extract_dois_robust (U:=latin1) broken_before_dot 60)
    = [codes "10.1109/MIC.2022"]
  ∧ (full_doi ∉ map doi (extract_dois_from_text (U:=latin1) broken_before_dot 60))
  ∧ (full_doi ∉ map doi (extract_dois_robust (U:=latin1) broken_before_dot 60)).
Proof.
  assert (E1 : map doi (extract_dois_from_text (U:=latin1) broken_before_dot 60)
               = [codes "10.1109/MIC.2022"]) by (vm_compute; reflexivity).
  assert (E2 : map doi (extract_dois_robust (U:=latin1) broken_before_dot 60)
               = [codes "10.1109/MIC.2022"]) by (vm_compute; reflexivity).
  rewrite E1, E2. repeat split; intros H%list_elem_of_singleton; vm_compute in H;
    discriminate.
Qed.

(** C6 (amended). Both repairs turn the hyphenated word into one word,
    without hyphen or line break; and a DOI broken right after or right
    before its slash is extracted whole, as one match, by both
    extractors. *)
Theorem harvest_repairs_breaks :
  normalize_text_for_doi_extraction broken_word = codes "climatechange"
  ∧ _normalize_for_doi_harvest (U:=latin1) broken_word = codes "climatechange"
  ∧ map doi (extract_dois_from_text (U:=latin1) broken_after_slash 60) = [full_doi]
  ∧ map doi (extract_dois_robust (U:=latin1) broken_after_slash 60) = [full_doi]
  ∧ map doi (extract_dois_from_text (U:=latin1) broken_before_slash 60) = [full_doi]
  ∧ map doi (extract_dois_robust (U:=latin1) broken_before_slash 60) = [full_doi].
Proof. repeat split; vm_compute; reflexivity. Qed.

(** C7, as stated, fails: only the narrower repair joins an ordinary
    wrapped line. *)
Lemma repairs_differ_on_wrapped_line :
  normalize_text_for_doi_extraction wrapped_words = wrapped_words
  ∧ _normalize_for_doi_harvest (U:=latin1) wrapped_words = codes "word word"
  ∧ normalize_text_for_doi_extraction wrapped_words
    ≠ _normalize_for_doi_harvest (U:=latin1) wrapped_words.
Proof. repeat split; vm_compute; (reflexivity || discriminate). Qed.

(** C8: under the IEEE style the quoted text is returned as it stands,
    here with the URL it contains. *)
Theorem ieee_title_keeps_url :
  extract_title_by_style (U:=latin1) ieee_reference IEEE
    = codes "Notes on https://example.org/page usage,"
  ∧ extract_title_by_style (U:=latin1) ieee_reference AutoDetect
    = codes "Notes on https://example.org/page usage,"
  ∧ is_Some (Re.search (url_re true)
               (extract_title_by_style (U:=latin1) ieee_reference IEEE)).
Proof. repeat split; vm_compute; (reflexivity || by eexists). Qed.

(** ** The two repair passes on text without breaks *)

Section RepairFacts.
Context `{U : Unicode}.
Import Re.

Lemma requires_break : requires LF break_re.
Proof.
  unfold break_re. apply rq_seq_r, rq_seq_l, rq_cls.
  by intros c ->%N.eqb_eq.
Qed.

Lemma denotes_spaces (g : bool) (s s' : mstate) :
  denotes (Star g Space) s s' →
  ∃ ws, m_rest s = ws ++ m_rest s' ∧ Forall (λ c, is_space c = true) ws.
Proof.
  remember (Star g Space) as r eqn:Er. induction 1; try discriminate.
  - by exists [].
  - injection Er as -> ->.
    destruct IHdenotes2 as (ws2 & E2 & F2); [done|].
    match goal with H : denotes Space _ _ |- _ => inversion H; subst end.
    exists (c :: ws2). simpl in E2. split; [|by constructor].
    match goal with H : m_rest _ = c :: _ |- _ => rewrite H end. by rewrite E2.
Qed.

(** A match of [\s*/\s*] starts with whitespace up to a slash. *)
Lemma denotes_slash (s s' : mstate) :
  denotes slash_re s s' →
  ∃ ws rest, m_rest s = ws ++ ch "/" :: rest ∧ Forall (λ c, is_space c = true) ws.
Proof.
  unfold slash_re. intros H. inversion H as [| |r1 r2 s0 s1 s2 H1 H2| | | | | | | | |]; subst.
  inversion H2 as [| |r1 r2 s0 s1' s2' H3 H4| | | | | | | | |]; subst.
  apply denotes_spaces in H1 as (ws & E & F).
  inversion H3 as [|p c t s0 Hr Hc| | | | | | | | | |]; subst.
  apply N.eqb_eq in Hc as <-. exists ws, t. by rewrite E, Hr.
Qed.

Lemma slash_tight_space_before (ws rest : str) :
  Forall (λ c, is_space c = true) ws →
  ∀ b, ws ≠ [] ∨ b = true → slash_tight b (ws ++ ch "/" :: rest) = false.
Proof.
  induction 1 as [|w ws Hw _ IH]; intros b Hb.
  - destruct Hb as [Hb| ->]; [done|]. reflexivity.
  - cbn [app slash_tight].
    destruct (w =? ch "/") eqn:E.
    + apply N.eqb_eq in E as ->. done.
    + rewrite Hw. apply IH. by right.
Qed.

(** On a slash with no whitespace after it, [\s*/\s*] takes the slash
    and nothing else. *)
Lemma slash_match_here prev pos (t : str) :
  match t with d :: _ => is_space d = false | [] => True end →
  ∃ m, match_at slash_re prev pos (ch "/" :: t) = Some m ∧ mo_end m = S pos.
Proof.
  intros Ht. unfold match_at, slash_re, Space, Chr.
  cbn [rmatch m_rest length star_loop].
  change (is_space (ch "/")) with false. cbn [m_rest].
  change (ch "/" =? ch "/") with true. cbn iota.
  cbn [step_char m_rest m_pos m_caps star_loop].
  destruct t as [|d t']; cbn [length star_loop m_rest].
  - eexists. split; [reflexivity|]. reflexivity.
  - rewrite Ht. eexists. split; [reflexivity|]. reflexivity.
Qed.

(** Elsewhere in text whose slashes have no whitespace next to them it
    does not match. *)
Lemma slash_match_elsewhere prev pos (c : char) (t : str) :
  c ≠ ch "/" → slash_tight (space_before prev) (c :: t) = true →
  match_at slash_re prev pos (c :: t) = None.
Proof.
  intros Hc Ht. unfold match_at.
  destruct (rmatch slash_re Some _) as [e|] eqn:E; [|done].
  apply rmatch_sound in E as (s' & Hd & _).
  apply denotes_slash in Hd as (ws & rest & Hw & F). simpl in Hw.
  rewrite Hw, slash_tight_space_before in Ht; [done|done|].
  left. intros ->. by injection Hw.
Qed.

Lemma sub_slash_tight (t : str) :
  ∀ prev pos, slash_tight (space_before prev) t = true →
              rebuild (λ _, [ch "/"]) (scan slash_re prev pos 0 t) = t.
Proof.
  induction t as [|c t IH]; intros prev pos Ht.
  - reflexivity.
  - cbn [scan]. destruct (N.eq_dec c (ch "/")) as [->|Hc].
    + cbn [slash_tight] in Ht. change (ch "/" =? ch "/") with true in Ht.
      cbn iota in Ht. apply andb_true_iff in Ht as [Ht Ht'].
      apply andb_true_iff in Ht as [_ Hnext].
      destruct (slash_match_here prev pos t) as (m & -> & Em).
      { destruct t; [done|]. by apply negb_true_iff in Hnext. }
      rewrite Em. replace (S pos - pos)%nat with 1%nat by lia.
      cbn [rebuild app]. f_equal. by apply IH.
    + rewrite (slash_match_elsewhere prev pos c t Hc Ht).
      cbn [rebuild]. f_equal. apply IH. cbn [slash_tight] in Ht.
      apply N.eqb_neq in Hc. by rewrite Hc in Ht.
Qed.

(** C7 (amended). On text without line break, form feed or soft hyphen
    and without whitespace next to a slash, the two repair passes agree:
    each returns the text as it is. *)
Theorem repairs_agree_without_breaks (t : str) :
  LF ∉ t → FF ∉ t → SHY ∉ t → slash_tight false t = true →
  normalize_text_for_doi_extraction t = t
  ∧ _normalize_for_doi_harvest t = t
  ∧ normalize_text_for_doi_extraction t = _normalize_for_doi_harvest t.
Proof.
  intros Hlf Hff Hshy Htight.
  assert (G : normalize_text_for_doi_extraction t = t).
  { unfold normalize_text_for_doi_extraction. destruct t as [|c t']; [done|].
    rewrite (replace_absent FF [] [LF] _ Hff). unfold sub_const.
    rewrite (sub_requires LF hyphen_break_re); [|apply rq_seq_r, requires_break|done].
    rewrite (sub_requires LF break_after_slash_re); [|apply rq_seq_r, requires_break|done].
    rewrite (sub_requires LF break_before_slash_re); [done| |done].
    apply rq_seq_r, rq_seq_l, rq_cls. by intros c0 ->%N.eqb_eq. }
  assert (N : _normalize_for_doi_harvest t = t).
  { unfold _normalize_for_doi_harvest. destruct t as [|c t']; [done|].
    rewrite (replace_absent SHY [] [] _ Hshy).
    rewrite (sub_requires LF word_hyphen_break_re);
      [|apply rq_seq_r, rq_seq_r, rq_seq_l, requires_break|done].
    rewrite (sub_requires LF line_break_re);
      [|apply rq_seq_r, rq_seq_l, requires_break|done].
    unfold sub_const, sub. by apply (sub_slash_tight _ None 0%nat). }
  split; [done|]. split; [done|]. by rewrite G, N.
Qed.

End RepairFacts.

(** C7, at work: a line with a DOI and no break. *)
Lemma repairs_agree_witness :
  normalize_text_for_doi_extraction (codes "see doi:10.1234/abcd (2020)")
  = _normalize_for_doi_harvest (U:=latin1) (codes "see doi:10.1234/abcd (2020)").
Proof.
  apply (repairs_agree_without_breaks (U:=latin1) (codes "see doi:10.1234/abcd (2020)"));
    try (vm_compute; reflexivity);
    intros H; apply list_elem_of_In in H; vm_compute in H; intuition discriminate.
Defined.

(** ** The matching blocks *)

Section DifflibFacts.
Import Difflib.

Lemma block_within_weaken (alo hi hi' blo bhi : nat) (b : block) :
  (hi <= hi')%nat → block_within alo hi blo bhi b → block_within alo hi' blo bhi b.
Proof. unfold block_within. lia. Qed.

Lemma scan_js_within (alo blo bhi i n : nat) (j2len : gmap nat nat) :
  (alo <= i)%nat → n = (i - alo)%nat → row_within blo bhi n j2len →
  ∀ js st,
    block_within alo (S i) blo bhi st.1 → row_within blo bhi (S n) st.2 →
    block_within alo (S i) blo bhi (scan_js i blo bhi j2len js st).1
    ∧ row_within blo bhi (S n) (scan_js i blo bhi j2len js st).2.
Proof.
  intros Hi Hn Hprev. induction js as [|j js IH]; intros st Hb Hr; simpl; [done|].
  destruct (j <? blo)%nat eqn:E1; [by apply IH|]. apply Nat.ltb_ge in E1.
  destruct (bhi <=? j)%nat eqn:E2; [done|]. apply Nat.leb_gt in E2.
  set (prev := match j with O => O | S j' => default O (j2len !! j') end).
  assert (Hp : (prev <= n ∧ prev + blo <= j)%nat).
  { subst prev. destruct j as [|j']; [lia|].
    destruct (j2len !! j') as [k'|] eqn:L; simpl; [|lia].
    apply Hprev in L. lia. }
  apply IH; simpl.
  - destruct (st.1.2 <? S prev)%nat; [|done].
    unfold block_within. simpl. lia.
  - intros j0 k0. rewrite lookup_insert. destruct (decide (j = j0)) as [<-|_].
    + intros [= <-]. lia.
    + apply Hr.
Qed.

Lemma scan_is_within (b2j : gmap char (list nat)) (alo blo bhi : nat) (row : str) :
  ∀ i best j2len,
    (alo <= i)%nat → block_within alo i blo bhi best →
    row_within blo bhi (i - alo) j2len →
    block_within alo (i + length row) blo bhi (scan_is b2j blo bhi i row best j2len).
Proof.
  induction row as [|x t IH]; intros i best j2len Hi Hb Hr; simpl.
  - by rewrite Nat.add_0_r.
  - destruct (scan_js_within alo blo bhi i (i - alo) j2len Hi eq_refl Hr
                (default [] (b2j !! x)) (best, ∅)) as [Hb' Hr'].
    + simpl. eapply block_within_weaken; [|exact Hb]. lia.
    + intros j k. simpl. by rewrite lookup_empty.
    + replace (i + S (length t))%nat with (S i + length t)%nat by lia.
      apply IH; [lia|done|]. by replace (S i - alo)%nat with (S (i - alo)) by lia.
Qed.

Lemma extend_left_within (a b : str) (alo ahi blo bhi : nat) (fuel : nat) :
  ∀ best, block_within alo ahi blo bhi best →
          block_within alo ahi blo bhi (extend_left a b alo blo fuel best).
Proof.
  induction fuel as [|fuel IH]; intros [[bi bj] bs] H; simpl; [done|].
  destruct (alo <? bi)%nat eqn:E1; simpl; [|done].
  destruct (blo <? bj)%nat eqn:E2; simpl; [|done].
  destruct (same_at a b (bi - 1) (bj - 1)); [|done].
  apply Nat.ltb_lt in E1, E2. apply IH.
  unfold block_within in *. simpl in *. lia.
Qed.

Lemma extend_right_within (a b : str) (alo ahi blo bhi : nat) (fuel : nat) :
  ∀ best, block_within alo ahi blo bhi best →
          block_within alo ahi blo bhi (extend_right a b ahi bhi fuel best).
Proof.
  induction fuel as [|fuel IH]; intros [[bi bj] bs] H; simpl; [done|].
  destruct (bi + bs <? ahi)%nat eqn:E1; simpl; [|done].
  destruct (bj + bs <? bhi)%nat eqn:E2; simpl; [|done].
  destruct (same_at a b (bi + bs) (bj + bs)); [|done].
  apply Nat.ltb_lt in E1, E2. apply IH.
  unfold block_within in *. simpl in *. lia.
Qed.

(** The longest match lies within the two ranges it was looked for in. *)
Lemma find_longest_match_within (a b : str) (b2j : gmap char (list nat))
  (alo ahi blo bhi : nat) :
  (alo <= ahi)%nat → (blo <= bhi)%nat →
  block_within alo ahi blo bhi (find_longest_match a b b2j alo ahi blo bhi).
Proof.
  intros Ha Hb. unfold find_longest_match.
  apply extend_right_within, extend_left_within.
  eapply block_within_weaken;
    [|apply scan_is_within; [done|unfold block_within; simpl; lia|]].
  - rewrite length_take. lia.
  - intros j k. by rewrite lookup_empty.
Qed.

(** The blocks found in two ranges are no longer, together, than the
    shorter of the ranges. *)
Lemma matched_le (a b : str) (b2j : gmap char (list nat)) (fuel : nat) :
  ∀ alo ahi blo bhi,
    (alo <= ahi)%nat → (blo <= bhi)%nat →
    (matched a b b2j fuel alo ahi blo bhi <= Nat.min (ahi - alo) (bhi - blo))%nat.
Proof.
  induction fuel as [|fuel IH]; intros alo ahi blo bhi Ha Hb; simpl; [lia|].
  pose proof (find_longest_match_within a b b2j alo ahi blo bhi Ha Hb) as Hw.
  destruct (find_longest_match a b b2j alo ahi blo bhi) as [[i j] k].
  unfold block_within in Hw. simpl in Hw.
  destruct k as [|k]; [lia|].
  assert (L : ((if (alo <? i)%nat && (blo <? j)%nat
                then matched a b b2j fuel alo i blo j else 0)
               <= Nat.min (i - alo) (j - blo))%nat).
  { destruct ((alo <? i)%nat && (blo <? j)%nat); [apply IH; lia|lia]. }
  assert (R : ((if (i + S k <? ahi)%nat && (j + S k <? bhi)%nat
                then matched a b b2j fuel (i + S k) ahi (j + S k) bhi else 0)
               <= Nat.min (ahi - (i + S k)) (bhi - (j + S k)))%nat).
  { destruct ((i + S k <? ahi)%nat && (j + S k <? bhi)%nat); [apply IH; lia|lia]. }
  lia.
Qed.

Lemma matches_le (a b : str) : (2 * matches a b <= length a + length b)%nat.
Proof.
  unfold matches.
  pose proof (matched_le a b (chain_b b) (S (length a)) 0 (length a) 0 (length b)
                ltac:(lia) ltac:(lia)).
  lia.
Qed.

Lemma ratio_bounds (a b : str) : (0 <= ratio a b <= 1)%Q.
Proof.
  unfold ratio. pose proof (matches_le a b) as H.
  destruct (length a + length b)%nat as [|n] eqn:E.
  - split; unfold Qle; simpl; lia.
  - split; unfold Qle; simpl; lia.
Qed.

End DifflibFacts.

(** ** The title match score *)

Section ScoreFacts.
Context `{U : Unicode}.

(** Any depth beyond the length of the range of [a] gives the same
    blocks: the depth the program's count starts with is enough. *)
Lemma matched_fuel (a b : str) (b2j : gmap char (list nat)) (fuel : nat) :
  ∀ fuel' alo ahi blo bhi,
    (alo <= ahi)%nat → (blo <= bhi)%nat →
    (ahi - alo < fuel)%nat → (ahi - alo < fuel')%nat →
    Difflib.matched a b b2j fuel alo ahi blo bhi
    = Difflib.matched a b b2j fuel' alo ahi blo bhi.
Proof.
  induction fuel as [|fuel IH]; intros fuel' alo ahi blo bhi Ha Hb Hf Hf'; [lia|].
  destruct fuel' as [|fuel']; [lia|]. simpl.
  pose proof (find_longest_match_within a b b2j alo ahi blo bhi Ha Hb) as Hw.
  destruct (Difflib.find_longest_match a b b2j alo ahi blo bhi) as [[i j] k].
  unfold block_within in Hw. simpl in Hw.
  destruct k as [|k]; [done|].
  f_equal; [f_equal|].
  - destruct ((alo <? i)%nat && (blo <? j)%nat); [|done]. apply IH; lia.
  - destruct ((i + S k <? ahi)%nat && (j + S k <? bhi)%nat); [|done]. apply IH; lia.
Qed.

Lemma split_ws_from_nonempty (s : str) :
  ∀ cur, cur ≠ [] ∨ (∃ c, c ∈ s ∧ is_space c = false) → Py.split_ws_from cur s ≠ [].
Proof.
  induction s as [|x t IH]; intros cur H; simpl.
  - destruct H as [H|(c & Hc & _)]; [by destruct cur|by apply elem_of_nil in Hc].
  - destruct (is_space x) eqn:E.
    + destruct cur as [|y cur]; [|done]. apply IH. right.
      destruct H as [H|(c & Hc & Hs)]; [done|].
      apply elem_of_cons in Hc as [->|Hc]; [congruence|by exists c].
    + apply IH. by left.
Qed.

Lemma token_set_nonempty (s : str) :
  Py.strip s ≠ [] → token_set (Py.strip s) ≠ ∅.
Proof.
  intros H. apply strip_nonempty_elem in H as (c & Hc & Hs).
  unfold token_set, Py.split_ws.
  destruct (Py.split_ws_from [] (Py.strip s)) as [|tok toks] eqn:E.
  - exfalso. eapply split_ws_from_nonempty; [|exact E]. right. by exists c.
  - simpl. set_solver.
Qed.

Lemma normalize_title_tokens (t : str) :
  normalize_title t ≠ [] → token_set (normalize_title t) ≠ ∅.
Proof. unfold normalize_title. apply token_set_nonempty. Qed.

(** On a title with a token, the quotient the program computes is the
    Jaccard index. *)
Lemma jaccard_is_index (a b : str) :
  token_set a ≠ ∅ → jaccard a b = jaccard_index (token_set a) (token_set b).
Proof.
  intros Ha. unfold jaccard, jaccard_index.
  rewrite (bool_decide_eq_false_2 _ Ha). simpl.
  assert (size (token_set a ∪ token_set b) ≠ 0%nat) as Hs.
  { intros H%size_empty_inv. apply Ha. set_solver. }
  by replace (Nat.max 1 (size (token_set a ∪ token_set b)))
    with (size (token_set a ∪ token_set b)) by lia.
Qed.

Lemma jaccard_index_bounds (ta tb : gset str) :
  ta ≠ ∅ → (0 <= jaccard_index ta tb <= 1)%Q.
Proof.
  intros Ha. unfold jaccard_index.
  assert (size (ta ∩ tb) <= size (ta ∪ tb))%nat as Hle.
  { apply subseteq_size. intros x Hx. apply elem_of_union. left.
    by apply elem_of_intersection in Hx as [Hx _]. }
  assert (size (ta ∪ tb) ≠ 0%nat) as Hs.
  { intros H%size_empty_inv. apply Ha. set_solver. }
  split; unfold Qle; simpl; [lia|].
  rewrite Z.mul_1_r, Z.mul_1_l.
  destruct (size (ta ∪ tb)) as [|n] eqn:E; [done|].
  rewrite <- Pos.of_nat_succ, Zpos_P_of_succ_nat. lia.
Qed.


Lemma mean_bounds (x y : Q) :
  (0 <= x <= 1)%Q → (0 <= y <= 1)%Q → (0 <= (x + y) / 2 <= 1)%Q.
Proof.
  intros [Hx0 Hx1] [Hy0 Hy1]. split.
  - apply Qle_shift_div_l; [reflexivity|]. rewrite Qmult_0_l.
    replace 0%Q with (0 + 0)%Q by reflexivity. by apply Qplus_le_compat.
  - apply Qle_shift_div_r; [reflexivity|].
    replace (1 * 2)%Q with (1 + 1)%Q by reflexivity. by apply Qplus_le_compat.
Qed.




End ScoreFacts.


(** ** The scenarios of the specification, run on the model *)

Example label_at_threshold :
  title_match_label (Some (78 # 100)) (78 # 100) = label_match
  ∧ title_match_label (Some (7799 # 10000)) (78 # 100) = label_mismatch
  ∧ title_match_label None (78 # 100) = label_unknown.
Proof. repeat split. Qed.

Example unrelated_titles_score_low :
  title_match_score (U:=latin1) (Some (codes "A Study of X"))
                    (Some (codes "An Unrelated Topic")) = Some (4000 # 10000).
Proof. vm_compute. reflexivity. Qed.

Example end_to_end_reference :
  map doi (extract_dois_robust (U:=latin1) sample_reference 60)
    = [codes "10.1109/TEST.2020.1234567"]
  ∧ extract_title_by_style (U:=latin1) sample_reference APA7
    = codes "Deep learning for text classification"
  ∧ extract_bibliographic_title (U:=latin1) (Some sample_reference)
    = Some (codes "Deep learning for text classification").
Proof. repeat split; vm_compute; reflexivity. Qed.

Example selection_without_anchor :
  pick_best_reference_block_for_doi (U:=latin1) sample_doi sample_lines [] 5 1
  = (sample_reference, Some (codes "Deep learning for text classification"), 37 # 200).
Proof. vm_compute. reflexivity. Qed.

(** * Further properties of the program *)

(** ** More on the string methods *)

Section MoreStringFacts.

Lemma contains_singleton (c : char) (s : str) : Py.contains [c] s = true ↔ c ∈ s.
Proof.
  induction s as [|x s IH]; simpl.
  - split; [discriminate | by intros ?%elem_of_nil].
  - rewrite andb_true_r, orb_true_iff, IH, elem_of_cons, N.eqb_eq. tauto.
Qed.

Lemma split_once_from_some (c : char) (s : str) :
  ∀ cur pre suf, Py.split_once_from c cur s = (pre, Some suf) →
                 ∃ p, pre = rev cur ++ p ∧ s = p ++ c :: suf ∧ c ∉ p.
Proof.
  induction s as [|x s IH]; intros cur pre suf; simpl; [discriminate|].
  destruct (x =? c) eqn:E.
  - apply N.eqb_eq in E as ->. intros [= <- <-]. exists [].
    rewrite app_nil_r. split_and!; [done | done | by intros ?%elem_of_nil].
  - intros (p & -> & -> & Hp)%IH. exists (x :: p). simpl.
    rewrite <- app_assoc. split_and!; [done | done |].
    apply N.eqb_neq in E. rewrite elem_of_cons. intros [-> | ?]; tauto.
Qed.

Lemma last_rev {A} (l : list A) : last (rev l) = head l.
Proof. destruct l as [|x l]; [done|]. simpl. apply last_snoc. Qed.

Lemma rstrip_chars_last (cs s : str) (c : char) :
  last (Py.rstrip_chars cs s) = Some c → one_of cs c = false.
Proof.
  unfold Py.rstrip_chars. rewrite last_rev.
  destruct (Py.drop_while (one_of cs) (rev s)) as [|x t] eqn:E; [discriminate|].
  intros [= ->]. by apply drop_while_head in E.
Qed.

Lemma rstrip_snoc (a : str) (c : char) :
  Py.rstrip (a ++ [c]) = if is_space c then Py.rstrip a else a ++ [c].
Proof.
  unfold Py.rstrip. rewrite rev_app_distr. simpl.
  destruct (is_space c); [done|]. simpl. by rewrite rev_involutive.
Qed.

Lemma rstrip_last (s : str) (c : char) :
  last (Py.rstrip s) = Some c → is_space c = false.
Proof.
  unfold Py.rstrip. rewrite last_rev.
  destruct (Py.drop_while is_space (rev s)) as [|x t] eqn:E; [discriminate|].
  intros [= ->]. by apply drop_while_head in E.
Qed.

Lemma rstrip_fixed (s : str) :
  (∀ c, last s = Some c → is_space c = false) → Py.rstrip s = s.
Proof.
  destruct s as [|x s _] using rev_ind; [done|].
  intros H. rewrite rstrip_snoc. by rewrite (H x (last_snoc _ _)).
Qed.

Lemma rstrip_keeps_head (c : char) (t : str) :
  is_space c = false → ∃ t', Py.rstrip (c :: t) = c :: t'.
Proof.
  intros Hc. induction t as [|x t IH] using rev_ind.
  - exists []. change [c] with ([] ++ [c]). rewrite rstrip_snoc. by rewrite Hc.
  - change (c :: t ++ [x]) with ((c :: t) ++ [x]). rewrite rstrip_snoc.
    destruct (is_space x); [done | by eexists].
Qed.

Lemma strip_head (s : str) (c : char) (t : str) :
  Py.strip s = c :: t → is_space c = false.
Proof.
  unfold Py.strip, Py.lstrip.
  destruct (Py.drop_while is_space s) as [|x y] eqn:E; [done|].
  pose proof (drop_while_head _ _ _ _ E) as Hx.
  destruct (rstrip_keeps_head x y Hx) as [t' ->]. by intros [= <- _].
Qed.

Lemma strip_last (s : str) (c : char) :
  last (Py.strip s) = Some c → is_space c = false.
Proof. apply rstrip_last. Qed.

(** A string without whitespace at either end is left as it is. *)
Lemma strip_fixed (s : str) :
  (∀ c t, s = c :: t → is_space c = false) →
  (∀ c, last s = Some c → is_space c = false) →
  Py.strip s = s.
Proof.
  intros Hh Hl. unfold Py.strip, Py.lstrip.
  destruct s as [|c t]; [done|]. simpl. rewrite (Hh c t eq_refl).
  by apply rstrip_fixed.
Qed.

Lemma strip_strip (s : str) : Py.strip (Py.strip s) = Py.strip s.
Proof.
  apply strip_fixed; [intros c t; apply strip_head | apply strip_last].
Qed.

Lemma splitlines_from_clean (s : str) :
  ∀ cur ln c, ln ∈ Py.splitlines_from cur s →
              (∀ x, x ∈ cur → is_linebreak x = false) →
              c ∈ ln → is_linebreak c = false.
Proof.
  induction s as [s IH] using (induction_ltof1 _ (@length _)); unfold ltof in IH.
  intros cur ln c. destruct s as [|x t]; simpl.
  - destruct cur; [by intros ?%elem_of_nil|].
    intros ->%list_elem_of_singleton Hcur Hc. apply Hcur. by apply elem_of_rev.
  - destruct (is_linebreak x) eqn:Ex.
    + intros [-> | Hin]%elem_of_cons Hcur Hc.
      { apply Hcur. by apply elem_of_rev. }
      destruct t as [|y t']; [by apply elem_of_nil in Hin|].
      destruct ((x =? CR) && (y =? LF)).
      * eapply (IH t'); [simpl; lia | exact Hin | by intros ? ?%elem_of_nil | done].
      * eapply (IH (y :: t')); [simpl; lia | exact Hin | by intros ? ?%elem_of_nil | done].
    + intros Hin Hcur Hc.
      eapply (IH t); [simpl; lia | exact Hin | | done].
      intros z [-> | ?]%elem_of_cons; [done | by apply Hcur].
Qed.

Lemma splitlines_clean (s ln : str) (c : char) :
  ln ∈ Py.splitlines s → c ∈ ln → is_linebreak c = false.
Proof.
  intros Hin Hc.
  by eapply (splitlines_from_clean s [] ln c Hin); [intros ? ?%elem_of_nil|].
Qed.

End MoreStringFacts.

(** ** The matcher on runs of one class of characters *)

Section RunFacts.
Import Re.

Lemma run_split (p : char → bool) (t : str) :
  ∃ ws rest, t = ws ++ rest ∧ Forall (λ c, p c = true) ws ∧ starts_outside p rest.
Proof.
  induction t as [|c t (ws & rest & -> & Hws & Hrest)].
  - by exists [], [].
  - destruct (p c) eqn:E.
    + exists (c :: ws), rest. split_and!; [done | by constructor | done].
    + by exists [], (c :: ws ++ rest).
Qed.

Lemma rmatch_cls_step {A} (p : char → bool) (k : mstate → option A) (s : mstate)
  (c : char) (t : str) :
  m_rest s = c :: t → p c = true → rmatch (Cls p) k s = k (step_char c t s).
Proof. intros Hs Hc. simpl. by rewrite Hs, Hc. Qed.

(** A greedy star over one class runs to the end of the run. *)
Lemma star_cls_run {A} (p : char → bool) (k : mstate → option A) (a : A) (ws : str) :
  ∀ rest fuel s,
    Forall (λ c, p c = true) ws → starts_outside p rest →
    m_rest s = ws ++ rest → (length ws < fuel)%nat →
    k (MState (prev_after ws (m_prev s)) (m_pos s + length ws) rest (m_caps s)) = Some a →
    star_loop (@rmatch (Cls p) A) true k fuel s = Some a.
Proof.
  induction ws as [|c ws IH]; intros rest fuel s Hws Hrest Hs Hfuel Hk;
    (destruct fuel as [|fuel]; [simpl in Hfuel; lia|]).
  - simpl in *. rewrite Nat.add_0_r in Hk. destruct s as [pr po re ca]; simpl in *.
    subst re. destruct rest as [|d rest]; [done|]. simpl in Hrest. by rewrite Hrest.
  - apply Forall_cons in Hws as [Hc Hws].
    cbn [star_loop]. rewrite (rmatch_cls_step p _ s c (ws ++ rest) Hs Hc).
    cbn [step_char m_pos].
    destruct (S (m_pos s) =? m_pos s)%nat eqn:E; [apply Nat.eqb_eq in E; lia|].
    rewrite (IH rest fuel (step_char c (ws ++ rest) s)); [done | done | done | done | |].
    + simpl in Hfuel. lia.
    + simpl. simpl in Hk. by rewrite <- Nat.add_succ_r.
Qed.

Lemma plus_cls_match (p : char → bool) prev pos (c : char) (ws rest : str) :
  p c = true → Forall (λ c, p c = true) ws → starts_outside p rest →
  ∃ m, match_at (Plus true (Cls p)) prev pos (c :: ws ++ rest) = Some m
       ∧ (mo_end m - pos)%nat = S (length ws).
Proof.
  intros Hc Hws Hrest. unfold match_at, Plus. cbn [rmatch m_rest]. rewrite Hc.
  erewrite (star_cls_run p Some _ ws rest); [| done | done | done | | done].
  - eexists. split; [done|]. simpl. lia.
  - simpl. rewrite length_app. lia.
Qed.

Lemma plus_cls_no_match (p : char → bool) prev pos (rest : str) :
  starts_outside p rest → match_at (Plus true (Cls p)) prev pos rest = None.
Proof.
  intros Hrest. unfold match_at, Plus. cbn [rmatch m_rest].
  destruct rest as [|d rest]; [done|]. simpl in Hrest. by rewrite Hrest.
Qed.

Lemma scan_skip (r : regex) (w rest : str) :
  ∀ prev pos, scan r prev pos (length w) (w ++ rest)
              = scan r (prev_after w prev) (pos + length w) 0 rest.
Proof.
  induction w as [|c w IH]; intros prev pos; simpl.
  - by rewrite Nat.add_0_r.
  - rewrite IH. by rewrite Nat.add_succ_r.
Qed.

Lemma replace_runs_skip (p : char → bool) (text ws rest : str) :
  Forall (λ c, p c = true) ws →
  replace_runs p text true (ws ++ rest) = replace_runs p text true rest.
Proof.
  induction 1 as [|c ws Hc _ IH]; [done|]. simpl. by rewrite Hc.
Qed.

Lemma replace_runs_outside (p : char → bool) (text rest : str) (b : bool) :
  starts_outside p rest → replace_runs p text b rest = replace_runs p text false rest.
Proof. destruct rest as [|d rest]; [done|]. simpl. by intros ->. Qed.

(** Replacing the matches of [[p]+] replaces the maximal runs. *)
Lemma sub_const_runs (p : char → bool) (text s : str) :
  ∀ prev pos, rebuild (λ _, text) (scan (Plus true (Cls p)) prev pos 0 s)
              = replace_runs p text false s.
Proof.
  induction s as [s IH] using (induction_ltof1 _ (@length _)); unfold ltof in IH.
  intros prev pos. destruct s as [|c t].
  - cbn [scan]. by rewrite plus_cls_no_match.
  - destruct (p c) eqn:Ec.
    + destruct (run_split p t) as (ws & rest & -> & Hws & Hrest).
      destruct (plus_cls_match p prev pos c ws rest Ec Hws Hrest) as (m & Hm & Hlen).
      cbn [scan]. rewrite Hm, Hlen. cbn [rebuild]. rewrite scan_skip.
      rewrite IH by (simpl; rewrite length_app; lia).
      simpl. rewrite Ec. rewrite replace_runs_skip by done.
      by rewrite (replace_runs_outside p text rest true).
    + cbn [scan]. rewrite plus_cls_no_match by done.
      cbn [rebuild]. rewrite IH by (simpl; lia). simpl. by rewrite Ec.
Qed.

Lemma replace_runs_nil (p : char → bool) (s : str) :
  ∀ b, replace_runs p [] b s = List.filter (λ c, negb (p c)) s.
Proof.
  induction s as [|c s IH]; intros b; [done|]. simpl.
  destruct (p c); simpl; rewrite IH; by destruct b.
Qed.

(** Removing the matches of [\s+] removes the whitespace and nothing
    else. *)
Lemma compact_filter `{U : Unicode} (s : str) : compact s = List.filter not_space s.
Proof.
  unfold compact, sub_const, sub, spaces_re, Space.
  by rewrite sub_const_runs, replace_runs_nil.
Qed.

Lemma collapse_runs `{U : Unicode} (s : str) :
  collapse_spaces s = replace_runs is_space [SP] false s.
Proof. unfold collapse_spaces, sub_const, sub, spaces_re, Space. apply sub_const_runs. Qed.

(** Replacing the matches of a one-character class replaces the
    characters of the class one by one. *)
Lemma sub_const_cls (p : char → bool) (text s : str) :
  ∀ prev pos, rebuild (λ _, text) (scan (Cls p) prev pos 0 s)
              = flat_map (λ c, if p c then text else [c]) s.
Proof.
  induction s as [|c t IH]; intros prev pos.
  - done.
  - cbn [scan]. unfold match_at. cbn [rmatch m_rest].
    destruct (p c) eqn:Ec.
    + cbn [mk_mobj step_char m_pos mo_end].
      replace (S pos - pos)%nat with 1%nat by lia.
      cbn [rebuild flat_map]. by rewrite IH, Ec.
    + cbn [rebuild flat_map]. by rewrite IH, Ec.
Qed.

(** Collapsed whitespace, seen from inside the text. *)
Lemma replace_runs_spaced (x : str) :
  ∀ b, single_spaced_from b (replace_runs is_space [SP] b x ++ [0]) = true.
Proof.
  induction x as [|c x IH]; intros b; [done|]. cbn [replace_runs].
  destruct (is_space c) eqn:Ec.
  - destruct b; cbn [app single_spaced_from]; [apply IH|].
    change (is_space SP) with true. cbn iota. apply (IH true).
  - cbn [app single_spaced_from]. rewrite Ec. apply IH.
Qed.

Lemma spaced_lstrip (y : str) :
  single_spaced_from false (y ++ [0]) = true →
  single_spaced_from true (Py.lstrip y ++ [0]) = true.
Proof.
  unfold Py.lstrip. destruct y as [|c t]; [done|].
  cbn [app single_spaced_from Py.drop_while].
  destruct (is_space c) eqn:Ec; [|by cbn [app single_spaced_from]; rewrite Ec].
  intros [[_ _]%andb_true_iff H]%andb_true_iff.
  destruct t as [|d t]; [done|]. cbn [app single_spaced_from Py.drop_while] in *.
  destruct (is_space d) eqn:Ed; [by rewrite andb_false_r in H|].
  cbn [app single_spaced_from]. by rewrite Ed.
Qed.

Lemma spaced_until_word (a : str) (c : char) (l : str) :
  is_space c = false →
  ∀ b, single_spaced_from b (a ++ c :: l) = true → single_spaced_from b (a ++ [c]) = true.
Proof.
  intros Hc. induction a as [|x a IH]; intros b; cbn [app single_spaced_from].
  - by rewrite Hc.
  - destruct (is_space x); [|apply IH].
    intros [H1 H2]%andb_true_iff. rewrite H1. by apply IH.
Qed.

Lemma spaced_until_space (a : str) (c : char) (l : str) :
  is_space c = true →
  ∀ b, single_spaced_from b (a ++ c :: l) = true → single_spaced_from b (a ++ [0]) = true.
Proof.
  intros Hc. induction a as [|x a IH]; intros b; cbn [app single_spaced_from]; [done|].
  destruct (is_space x); [|apply IH].
  intros [H1 H2]%andb_true_iff. rewrite H1. by apply IH.
Qed.

Lemma spaced_rstrip (z : str) :
  single_spaced_from true (z ++ [0]) = true → single_spaced (Py.rstrip z) = true.
Proof.
  induction z as [|c a IH] using rev_ind; [done|].
  rewrite rstrip_snoc, <- app_assoc. simpl app.
  destruct (is_space c) eqn:Ec; intros H.
  - apply IH. by apply (spaced_until_space a c [0]).
  - apply (spaced_until_word a c [0] Ec) in H. by destruct a.
Qed.

(** Whitespace collapsed and stripped leaves single spaces between
    words. *)
Lemma strip_collapse_spaced `{U : Unicode} (s : str) :
  single_spaced (Py.strip (collapse_spaces s)) = true.
Proof.
  rewrite collapse_runs. unfold Py.strip.
  apply spaced_rstrip, spaced_lstrip, replace_runs_spaced.
Qed.

End RunFacts.

(** ** What the normalisers leave in the text *)

Section CleanTextFacts.
Context `{U : Unicode}.
Import Re.

(** X1: the text [normalize_text] returns has no carriage return and no
    soft hyphen, whatever the Unicode tables are. *)
Theorem normalize_text_without_cr_and_shy (x : str) :
  (CR ∉ normalize_text x) ∧ (SHY ∉ normalize_text x).
Proof. split; [apply normalize_text_no_cr | apply normalize_text_no_shy]. Qed.

Lemma sub_const_slash_elem (r : regex) (s : str) (c : char) :
  requires (ch "/") r → c ∈ sub_const r [ch "/"] s → c ∈ s.
Proof.
  intros Hr Hc. destruct (decide (ch "/" ∈ s)) as [Hs|Hs].
  - apply sub_const_elem in Hc as [?| ->%list_elem_of_singleton]; done.
  - unfold sub_const in Hc. by rewrite (sub_requires _ _ _ _ Hr Hs) in Hc.
Qed.

(** X2: [normalize_text_for_doi_extraction] returns no form feed, and every
    character it returns is a character of its input or the newline that
    stands for a form feed. *)
Theorem repaired_text_characters (text : str) :
  (FF ∉ normalize_text_for_doi_extraction text)
  ∧ ∀ c, c ∈ normalize_text_for_doi_extraction text → c ∈ text ∨ c = LF.
Proof.
  assert (H : ∀ c, c ∈ normalize_text_for_doi_extraction text →
                   c ∈ Py.replace [FF] [LF] text).
  { intros c. unfold normalize_text_for_doi_extraction.
    destruct text as [|x t]; [by intros ?%elem_of_nil|].
    intros Hc.
    apply sub_const_slash_elem in Hc;
      [|apply rq_seq_r, rq_seq_r, rq_seq_r, rq_cls; by intros ? ->%N.eqb_eq].
    apply sub_const_slash_elem in Hc;
      [|apply rq_seq_l, rq_cls; by intros ? ->%N.eqb_eq].
    by apply sub_const_elem in Hc as [?|?%elem_of_nil]. }
  split.
  - intros Hc%H. revert Hc. apply replace_char_gone.
    by intros [=]%list_elem_of_singleton.
  - intros c Hc%H.
    apply replace_elem in Hc as [?| ->%list_elem_of_singleton]; [by left | by right].
Qed.

End CleanTextFacts.

(** ** The shape of the titles and blocks *)

Section SpacingFacts.
Context `{U : Unicode}.
Import Re.

Lemma title_chars_after_sub (s : str) (c : char) :
  c ∈ sub_const not_title_char_re [SP] s → title_char c = true ∨ is_space c = true.
Proof.
  unfold sub_const, sub, not_title_char_re. rewrite sub_const_cls.
  intros (x & Hx & Hc)%list_elem_of_In%in_flat_map.
  apply list_elem_of_In in Hc. unfold title_char.
  destruct (ascii_lower_letter x || ascii_digit x || is_space x || (x =? ch "-")) eqn:E;
    simpl in Hc; apply list_elem_of_singleton in Hc as ->.
  - apply orb_true_iff in E as [E|E];
      [apply orb_true_iff in E as [E|E]; [apply orb_true_iff in E as [E|E]|]|].
    + left. by rewrite E.
    + left. rewrite E. by rewrite orb_true_r.
    + by right.
    + left. rewrite E. by rewrite !orb_true_r.
  - by left.
Qed.

(** X3: a title normalised by [normalize_title] is made of the
    letters a to z, the digits, the hyphen and the space, and its spaces
    are single and stand between two other characters. *)
Theorem normalize_title_shape (t : str) :
  Forall (λ c, title_char c = true) (normalize_title t)
  ∧ single_spaced (normalize_title t) = true.
Proof.
  split; [|apply strip_collapse_spaced].
  apply Forall_forall. intros c Hc%strip_elem.
  rewrite collapse_runs in Hc.
  assert (Hr : ∀ s b, c ∈ replace_runs is_space [SP] b s →
                      c = SP ∨ (c ∈ s ∧ is_space c = false)).
  { clear. induction s as [|x s IH]; intros b; [by intros ?%elem_of_nil|].
    cbn [replace_runs]. destruct (is_space x) eqn:Ex.
    - intros [Hc|Hc]%elem_of_app.
      + left. destruct b; [by apply elem_of_nil in Hc|].
        by apply list_elem_of_singleton in Hc.
      + apply IH in Hc as [?|[? ?]]; [by left | right; split; [by right | done]].
    - intros [->|Hc]%elem_of_cons; [right; split; [by left | done]|].
      apply IH in Hc as [?|[? ?]]; [by left | right; split; [by right | done]]. }
  apply Hr in Hc as [->|[Hc Hs]]; [done|].
  apply title_chars_after_sub in Hc as [?|?]; [done | congruence].
Qed.

(** X4: the block [build_reference_block_around_index] builds has no
    whitespace but single spaces, each between two other characters. *)
Theorem reference_block_single_spaced (reference_lines : list str) (idx : nat)
  (before after : Z) :
  single_spaced (build_reference_block_around_index reference_lines idx before after)
  = true.
Proof. apply strip_collapse_spaced. Qed.

End SpacingFacts.

(** ** What a pattern spells *)

Section SpellFacts.
Import Re.

Lemma denotes_spells (P : char → Prop) (r : regex) (s s' : mstate) :
  spells P r → denotes r s s' → ∃ w, m_rest s = w ++ m_rest s' ∧ Forall P w.
Proof.
  intros Hsp Hd. revert Hsp.
  induction Hd as [s|p c t s Hs Hp|r1 r2 s s1 s2 _ IH1 _ IH2|r1 r2 s s' _ IH
                   |r1 r2 s s' _ IH|g r s|g r s s1 s2 _ IH1 _ IH2| | | | |];
    intros Hsp; inversion Hsp; subst.
  - by exists [].
  - exists [c]. split; [done|]. constructor; [auto | constructor].
  - destruct IH1 as (w1 & E1 & F1); [done|]. destruct IH2 as (w2 & E2 & F2); [done|].
    exists (w1 ++ w2). rewrite E1, E2, app_assoc. split; [done | by apply Forall_app].
  - by apply IH.
  - by apply IH.
  - by exists [].
  - destruct IH1 as (w1 & E1 & F1); [done|]. destruct IH2 as (w2 & E2 & F2); [done|].
    exists (w1 ++ w2). rewrite E1, E2, app_assoc. split; [done | by apply Forall_app].
Qed.

Lemma denotes_seq_inv (r1 r2 : regex) (s s' : mstate) :
  denotes (Seq r1 r2) s s' → ∃ s1, denotes r1 s s1 ∧ denotes r2 s1 s'.
Proof. inversion 1; subst. by eexists. Qed.

Lemma denotes_cls_inv (p : char → bool) (s s' : mstate) :
  denotes (Cls p) s s' →
  ∃ c t, m_rest s = c :: t ∧ p c = true ∧ s' = step_char c t s.
Proof. inversion 1; subst. by do 2 eexists. Qed.

Lemma denotes_bos_inv (s s' : mstate) : denotes Bos s s' → s = s' ∧ m_pos s = O.
Proof. by inversion 1; subst. Qed.

Lemma denotes_lit (w : str) : ∀ s s', denotes (Lit w) s s' → m_rest s = w ++ m_rest s'.
Proof.
  induction w as [|c w IH]; intros s s' Hd; simpl in Hd.
  - by inversion Hd.
  - inversion Hd as [| |? ? ? s1 ? H1 H2| | | | | | | | |]; subst.
    apply IH in H2. inversion H1 as [|? x t ? Hs Hx| | | | | | | | | |]; subst.
    apply N.eqb_eq in Hx as <-. rewrite Hs. simpl in H2. by rewrite H2.
Qed.

Lemma denotes_times (p : char → bool) (n : nat) :
  ∀ s s', denotes (Times n (Cls p)) s s' →
          ∃ w, length w = n ∧ Forall (λ c, p c = true) w ∧ m_rest s = w ++ m_rest s'.
Proof.
  induction n as [|n IH]; intros s s' Hd; simpl in Hd.
  - inversion Hd; subst. by exists [].
  - inversion Hd as [| |? ? ? s1 ? H1 H2| | | | | | | | |]; subst.
    apply IH in H2 as (w & Hn & Hw & E).
    inversion H1 as [|? x t ? Hs Hx| | | | | | | | | |]; subst.
    exists (x :: w). simpl in E. rewrite Hs, E. simpl.
    split_and!; [by f_equal | by constructor | done].
Qed.

Lemma spells_upto (P : char → Prop) (r : regex) (n : nat) :
  spells P r → spells P (UpTo n r).
Proof.
  intros Hr. induction n as [|n IH]; simpl; [constructor|].
  apply sp_alt; [by apply sp_seq | constructor].
Qed.

Lemma spells_weaken (P Q : char → Prop) (r : regex) :
  (∀ c, P c → Q c) → spells P r → spells Q r.
Proof. intros HPQ. induction 1; constructor; auto. Qed.

End SpellFacts.

(** ** The accepted DOIs *)

Section FormatFacts.
Context `{U : Unicode}.
Import Re.

(** X5: a string [is_valid_doi_format] accepts starts with 10. and four
    digits, goes on with digits and dots up to a slash that something
    follows, has two characters or more after its first slash once these
    are stripped, and has none of the ten characters the function
    rejects. *)
Theorem valid_doi_format_shape (d : str) :
  is_valid_doi_format d = true →
  (∃ digits more suffix,
      d = codes "10." ++ digits ++ more ++ ch "/" :: suffix
      ∧ length digits = 4%nat
      ∧ Forall (λ c, is_digit c = true) digits
      ∧ Forall (λ c, is_digit c = true ∨ c = ch ".") more
      ∧ suffix ≠ [])
  ∧ (∃ pre rest,
        d = pre ++ ch "/" :: rest ∧ (ch "/" ∉ pre) ∧ (2 <= length (Py.strip rest))%nat)
  ∧ Forall (λ c, c ∉ d) invalid_chars.
Proof.
  unfold is_valid_doi_format.
  destruct (match_ doi_format_re d) as [m|] eqn:Hm; [|discriminate].
  destruct (Py.split_once (ch "/") d) as [pre [rest|]] eqn:Hsplit; [|discriminate].
  destruct (length (Py.strip rest) <? 2)%nat eqn:Hlen; [discriminate|].
  intros Hinv%negb_true_iff. split_and!.
  - clear Hsplit Hlen Hinv. unfold match_, match_at in Hm.
    destruct (rmatch doi_format_re Some (MState None 0 d [])) as [e|] eqn:Hr;
      [|discriminate].
    apply rmatch_sound in Hr as (e' & Hd & _). clear Hm.
    unfold doi_format_re in Hd.
    apply denotes_seq_inv in Hd as (s1 & Hbos & Hd).
    apply denotes_seq_inv in Hd as (s2 & Hreg & Hd).
    apply denotes_seq_inv in Hd as (s3 & Hslash & Hd).
    apply denotes_seq_inv in Hd as (s4 & Hany & _).
    unfold Plus in Hany. apply denotes_seq_inv in Hany as (s5 & Hany & _).
    unfold doi_registrant in Hreg.
    apply denotes_seq_inv in Hreg as (s6 & Hlit & Hreg).
    apply denotes_seq_inv in Hreg as (s7 & Hrep & Htail).
    unfold Rep in Hrep. apply denotes_seq_inv in Hrep as (s8 & Hfour & Hupto).
    apply denotes_bos_inv in Hbos as [<- _].
    apply denotes_lit in Hlit. simpl m_rest in Hlit.
    apply denotes_times in Hfour as (digits & Hn & Hdigits & Edigits).
    apply (denotes_spells (λ c, is_digit c = true ∨ c = ch ".")) in Hupto
      as (w1 & E1 & F1); [|apply spells_upto, sp_cls; by left].
    apply (denotes_spells (λ c, is_digit c = true ∨ c = ch ".")) in Htail
      as (w2 & E2 & F2);
      [|apply sp_star, sp_seq;
         [apply sp_cls; intros ? ->%N.eqb_eq; by right
         |apply sp_seq; [|apply sp_star]; apply sp_cls; by left]].
    apply denotes_cls_inv in Hslash as (c & t & Ec & ->%N.eqb_eq & ->).
    apply denotes_cls_inv in Hany as (c' & t' & Ec' & _ & _). simpl in Ec'.
    exists digits, (w1 ++ w2), t. split_and!.
    + rewrite Hlit, Edigits, E1, E2, Ec. by rewrite <- !app_assoc.
    + done.
    + done.
    + by apply Forall_app.
    + by rewrite Ec'.
  - apply split_once_from_some in Hsplit as (p & -> & -> & Hp).
    exists p, rest. split_and!; [done | done |]. apply Nat.ltb_ge in Hlen. lia.
  - apply Forall_forall. intros c Hc Hd.
    assert (existsb (λ c, Py.contains [c] d) invalid_chars = true); [|congruence].
    apply existsb_exists. exists c. split; [by apply list_elem_of_In|].
    by apply contains_singleton.
Qed.

End FormatFacts.

(** X5, at work: a DOI with a four-digit registrant. *)
Lemma valid_doi_format_shape_witness :
  is_valid_doi_format (U:=latin1) (codes "10.1234/abcd") = true
  ∧ ∃ pre rest, codes "10.1234/abcd" = pre ++ ch "/" :: rest
                ∧ (ch "/" ∉ pre) ∧ (2 <= length (Py.strip rest))%nat.
Proof.
  split; [vm_compute; reflexivity|].
  apply (valid_doi_format_shape (U:=latin1) (codes "10.1234/abcd")).
  vm_compute. reflexivity.
Defined.

(** ** More on the extractors *)

Section MoreExtractorFacts.
Context `{U : Unicode}.
Import Re.

Lemma robust_records_shape (t : str) (mc : Z) (r : doi_record) :
  r ∈ robust_records t mc →
  ∃ m, m ∈ finditer _DOI_REGEX_ROBUST t
       ∧ raw r = Py.rstrip_chars _TRAILING_PUNCT (Py.strip (group_or_empty 1 m))
       ∧ doi r = Py.rstrip_chars _TRAILING_PUNCT (clean_doi (raw r))
       ∧ doi r ≠ []
       ∧ pattern r = codes "Robusto"
       ∧ position r = mo_start m
       ∧ context r = context_of t m mc.
Proof.
  unfold robust_records. intros (m & Hm & Hr)%list_elem_of_In%in_flat_map.
  exists m. split; [by apply list_elem_of_In|].
  destruct (Py.rstrip_chars _TRAILING_PUNCT
              (clean_doi (Py.rstrip_chars _TRAILING_PUNCT (Py.strip (group_or_empty 1 m)))))
    as [|x d] eqn:E; [done|].
  destruct (is_valid_doi_format (x :: d)); [|done].
  destruct Hr as [<-|[]]. simpl. by rewrite E.
Qed.

(** X6: a record of [extract_dois_robust] carries the label Robusto and
    a DOI that is not empty and does not end with one of the characters
    of [_TRAILING_PUNCT]; nor does the raw text it keeps. *)
Theorem robust_record_shape (text : str) (max_context : Z) (r : doi_record) :
  r ∈ extract_dois_robust text max_context →
  doi r ≠ []
  ∧ pattern r = codes "Robusto"
  ∧ (∀ c, last (doi r) = Some c → one_of _TRAILING_PUNCT c = false)
  ∧ (∀ c, last (raw r) = Some c → one_of _TRAILING_PUNCT c = false).
Proof.
  unfold extract_dois_robust.
  intros Hr%keep_first_elem. rewrite sort_by_position_elem in Hr.
  apply robust_records_shape in Hr as (m & _ & Hraw & Hdoi & Hne & Hpat & _).
  split_and!; [done | done | |].
  - rewrite Hdoi. apply rstrip_chars_last.
  - rewrite Hraw. apply rstrip_chars_last.
Qed.

(** X7: every line [extract_reference_lines] returns has 35 characters or
    more, no whitespace at either end and no line boundary inside, and
    is not a heading of a reference section. *)
Theorem reference_lines_shape (ref_text ln : str) :
  ln ∈ extract_reference_lines ref_text →
  (35 <= length ln)%nat
  ∧ Py.strip ln = ln
  ∧ Forall (λ c, is_linebreak c = false) ln
  ∧ match_ REF_START ln = None.
Proof.
  unfold extract_reference_lines.
  intros [[Hin Hlen]%filter_In Hhead]%list_elem_of_In%filter_In.
  apply in_map_iff in Hin as (x & <- & Hx%list_elem_of_In).
  split_and!.
  - by apply Nat.leb_le.
  - apply strip_strip.
  - apply Forall_forall. intros c Hc%strip_elem. by eapply splitlines_clean.
  - apply negb_true_iff, bool_decide_eq_false in Hhead.
    destruct (match_ REF_START (Py.strip x)); [|done]. by destruct Hhead.
Qed.

Lemma sentence_parts_stripped (s p : str) : p ∈ sentence_parts s → Py.strip p = p.
Proof.
  unfold sentence_parts. intros [Hin _]%list_elem_of_In%filter_In.
  apply in_map_iff in Hin as (x & <- & _). apply strip_strip.
Qed.

Lemma length_between_spec (lo hi : nat) (s : str) :
  length_between lo hi s = true → (lo <= length s <= hi)%nat.
Proof.
  unfold length_between. intros [?%Nat.leb_le ?%Nat.leb_le]%andb_true_iff. lia.
Qed.

Lemma title_without_year_shape (ln t : str) :
  title_without_year ln = Some t → (8 <= length t)%nat ∧ Py.strip t = t.
Proof.
  unfold title_without_year.
  assert (Hparts : match sentence_parts ln with
                   | _ :: cand :: _ :: _ =>
                       if length_between 8 300 cand then Some cand else None
                   | _ => None
                   end = Some t → (8 <= length t)%nat ∧ Py.strip t = t).
  { destruct (sentence_parts ln) as [|p0 [|cand [|p2 ps]]] eqn:E; [done..|].
    destruct (length_between 8 300 cand) eqn:El; [|done]. intros [= <-].
    split; [apply length_between_spec in El; lia|].
    apply (sentence_parts_stripped ln). rewrite E. set_solver. }
  destruct (search quoted_re ln) as [mq|]; [|done].
  destruct (8 <=? length (Py.strip (group_or_empty 1 mq)))%nat eqn:El; [|done].
  intros [= <-]. split; [by apply Nat.leb_le | apply strip_strip].
Qed.

(** X8: a title [extract_bibliographic_title] returns has eight characters
    or more and no whitespace at either end. *)
Theorem bibliographic_title_shape (reference_line : option str) (t : str) :
  extract_bibliographic_title reference_line = Some t →
  (8 <= length t)%nat ∧ Py.strip t = t.
Proof.
  unfold extract_bibliographic_title.
  destruct reference_line as [[|x reference_line]|]; [done| |done].
  set (ln := Py.strip (collapse_spaces _)). clearbody ln.
  destruct (_ && length_between 8 300 _) eqn:E.
  { apply andb_true_iff in E as [_ E%length_between_spec]. intros [= <-].
    split; [apply E | apply strip_strip]. }
  clear E. destruct (search year_marker_re ln) as [m|]; [|apply title_without_year_shape].
  set (rest := Py.strip (match search retrieved_from_re _ with
                           | Some m' => _ | None => _ end)).
  assert (Hrest : Py.strip rest = rest) by apply strip_strip. clearbody rest.
  destruct (sentence_parts rest) as [|p ps].
  - destruct (length_between 8 300 rest) eqn:E; [|apply title_without_year_shape].
    apply length_between_spec in E. intros [= <-]. split; [apply E | done].
  - destruct (length_between 8 300 (Py.strip p)) eqn:E.
    { apply length_between_spec in E. intros [= <-]. split; [apply E | apply strip_strip]. }
    clear E. destruct (length_between 8 300 rest) eqn:E; [|apply title_without_year_shape].
    apply length_between_spec in E. intros [= <-]. split; [apply E | done].
Qed.

Lemma first_reasonable_spec (reference : str) (styles : list citation_style) :
  (first_reasonable reference styles = []
   ∧ ∀ st, st ∈ styles → (length (title_for_style reference st) <= 10)%nat)
  ∨ (∃ pre st post,
        styles = pre ++ st :: post
        ∧ first_reasonable reference styles = title_for_style reference st
        ∧ (10 < length (title_for_style reference st))%nat
        ∧ ∀ st', st' ∈ pre → (length (title_for_style reference st') <= 10)%nat).
Proof.
  induction styles as [|st styles IH]; simpl.
  - left. split; [done | by intros ? ?%elem_of_nil].
  - destruct (10 <? length (title_for_style reference st))%nat eqn:E.
    + right. exists [], st, styles. apply Nat.ltb_lt in E.
      split_and!; [done | done | done | by intros ? ?%elem_of_nil].
    + apply Nat.ltb_ge in E. destruct IH as [[H1 H2]|(pre & st' & post & -> & H1 & H2 & H3)].
      * left. split; [done|]. intros ? [->|?]%elem_of_cons; auto.
      * right. exists (st :: pre), st', post.
        split_and!; [done | done | done |]. intros ? [->|?]%elem_of_cons; auto.
Qed.

(** X9: without a style of its own, [extract_title_by_style] returns what
    the first of the styles APA, IEEE, MLA, Vancouver and Chicago, in
    this order, gives with more than ten characters; it returns the
    empty string when the reference is blank or none of the five gives
    that much. *)
Theorem auto_detect_takes_first_reasonable (reference : str) :
  let styles := [APA7; IEEE; MLA; Vancouver; Chicago] in
  let res := extract_title_by_style reference AutoDetect in
  (res = []
   ∧ (Py.strip reference = []
      ∨ ∀ st, st ∈ styles → (length (extract_title_by_style reference st) <= 10)%nat))
  ∨ (∃ pre st post,
        styles = pre ++ st :: post
        ∧ res = extract_title_by_style reference st
        ∧ (10 < length res)%nat
        ∧ ∀ st', st' ∈ pre → (length (extract_title_by_style reference st') <= 10)%nat).
Proof.
  intros styles res. subst res styles.
  assert (Hnamed : ∀ st, st ∈ [APA7; IEEE; MLA; Vancouver; Chicago] →
                         Py.strip reference ≠ [] →
                         extract_title_by_style reference st = title_for_style reference st).
  { intros st Hst Hne. unfold extract_title_by_style.
    destruct (Py.strip reference); [done|].
    destruct st; try done.
    by repeat (apply elem_of_cons in Hst as [?|Hst]; [done|]); apply elem_of_nil in Hst. }
  destruct (Py.strip reference) as [|x y] eqn:E.
  { left. split; [|by left]. unfold extract_title_by_style. by rewrite E. }
  assert (Hne : Py.strip reference ≠ []) by by rewrite E.
  assert (Hauto : extract_title_by_style reference AutoDetect
                  = first_reasonable reference [APA7; IEEE; MLA; Vancouver; Chicago]).
  { unfold extract_title_by_style. by rewrite E. }
  rewrite Hauto.
  destruct (first_reasonable_spec reference [APA7; IEEE; MLA; Vancouver; Chicago])
    as [[H1 H2]|(pre & st & post & Hs & H1 & H2 & H3)].
  - left. split; [done|]. right. intros st Hst. rewrite Hnamed by done. auto.
  - right. exists pre, st, post.
    assert (Hst : st ∈ [APA7; IEEE; MLA; Vancouver; Chicago]).
    { rewrite Hs. apply elem_of_app. right. by left. }
    split_and!; [done | by rewrite Hnamed | by rewrite H1 |].
    intros st' Hst'. rewrite Hnamed; [auto | | done].
    rewrite Hs. apply elem_of_app. by left.
Qed.

End MoreExtractorFacts.

(** ** More on sorting and deduplication *)

Section MoreDedupFacts.
Context `{U : Unicode}.

Lemma insert_by_position_perm (x : doi_record) (l : list doi_record) :
  insert_by_position x l ≡ₚ x :: l.
Proof.
  induction l as [|y l IH]; simpl; [done|].
  destruct (position x <=? position y)%nat; [done|].
  rewrite IH. apply Permutation_swap.
Qed.

Lemma sort_by_position_perm (l : list doi_record) : sort_by_position l ≡ₚ l.
Proof.
  induction l as [|x l IH]; simpl; [done|].
  rewrite insert_by_position_perm. by rewrite IH.
Qed.

Lemma insert_by_position_at (p : nat) (x : doi_record) (l : list doi_record) :
  List.filter (λ r, position r =? p)%nat (insert_by_position x l)
  = List.filter (λ r, position r =? p)%nat (x :: l).
Proof.
  induction l as [|y l IH]; [done|]. cbn [insert_by_position].
  destruct (position x <=? position y)%nat eqn:E; [done|].
  apply Nat.leb_gt in E. cbn [List.filter] in *. rewrite IH.
  destruct (position x =? p)%nat eqn:Ex; [|done].
  apply Nat.eqb_eq in Ex.
  destruct (position y =? p)%nat eqn:Ey; [|done].
  apply Nat.eqb_eq in Ey. lia.
Qed.

Lemma sort_by_position_at (p : nat) (l : list doi_record) :
  List.filter (λ r, position r =? p)%nat (sort_by_position l)
  = List.filter (λ r, position r =? p)%nat l.
Proof.
  induction l as [|x l IH]; [done|]. cbn [sort_by_position foldr].
  rewrite insert_by_position_at. cbn [List.filter]. fold (sort_by_position l).
  by rewrite IH.
Qed.

(** X10: [extract_dois_from_text] returns the valid matches of its five
    patterns, each once, and the sort keeps matches at the same position
    in the order of the patterns. *)
Theorem extract_dois_from_text_sorts_stably (text : str) (max_context : Z) :
  let t := normalize_text (normalize_text_for_doi_extraction text) in
  let found := concat (imap (λ i pat, records_of_pattern t max_context (S i) pat)
                            DOI_PATTERNS) in
  extract_dois_from_text text max_context ≡ₚ found
  ∧ ∀ p, List.filter (λ r, position r =? p)%nat (extract_dois_from_text text max_context)
         = List.filter (λ r, position r =? p)%nat found.
Proof.
  intros t found. unfold extract_dois_from_text. fold t. fold found.
  split; [apply sort_by_position_perm | intros p; apply sort_by_position_at].
Qed.

Lemma sort_by_position_fixed (l : list doi_record) :
  by_position l → sort_by_position l = l.
Proof.
  induction 1 as [|x l Hl IH Hx]; [done|]. cbn [sort_by_position foldr].
  fold (sort_by_position l). rewrite IH.
  destruct l as [|y l]; [done|]. cbn [insert_by_position].
  apply Forall_cons in Hx as [Hy _]. apply Nat.leb_le in Hy. by rewrite Hy.
Qed.

Lemma keep_first_sorted (l : list doi_record) :
  by_position l → ∀ seen, by_position (keep_first seen l).
Proof.
  induction 1 as [|x l Hl IH Hx]; intros seen; simpl; [constructor|].
  destruct (bool_decide (lower (doi x) ∈ seen)); [apply IH|].
  constructor; [apply IH|]. apply Forall_forall. intros r Hr%keep_first_elem.
  by apply (proj1 (Forall_forall _ _) Hx).
Qed.

Lemma keep_first_covers (l : list doi_record) :
  ∀ seen r', r' ∈ l → doi_key r' ∉ seen →
             ∃ r, r ∈ keep_first seen l ∧ doi_key r = doi_key r'.
Proof.
  induction l as [|d l IH]; intros seen r'; [by intros ?%elem_of_nil|].
  cbn [keep_first]. fold (doi_key d). intros Hin Hfresh.
  destruct (bool_decide (doi_key d ∈ seen)) eqn:Ed.
  - apply bool_decide_eq_true in Ed.
    apply elem_of_cons in Hin as [-> | Hin]; [done | by apply IH].
  - destruct (decide (doi_key r' = doi_key d)) as [Heq|Hne].
    + exists d. split; [by left | done].
    + apply elem_of_cons in Hin as [-> | Hin]; [done|].
      destruct (IH ({[doi_key d]} ∪ seen) r' Hin) as (r & Hr & Hk).
      * intros [?%elem_of_singleton|?]%elem_of_union; done.
      * exists r. split; [by right | done].
Qed.

(** X11: [extract_dois_robust] returns records it found, in ascending
    order of position, and every DOI it found, its case set aside, is
    the DOI of a record it returns. *)
Theorem robust_represents_every_doi (text : str) (max_context : Z) :
  let found := robust_records (_normalize_for_doi_harvest (normalize_text text))
                              max_context in
  by_position (extract_dois_robust text max_context)
  ∧ (∀ r, r ∈ extract_dois_robust text max_context → r ∈ found)
  ∧ (∀ r', r' ∈ found →
           ∃ r, r ∈ extract_dois_robust text max_context ∧ doi_key r = doi_key r').
Proof.
  intros found. unfold extract_dois_robust. fold found. split_and!.
  - apply keep_first_sorted, sort_by_position_sorted.
  - intros r Hr%keep_first_elem. by apply sort_by_position_elem.
  - intros r' Hr'. apply keep_first_covers; [by apply sort_by_position_elem|].
    apply not_elem_of_empty.
Qed.

Lemma dedupe_from_sorted (l : list doi_record) :
  by_position l → ∀ seen, by_position (dedupe_from seen l).
Proof.
  induction 1 as [|x l Hl IH Hx]; intros seen; simpl; [constructor|].
  destruct (_ || _); [apply IH|].
  constructor; [apply IH|]. apply Forall_forall. intros r [_ Hr]%dedupe_from_fresh.
  by apply (proj1 (Forall_forall _ _) Hx).
Qed.

Lemma dedupe_from_fixed (l : list doi_record) :
  ∀ seen, NoDup (map doi_key l) →
          (∀ r, r ∈ l → doi_key r ≠ [] ∧ doi_key r ∉ seen) →
          dedupe_from seen l = l.
Proof.
  induction l as [|d l IH]; intros seen Hnd Hall; [done|].
  cbn [dedupe_from]. fold (doi_key d).
  destruct (Hall d) as [Hne Hfresh]; [by left|].
  rewrite (bool_decide_eq_false_2 _ Hne), (bool_decide_eq_false_2 _ Hfresh).
  cbn [orb]. f_equal. apply NoDup_cons in Hnd as [Hd Hnd].
  apply IH; [done|]. intros r Hr. destruct (Hall r) as [Hr1 Hr2]; [by right|].
  split; [done|]. intros [Heq%elem_of_singleton|?]%elem_of_union; [|done].
  apply Hd. rewrite <- Heq. apply list_elem_of_fmap. by exists r.
Qed.

(** X12: deduplicating twice is deduplicating once, and a record with
    an empty DOI never survives [_dedupe_dois]. *)
Theorem dedupe_dois_idempotent (dois_info : list doi_record) :
  _dedupe_dois (_dedupe_dois dois_info) = _dedupe_dois dois_info
  ∧ ∀ r, r ∈ _dedupe_dois dois_info → lower (doi r) ≠ [] ∧ r ∈ dois_info.
Proof.
  split.
  - unfold _dedupe_dois at 1.
    rewrite sort_by_position_fixed
      by apply dedupe_from_sorted, sort_by_position_sorted.
    apply dedupe_from_fixed; [apply dedupe_from_NoDup|].
    intros r Hr. split; [by eapply dedupe_from_nonempty | apply not_elem_of_empty].
  - intros r Hr. split; [by eapply dedupe_from_nonempty|].
    apply dedupe_from_fresh in Hr as [_ Hr]. by apply sort_by_position_elem.
Qed.

End MoreDedupFacts.

(** ** More on the scores *)

Section MoreScoreFacts.
Context `{U : Unicode}.

Lemma round4_one (x : Q) : (x == 1)%Q → round4 x = 10000 # 10000.
Proof.
  destruct x as [n d]. unfold Qeq, round4. cbn [Qnum Qden]. intros H.
  assert (n = Z.pos d) as -> by lia.
  rewrite (Z.mul_comm (Z.pos d)), Z.div_mul, Z.mod_mul by lia. done.
Qed.

Lemma Qmaxb_one_r (x y : Q) : (x <= 1)%Q → (y == 1)%Q → (Qmaxb x y == 1)%Q.
Proof.
  intros Hx Hy. unfold Qmaxb. destruct (Qle_bool x y) eqn:E; [done|].
  assert (Hle : (x <= y)%Q) by (rewrite Hy; exact Hx).
  apply Qle_bool_iff in Hle. congruence.
Qed.

Lemma Qmaxb_one_l (x y : Q) : (x == 1)%Q → (y <= 1)%Q → (Qmaxb x y == 1)%Q.
Proof.
  intros Hx Hy. unfold Qmaxb. destruct (Qle_bool x y) eqn:E; [|done].
  apply Qle_bool_iff in E. rewrite Hx in E. by apply Qle_antisym.
Qed.

Lemma jaccard_same (a b : str) :
  token_set a ≠ ∅ → token_set a = token_set b → (jaccard a b == 1)%Q.
Proof.
  intros Hne Heq. unfold jaccard. rewrite <- Heq.
  rewrite (bool_decide_eq_false_2 _ Hne). cbn [andb].
  rewrite intersection_idemp_L, union_idemp_L.
  assert (size (token_set a) ≠ 0%nat) by by intros ?%size_empty_iff%leibniz_equiv.
  unfold Qeq. simpl. rewrite Nat.max_r by lia. lia.
Qed.

Lemma jaccard_bounds (a b : str) : token_set a ≠ ∅ → (0 <= jaccard a b <= 1)%Q.
Proof.
  intros Hne. rewrite jaccard_is_index by done. by apply jaccard_index_bounds.
Qed.

Lemma score_of_titles (a b : str) :
  a ≠ [] → b ≠ [] → normalize_title a ≠ [] → normalize_title b ≠ [] →
  title_match_score (Some a) (Some b)
  = Some (round4 (Qmaxb (Qmaxb (Difflib.ratio (normalize_title a) (normalize_title b))
                               (jaccard (normalize_title a) (normalize_title b)))
                        ((Difflib.ratio (normalize_title a) (normalize_title b)
                          + jaccard (normalize_title a) (normalize_title b)) / 2))).
Proof.
  intros Ha Hb Hna Hnb. unfold title_match_score.
  destruct a as [|x a]; [done|]. destruct b as [|y b]; [done|]. cbn [missing orb from_option id].
  destruct (normalize_title (x :: a)); [done|].
  by destruct (normalize_title (y :: b)).
Qed.


(** X13: two titles whose normalised forms have the same words, in
    whatever order and however often, score 1. *)
Theorem same_words_score_one (a b : str) :
  a ≠ [] → b ≠ [] → normalize_title a ≠ [] →
  token_set (normalize_title a) = token_set (normalize_title b) →
  title_match_score (Some a) (Some b) = Some (10000 # 10000).
Proof.
  intros Ha Hb Hna Heq.
  assert (Hta : token_set (normalize_title a) ≠ ∅) by by apply normalize_title_tokens.
  assert (Hnb : normalize_title b ≠ []).
  { intros E. rewrite E in Heq. by rewrite Heq in Hta. }
  rewrite score_of_titles by done. f_equal. apply round4_one.
  pose proof (ratio_bounds (normalize_title a) (normalize_title b)) as [Hr0 Hr1].
  pose proof (jaccard_same _ _ Hta Heq) as Hj.
  apply Qmaxb_one_l; [by apply Qmaxb_one_r|].
  apply mean_bounds; [done | by apply jaccard_bounds].
Qed.






End MoreScoreFacts.

(** ** More on the reference lines of a DOI *)

Section MoreSelectorFacts.
Context `{U : Unicode}.



Lemma first_line_with_head (doi_norm : str) (lines : list str) :
  ∀ g : nat → nat,
    first_line_with doi_norm lines
    = option_map snd
        (head (concat (imap (λ i ln,
                 if Py.contains doi_norm (line_norm_of ln)
                 then [(g i, normalize_text (normalize_text_for_doi_extraction ln))]
                 else []) lines))).
Proof.
  induction lines as [|ln lines IH]; intros g; [done|].
  rewrite imap_cons. cbn [concat first_line_with]. fold (line_norm_of ln).
  destruct (Py.contains doi_norm (line_norm_of ln)); [done|].
  cbn [app]. apply (IH (g ∘ S)).
Qed.

(** X16: [find_reference_line_for_doi] returns the text of the first
    candidate [find_reference_candidates_for_doi] returns, and nothing
    when there is no candidate. *)
Theorem reference_line_is_first_candidate (doi : str) (reference_lines : list str) :
  find_reference_line_for_doi doi reference_lines
  = option_map snd (head (find_reference_candidates_for_doi doi reference_lines)).
Proof.
  unfold find_reference_line_for_doi, find_reference_candidates_for_doi, doi_norm_of.
  destruct (compact (lower doi)) as [|x n]; [done|].
  apply (first_line_with_head _ _ id).
Qed.

Lemma first_raw_line_spec (doi_norm : str) (lines : list str) :
  match Documento.first_raw_line_with doi_norm lines with
  | Some ln =>
      ∃ i, lines !! i = Some ln
           ∧ Py.contains doi_norm (compact (lower ln)) = true
           ∧ ∀ j l, (j < i)%nat → lines !! j = Some l →
                    Py.contains doi_norm (compact (lower l)) = false
  | None => Forall (λ ln, Py.contains doi_norm (compact (lower ln)) = false) lines
  end.
Proof.
  induction lines as [|ln lines IH]; simpl; [constructor|].
  destruct (Py.contains doi_norm (compact (lower ln))) eqn:E.
  - exists 0%nat. split_and!; [done | done | intros; lia].
  - destruct (Documento.first_raw_line_with doi_norm lines) as [r|].
    + destruct IH as (i & Hi & Hc & Hbefore). exists (S i).
      split_and!; [done | done |]. intros [|j] l Hj; simpl; [by intros [= <-]|].
      apply Hbefore. lia.
    + by constructor.
Qed.

(** X17: the [find_reference_line_for_doi] of [documento.py] returns the
    first line that has the DOI in it, both taken in lower case and
    without their whitespace, as the line stands in the list; it
    returns nothing when no line has it or the DOI is blank. *)
Theorem raw_reference_line_is_first_match (doi : str) (reference_lines : list str) :
  let squeezed (s : str) := List.filter not_space (lower s) in
  match Documento.find_reference_line_for_doi doi reference_lines with
  | Some ln =>
      squeezed doi ≠ []
      ∧ ∃ i, reference_lines !! i = Some ln
             ∧ Py.contains (squeezed doi) (squeezed ln) = true
             ∧ ∀ j l, (j < i)%nat → reference_lines !! j = Some l →
                      Py.contains (squeezed doi) (squeezed l) = false
  | None =>
      squeezed doi = []
      ∨ Forall (λ ln, Py.contains (squeezed doi) (squeezed ln) = false) reference_lines
  end.
Proof.
  intros squeezed. unfold Documento.find_reference_line_for_doi.
  assert (Hsq : ∀ s, compact (lower s) = squeezed s) by (intros; apply compact_filter).
  rewrite Hsq. destruct (squeezed doi) as [|x n] eqn:E; [by left|].
  pose proof (first_raw_line_spec (x :: n) reference_lines) as H.
  destruct (Documento.first_raw_line_with (x :: n) reference_lines) as [ln|].
  - split; [done|]. destruct H as (i & Hi & Hc & Hbefore). exists i.
    rewrite <- Hsq. split_and!; [done | done |]. intros j l Hj Hl.
    rewrite <- Hsq. by eapply Hbefore.
  - right. eapply Forall_impl; [exact H|]. intros ln. simpl. by rewrite Hsq.
Qed.

Lemma first_page_with_spec (target : str) (pages : list str) :
  ∀ pi,
    match first_page_with target pi pages with
    | PageNumber n =>
        ∃ i ptxt, n = (pi + i)%nat ∧ pages !! i = Some ptxt
                  ∧ Py.contains target (line_norm_of ptxt) = true
                  ∧ ∀ j q, (j < i)%nat → pages !! j = Some q →
                           Py.contains target (line_norm_of q) = false
    | NoPage => Forall (λ ptxt, Py.contains target (line_norm_of ptxt) = false) pages
    end.
Proof.
  induction pages as [|ptxt pages IH]; intros pi; cbn [first_page_with]; [constructor|].
  fold (line_norm_of ptxt).
  destruct (Py.contains target (line_norm_of ptxt)) eqn:E.
  - exists 0%nat, ptxt. split_and!; [lia | done | done | intros; lia].
  - specialize (IH (S pi)). destruct (first_page_with target (S pi) pages) as [|n].
    + by constructor.
    + destruct IH as (i & q & -> & Hi & Hc & Hbefore). exists (S i), q.
      split_and!; [lia | done | done |]. intros [|j] l Hj; simpl; [by intros [= <-]|].
      apply Hbefore. lia.
Qed.

(** X18: [assign_page] keeps the records and their order; the page it gives
    a record is the number, counted from 1, of the first page whose
    repaired and normalised text has the DOI in it, both in lower case
    and without whitespace, and it is N/A when the DOI is empty or no
    page has it. *)
Theorem assigned_page_is_first_page (dois_info : list doi_record) (pages_text : list str) :
  let target (d : doi_record) := List.filter not_space (lower (doi d)) in
  map fst (assign_page dois_info pages_text) = dois_info
  ∧ Forall (λ dp : doi_record * page_label,
      match dp.2 with
      | PageNumber n =>
          lower (doi dp.1) ≠ []
          ∧ ∃ i ptxt, n = S i ∧ pages_text !! i = Some ptxt
                      ∧ Py.contains (target dp.1) (line_norm_of ptxt) = true
                      ∧ ∀ j q, (j < i)%nat → pages_text !! j = Some q →
                               Py.contains (target dp.1) (line_norm_of q) = false
      | NoPage =>
          lower (doi dp.1) = []
          ∨ Forall (λ ptxt, Py.contains (target dp.1) (line_norm_of ptxt) = false)
                   pages_text
      end) (assign_page dois_info pages_text).
Proof.
  intros target. unfold assign_page. split.
  - rewrite map_map. simpl. apply map_id.
  - apply Forall_forall. intros [d0 p] (d & [= -> ->] & _)%list_elem_of_fmap.
    cbn [fst snd]. unfold page_of.
    destruct (lower (doi d)) as [|x k] eqn:E; [by left|].
    pose proof (first_page_with_spec (compact (x :: k)) pages_text 1) as H.
    rewrite compact_filter in H. rewrite compact_filter.
    subst target. cbn beta. rewrite E.
    destruct (first_page_with _ 1 pages_text) as [|n]; [by right|].
    split; [done|]. destruct H as (i & q & -> & H). by exists i, q.
Qed.

End MoreSelectorFacts.

(** ** More on the reference section *)

Section MoreLocatorFacts.
Context `{U : Unicode}.

Lemma find_start_some (lines : list str) :
  ∀ k n, find_start k lines = Some n →
         ∃ i line, n = (k + i)%nat ∧ lines !! i = Some line
                   ∧ is_heading REF_START line = true
                   ∧ ∀ j l, (j < i)%nat → lines !! j = Some l →
                            is_heading REF_START l = false.
Proof.
  induction lines as [|line lines IH]; intros k n; simpl; [done|].
  destruct (is_heading REF_START line) eqn:E.
  - intros [= <-]. exists 0%nat, line. split_and!; [lia | done | done | intros; lia].
  - intros (i & l & -> & Hi & Hh & Hbefore)%IH. exists (S i), l.
    split_and!; [lia | done | done |].
    intros [|j] l' Hj; simpl; [by intros [= <-]|]. apply Hbefore. lia.
Qed.

Lemma find_end_spec (start : nat) (min_lines_after : Z) (total : nat) (ls : list str) :
  ∀ j,
    let closes (i : nat) (l : str) :=
      is_heading REF_END l && (min_lines_after <=? Z.of_nat (j + i) - Z.of_nat start)%Z in
    (find_end start min_lines_after total j ls = total
     ∧ ∀ i l, ls !! i = Some l → closes i l = false)
    ∨ ∃ i l, find_end start min_lines_after total j ls = (j + i)%nat
             ∧ ls !! i = Some l ∧ closes i l = true
             ∧ ∀ i' l', (i' < i)%nat → ls !! i' = Some l' → closes i' l' = false.
Proof.
  induction ls as [|line ls IH]; intros j closes; cbn [find_end].
  - left. split; [done | by intros ? ? ?].
  - destruct (is_heading REF_END line
              && (min_lines_after <=? Z.of_nat j - Z.of_nat start)%Z) eqn:E.
    + right. exists 0%nat, line. subst closes. cbn beta. rewrite Nat.add_0_r.
      split_and!; [done | done | done | intros; lia].
    + destruct (IH (S j)) as [[He Hall]|(i & l & He & Hi & Hc & Hbefore)].
      * left. split; [done|]. intros [|i] l; simpl.
        -- intros [= <-]. subst closes. cbn beta. by rewrite Nat.add_0_r.
        -- intros Hl. subst closes. cbn beta.
           replace (j + S i)%nat with (S j + i)%nat by lia. by apply Hall.
      * right. exists (S i), l. subst closes. cbn beta.
        replace (j + S i)%nat with (S j + i)%nat by lia.
        split_and!; [done | done | done |].
        intros [|i'] l' Hi'; simpl.
        -- intros [= <-]. by rewrite Nat.add_0_r.
        -- intros Hl. replace (j + S i')%nat with (S j + i')%nat by lia.
           apply Hbefore; [lia | done].
Qed.

(** X19: when [slice_references_section] returns bounds, the section starts
    at the first line that is a start heading and ends after it, at the
    end of the text or at an end heading at least [min_lines_after]
    lines further on; no end heading lies that far on before; the text
    returned is the lines between the bounds, joined and stripped, and
    has 250 characters or more. *)
Theorem slice_references_found (full_text : str) (min_lines_after : Z)
  (ref_text : str) (start stop : nat) :
  slice_references_section full_text min_lines_after = (ref_text, Some start, Some stop) →
  (∃ line, Py.splitlines full_text !! start = Some line
           ∧ is_heading REF_START line = true)
  ∧ (∀ j l, (j < start)%nat → Py.splitlines full_text !! j = Some l →
            is_heading REF_START l = false)
  ∧ (start < stop <= length (Py.splitlines full_text))%nat
  ∧ (stop = length (Py.splitlines full_text)
     ∨ ∃ l, Py.splitlines full_text !! stop = Some l
            ∧ is_heading REF_END l = true
            ∧ (min_lines_after <= Z.of_nat stop - Z.of_nat start)%Z)
  ∧ (∀ j l, (start < j < stop)%nat → Py.splitlines full_text !! j = Some l →
            is_heading REF_END l = true →
            (Z.of_nat j - Z.of_nat start < min_lines_after)%Z)
  ∧ ref_text = section_text (Py.splitlines full_text) start stop
  ∧ (250 <= length ref_text)%nat.
Proof.
  unfold slice_references_section.
  set (lines := Py.splitlines full_text).
  destruct (find_start 0 lines) as [s0|] eqn:Hs; [|done].
  destruct (length (section_text lines s0 (section_end lines s0 min_lines_after)) <? 250)%nat
    eqn:Hlen; [done|].
  intros [= <- <- <-]. apply Nat.ltb_ge in Hlen.
  apply find_start_some in Hs as (i & line & -> & Hi & Hh & Hbefore).
  change (0 + i)%nat with i in *.
  assert (Hlt : (i < length lines)%nat) by by eapply lookup_lt_Some.
  unfold section_end in *.
  pose proof (find_end_spec i min_lines_after (length lines) (drop (S i) lines) (S i)) as He.
  cbn zeta in He.
  set (e := find_end i min_lines_after (length lines) (S i) (drop (S i) lines)) in *.
  assert (Hdrop : ∀ k l, drop (S i) lines !! k = Some l ↔ lines !! (S i + k)%nat = Some l).
  { intros k l. by rewrite lookup_drop. }
  destruct He as [[He Hall]|(k & l & He & Hk & Hc & Hnone)].
  - rewrite He in *.
    split; [by exists line|]. split; [done|]. split; [lia|]. split; [by left|].
    split; [|by split].
    intros j l [Hj1 Hj2] Hl Hend.
    specialize (Hall (j - S i)%nat l). rewrite Hdrop in Hall.
    replace (S i + (j - S i))%nat with j in Hall by lia.
    rewrite Hend in Hall. specialize (Hall Hl). simpl in Hall.
    apply Z.leb_gt in Hall. lia.
  - apply andb_true_iff in Hc as [Hend Hmin]. apply Z.leb_le in Hmin.
    apply Hdrop in Hk. pose proof (lookup_lt_Some _ _ _ Hk).
    rewrite He in *.
    split; [by exists line|]. split; [done|]. split; [lia|].
    split; [right; exists l; split_and!; [done | done | lia]|].
    split; [|by split].
    intros j l' [Hj1 Hj2] Hl Hend'.
    specialize (Hnone (j - S i)%nat l'). rewrite Hdrop in Hnone.
    replace (S i + (j - S i))%nat with j in Hnone by lia.
    rewrite Hend' in Hnone. specialize (Hnone ltac:(lia) Hl). simpl in Hnone.
    apply Z.leb_gt in Hnone. lia.
Qed.

(** X20: every row [process_pdf_bytes_to_doi_rows] returns has a DOI that
    [is_valid_doi_format] accepts, the file name given, the page N/A,
    and a reference line that is empty or is one of the reference lines
    returned and has the DOI in it, both in lower case and without
    whitespace; no two rows have the same DOI, case set aside; every
    reference line returned has 35 characters or more. *)
Theorem document_rows_shape (extracted name : str) (prefer_refs_section : bool) :
  let res := Documento.process_pdf_bytes_to_doi_rows extracted name prefer_refs_section in
  Forall (λ row,
      is_valid_doi_format (doi (Documento.row_record row)) = true
      ∧ Documento.file_name row = name
      ∧ Documento.page row = NoPage
      ∧ (Documento.reference_line row = []
         ∨ (Documento.reference_line row ∈ res.2
            ∧ Py.contains (compact (lower (doi (Documento.row_record row))))
                          (compact (lower (Documento.reference_line row))) = true)))
    res.1
  ∧ NoDup (map (λ row, doi_key (Documento.row_record row)) res.1)
  ∧ Forall (λ ln, (35 <= length ln)%nat) res.2.
Proof.
  intros res. subst res. unfold Documento.process_pdf_bytes_to_doi_rows.
  set (text_for_dois := if prefer_refs_section then _ else _). clearbody text_for_dois.
  cbn [fst snd]. split_and!.
  - apply Forall_forall. intros row (d & -> & Hd)%list_elem_of_fmap. cbn.
    split_and!; [by apply extract_dois_robust_elem in Hd as [? _] | done | done |].
    unfold Documento.find_reference_line_for_doi.
    destruct (compact (lower (doi d))) as [|x n] eqn:E; [by left|].
    pose proof (first_raw_line_spec (x :: n) (extract_reference_lines text_for_dois)) as H.
    destruct (Documento.first_raw_line_with _ _) as [ln|]; [|by left].
    destruct H as (i & Hi & Hc & _). right. cbn.
    split; [by eapply list_elem_of_lookup_2 | done].
  - rewrite map_map. cbn. apply keep_first_NoDup.
  - apply Forall_forall. intros ln Hin. unfold extract_reference_lines in Hin.
    apply list_elem_of_In, filter_In in Hin as [[_ Hlen]%filter_In _].
    by apply Nat.leb_le.
Qed.

End MoreLocatorFacts.

(** ** The verdicts of the resolver *)

Section VerdictFacts.

Lemma valid_not_invalid : codes "valid" ≠ codes "invalid".
Proof. intros H. vm_compute in H. discriminate. Qed.

Lemma valid_not_unknown : codes "valid" ≠ codes "unknown".
Proof. intros H. vm_compute in H. discriminate. Qed.

Lemma invalid_not_unknown : codes "invalid" ≠ codes "unknown".
Proof. intros H. vm_compute in H. discriminate. Qed.

Lemma interpret_sound (status : Z) : sound_answer (decision_answer (interpret status)).
Proof.
  pose proof valid_not_invalid. pose proof valid_not_unknown.
  pose proof invalid_not_unknown.
  unfold interpret.
  destruct ((200 <=? status)%Z && (status <? 400)%Z) eqn:E1.
  { apply andb_true_iff in E1 as [?%Z.leb_le ?%Z.ltb_lt]. cbn.
    split_and!; [done | split; [lia | done] | split; [done | lia] | by left]. }
  assert (¬ (200 <= status < 400)%Z).
  { intros [?%Z.leb_le ?%Z.ltb_lt]. rewrite andb_false_iff in E1. by destruct E1; congruence. }
  destruct (status =? 429)%Z eqn:E2.
  { apply Z.eqb_eq in E2. cbn.
    split_and!; [split; [done | by intros ?] | split; [by intros ? | lia]
                | split; [by intros ? | lia] | by right; right]. }
  destruct ((500 <=? status)%Z && (status <? 600)%Z) eqn:E3.
  { apply andb_true_iff in E3 as [?%Z.leb_le ?%Z.ltb_lt]. cbn.
    split_and!; [split; [done | by intros ?] | split; [by intros ? | lia]
                | split; [by intros ? | lia] | by right; right]. }
  destruct (status =? 404)%Z eqn:E4.
  { apply Z.eqb_eq in E4. cbn.
    split_and!; [split; [done | by intros ?] | split; [by intros ? | lia]
                | split; [by left | done] | by right; left]. }
  destruct (status =? 400)%Z eqn:E5.
  { apply Z.eqb_eq in E5. cbn.
    split_and!; [split; [done | by intros ?] | split; [by intros ? | lia]
                | split; [by right | done] | by right; left]. }
  apply Z.eqb_neq in E4, E5. cbn.
  split_and!; [split; [done | by intros ?] | split; [by intros ? | lia]
              | split; [by intros ? | lia] | by right; right].
Qed.

Lemma on_failure_sound (e : failure) : sound_answer (decision_answer (on_failure e)).
Proof.
  pose proof valid_not_unknown. pose proof invalid_not_unknown.
  destruct e; cbn;
    (split_and!; [split; [done | by intros ?] | split; [by intros ? | lia]
                 | split; [by intros ? | lia] | by right; right]).
Qed.

Lemma attempt_once_sound (net : network) (attempt : nat) :
  sound_answer (decision_answer (attempt_once net attempt).2).
Proof.
  unfold attempt_once. destruct (head_response net attempt) as [status|e].
  - destruct (needs_get status); [|apply interpret_sound].
    destruct (get_response net attempt); [apply interpret_sound | apply on_failure_sound].
  - apply on_failure_sound.
Qed.

Lemma attempts_sound (net : network) (max_retries : Z) (remaining : nat) :
  ∀ attempt, sound_answer (attempts net max_retries remaining attempt).2.1.
Proof.
  pose proof valid_not_unknown. pose proof invalid_not_unknown.
  induction remaining as [|remaining IH]; intros attempt; cbn [attempts].
  - cbn. split_and!; [split; [done | by intros ?] | split; [by intros ? | lia]
                     | split; [by intros ? | lia] | by right; right].
  - pose proof (attempt_once_sound net attempt) as Hs.
    destruct (attempt_once net attempt) as [sent [a|factor a]]; [done|].
    destruct (Z.of_nat attempt <? max_retries - 1)%Z; [|done].
    specialize (IH (S attempt)).
    by destruct (attempts net max_retries remaining (S attempt)) as [later r].
Qed.

Lemma attempts_requests (net : network) (max_retries : Z) (remaining : nat) :
  ∀ attempt,
    (requests_in (attempts net max_retries remaining attempt).1 <= 2 * remaining)%nat
    ∧ (pauses_in (attempts net max_retries remaining attempt).1
       <= Z.to_nat (max_retries - 1 - Z.of_nat attempt))%nat.
Proof.
  induction remaining as [|remaining IH]; intros attempt; cbn [attempts].
  - cbn. lia.
  - assert (Hsent : (requests_in (attempt_once net attempt).1 <= 2)%nat
                    ∧ pauses_in (attempt_once net attempt).1 = 0%nat).
    { unfold attempt_once. destruct (head_response net attempt) as [status|e]; [|cbn; lia].
      destruct (needs_get status); [|cbn; lia].
      destruct (get_response net attempt); cbn; lia. }
    destruct (attempt_once net attempt) as [sent [a|factor a]]; cbn [fst snd] in *; [lia|].
    destruct (Z.of_nat attempt <? max_retries - 1)%Z eqn:E; cbn [fst snd]; [|lia].
    apply Z.ltb_lt in E. specialize (IH (S attempt)).
    destruct (attempts net max_retries remaining (S attempt)) as [later r].
    cbn [fst snd] in *. unfold requests_in, pauses_in in *.
    rewrite !List.filter_app, !length_app. cbn [List.filter length]. lia.
Qed.

Section WithUnicode.
Context `{U : Unicode}.

(** X21: [validate_doi_http] returns the DOI it was given and leaves its
    verdict in the cache under the DOI in lower case, touching no other
    key; a DOI found in the cache costs no request and changes nothing;
    and once a verdict is in the cache, any spelling of the DOI with the
    same lower case gets the same verdict, whatever the resolver would
    now answer. *)
Theorem verdict_is_cached (doi : str) (timeout : Q) (max_retries : Z)
  (cache : gmap str verdict) (net : network) :
  let '((d, o, c, s, m, t), cache', sent) :=
    validate_doi_http doi timeout max_retries cache net in
  d = doi
  ∧ cache' !! lower doi = Some (Verdict o c s m t)
  ∧ (∀ k, k ≠ lower doi → cache' !! k = cache !! k)
  ∧ (is_Some (cache !! lower doi) → cache' = cache ∧ sent = [])
  ∧ ∀ doi' timeout' max_retries' net',
      lower doi' = lower doi →
      validate_doi_http doi' timeout' max_retries' cache' net'
      = ((doi', o, c, s, m, t), cache', []).
Proof.
  unfold validate_doi_http.
  destruct (cache !! lower doi) as [v|] eqn:E.
  - destruct v as [o c s m t]. cbn.
    split_and!; [done | done | done | done |].
    intros doi' timeout' max_retries' net' Heq. by rewrite Heq, E.
  - destruct (attempts net max_retries (Z.to_nat max_retries) 0)
      as [sent [[[[o c] s] m] attempt]].
    split_and!; [done | apply lookup_insert_eq | | by intros [? [=]] |].
    + intros k Hk. by apply lookup_insert_ne.
    + intros doi' timeout' max_retries' net' Heq. by rewrite Heq, lookup_insert_eq.
Qed.

(** X22: in a verdict [validate_doi_http] reaches by asking the resolver,
    [ok] holds exactly when the category is valid, the category is valid
    exactly when the final status is from 200 to 399, invalid exactly
    when it is 404 or 400, and unknown otherwise. *)
Theorem fresh_verdict_meaning (doi : str) (timeout : Q) (max_retries : Z)
  (cache : gmap str verdict) (net : network) :
  cache !! lower doi = None →
  let '((_, o, c, s, _, _), _, _) := validate_doi_http doi timeout max_retries cache net in
  (o = true ↔ c = codes "valid")
  ∧ (c = codes "valid" ↔ (200 <= s < 400)%Z)
  ∧ (c = codes "invalid" ↔ s = 404%Z ∨ s = 400%Z)
  ∧ (c = codes "valid" ∨ c = codes "invalid" ∨ c = codes "unknown").
Proof.
  intros E. unfold validate_doi_http. rewrite E.
  pose proof (attempts_sound net max_retries (Z.to_nat max_retries) 0) as H.
  by destruct (attempts net max_retries (Z.to_nat max_retries) 0)
    as [sent [[[[o c] s] m] attempt]].
Qed.

(** X23: one call of [validate_doi_http] sends at most two requests for
    each of the [max_retries] attempts and pauses fewer than
    [max_retries] times; it sends nothing when [max_retries] is not
    positive, and the verdict is then unknown with status 0. *)
Theorem requests_are_bounded (doi : str) (timeout : Q) (max_retries : Z)
  (cache : gmap str verdict) (net : network) :
  let '((_, _, c, s, _, _), _, sent) :=
    validate_doi_http doi timeout max_retries cache net in
  (requests_in sent <= 2 * Z.to_nat max_retries)%nat
  ∧ (pauses_in sent <= Z.to_nat (max_retries - 1))%nat
  ∧ ((max_retries <= 0)%Z → cache !! lower doi = None →
     sent = [] ∧ c = codes "unknown" ∧ s = 0%Z).
Proof.
  unfold validate_doi_http.
  destruct (cache !! lower doi) as [v|] eqn:E.
  - cbn. split_and!; [lia | lia | done].
  - pose proof (attempts_requests net max_retries (Z.to_nat max_retries) 0) as [H1 H2].
    rewrite Z.sub_0_r in H2.
    destruct (attempts net max_retries (Z.to_nat max_retries) 0)
      as [sent [[[[o c] s] m] attempt]] eqn:Ea.
    split_and!; [done | done |].
    intros Hle _. replace (Z.to_nat max_retries) with 0%nat in Ea by lia.
    cbn in Ea. by injection Ea as <- _ <- <- _ _.
Qed.

(** X24: the category [_categorize_doi] shows for a verdict
    [validate_doi_http] reaches by asking the resolver depends on the
    final status alone: valid from 200 to 399, invalid for 404 and 400,
    suspicious for the other statuses from 400 to 599, unknown for all
    the rest, among them the status 0 of a request that failed. *)
Theorem shown_category_follows_status (doi : str) (timeout : Q) (max_retries : Z)
  (cache : gmap str verdict) (net : network) :
  cache !! lower doi = None →
  let '((_, _, c, s, _, _), _, _) := validate_doi_http doi timeout max_retries cache net in
  _categorize_doi c (Some s)
  = if (200 <=? s)%Z && (s <? 400)%Z then codes "v" ++ [225] ++ codes "lido"
    else if (s =? 404)%Z || (s =? 400)%Z then codes "inv" ++ [225] ++ codes "lido"
    else if (400 <=? s)%Z && (s <? 600)%Z then codes "sospechoso"
    else codes "desconocido".
Proof.
  intros E. unfold validate_doi_http. rewrite E.
  pose proof (attempts_sound net max_retries (Z.to_nat max_retries) 0) as H.
  destruct (attempts net max_retries (Z.to_nat max_retries) 0)
    as [sent [[[[o c] s] m] attempt]].
  cbn [fst snd] in H. destruct H as (_ & Hv & Hi & Hc).
  pose proof valid_not_invalid. pose proof valid_not_unknown.
  pose proof invalid_not_unknown.
  unfold _categorize_doi.
  destruct Hc as [-> | [-> | ->]].
  - rewrite bool_decide_eq_true_2 by done.
    destruct Hv as [Hv _]. destruct (Hv eq_refl) as [Hlo%Z.leb_le Hhi%Z.ltb_lt].
    by rewrite Hlo, Hhi.
  - rewrite bool_decide_eq_false_2 by done. rewrite bool_decide_eq_true_2 by done.
    destruct ((200 <=? s)%Z && (s <? 400)%Z) eqn:E1.
    { apply andb_true_iff in E1 as [?%Z.leb_le ?%Z.ltb_lt].
      destruct Hv as [_ Hv]. by destruct Hv. }
    destruct Hi as [Hi _]. by destruct (Hi eq_refl) as [-> | ->].
  - rewrite !bool_decide_eq_false_2 by done. rewrite bool_decide_eq_true_2 by done.
    destruct ((200 <=? s)%Z && (s <? 400)%Z) eqn:E1.
    { apply andb_true_iff in E1 as [?%Z.leb_le ?%Z.ltb_lt].
      destruct Hv as [_ Hv]. by destruct Hv. }
    destruct ((s =? 404)%Z || (s =? 400)%Z) eqn:E2; [|done].
    destruct Hi as [_ Hi]. destruct Hi; [|done].
    apply orb_true_iff in E2 as [?%Z.eqb_eq|?%Z.eqb_eq]; [by left | by right].
Qed.

End WithUnicode.
End VerdictFacts.

(** ** The further properties at work *)

(** X6, at work: a DOI followed by closing punctuation. *)
Lemma robust_record_shape_witness :
  ∃ r, extract_dois_robust (U:=latin1) (codes "See 10.1234/abcd.).") 60 !! 0%nat = Some r
       ∧ doi r = codes "10.1234/abcd"
       ∧ (∀ c, last (doi r) = Some c → one_of _TRAILING_PUNCT c = false).
Proof.
  eexists. split; [vm_compute; reflexivity|]. split; [vm_compute; reflexivity|].
  apply (robust_record_shape (U:=latin1) (codes "See 10.1234/abcd.).") 60).
  apply list_elem_of_lookup_2 with 0%nat. vm_compute. reflexivity.
Defined.

(** X7, at work: the one line of the sample reference. *)
Lemma reference_lines_shape_witness :
  extract_reference_lines (U:=latin1) sample_reference = [sample_reference]
  ∧ (35 <= length sample_reference)%nat
  ∧ Py.strip sample_reference = sample_reference
  ∧ Forall (λ c, is_linebreak c = false) sample_reference
  ∧ Re.match_ (@REF_START latin1) sample_reference = None.
Proof.
  split; [vm_compute; reflexivity|].
  apply (reference_lines_shape (U:=latin1) sample_reference sample_reference).
  apply list_elem_of_lookup_2 with 0%nat. vm_compute. reflexivity.
Defined.

(** X8, at work: the title of the sample reference. *)
Lemma bibliographic_title_shape_witness :
  extract_bibliographic_title (U:=latin1) (Some sample_reference)
  = Some (codes "Deep learning for text classification")
  ∧ (8 <= length (codes "Deep learning for text classification"))%nat
  ∧ Py.strip (codes "Deep learning for text classification")
    = codes "Deep learning for text classification".
Proof.
  split; [vm_compute; reflexivity|].
  apply (bibliographic_title_shape (U:=latin1) (Some sample_reference)).
  vm_compute. reflexivity.
Defined.

(** X13, at work: the words of a title in another order. *)
Lemma same_words_score_one_witness :
  token_set (normalize_title (U:=latin1) title_upper)
  = token_set (normalize_title (U:=latin1) title_reordered)
  ∧ title_match_score (U:=latin1) (Some title_upper) (Some title_reordered)
    = Some (10000 # 10000).
Proof.
  assert (H : token_set (normalize_title (U:=latin1) title_upper)
              = token_set (normalize_title (U:=latin1) title_reordered)).
  { vm_compute. reflexivity. }
  split; [exact H|].
  apply (same_words_score_one (U:=latin1) title_upper title_reordered);
    [discriminate | discriminate | vm_compute; discriminate | exact H].
Defined.

(** X19, at work: a section that ends at the appendix. *)
Lemma slice_references_found_witness :
  ∃ ref_text,
    slice_references_section (U:=latin1) long_document 2 = (ref_text, Some 1%nat, Some 5%nat)
    ∧ (250 <= length ref_text)%nat
    ∧ ∃ l, Py.splitlines long_document !! 5%nat = Some l
           ∧ is_heading (@REF_END latin1) l = true.
Proof.
  eexists. split; [vm_compute; reflexivity|].
  pose proof (slice_references_found (U:=latin1) long_document 2 _ 1 5
                ltac:(vm_compute; reflexivity)) as (_ & _ & _ & [Hend|Hend] & _ & _ & Hlen).
  - vm_compute in Hend. discriminate.
  - split; [exact Hlen|]. destruct Hend as (l & Hl & Hh & _). by exists l.
Defined.

(** X22, at work: a resolver that answers GET requests only. *)
Lemma fresh_verdict_meaning_witness :
  let '((_, o, c, s, _, _), _, sent) :=
    validate_doi_http (U:=latin1) (codes "10.1234/abcd") 10 3 ∅ head_refusing_resolver in
  sent = [SendHead 0; SendGet 0] ∧ s = 200%Z ∧ (o = true ↔ c = codes "valid").
Proof.
  assert (Hmiss : (∅ : gmap str verdict) !! @lower latin1 (codes "10.1234/abcd") = None)
    by (vm_compute; reflexivity).
  pose proof (fresh_verdict_meaning (U:=latin1) (codes "10.1234/abcd") 10 3 ∅
                head_refusing_resolver Hmiss) as H.
  vm_compute in H. destruct H as (H & _).
  split; [vm_compute; reflexivity|]. split; [vm_compute; reflexivity|]. exact H.
Defined.

(** X24, at work: a resolver that limits the rate to the last attempt. *)
Lemma shown_category_follows_status_witness :
  let '((_, _, c, s, _, _), _, sent) :=
    validate_doi_http (U:=latin1) (codes "10.1234/abcd") 10 2 ∅ rate_limiting_resolver in
  s = 429%Z ∧ _categorize_doi c (Some s) = codes "sospechoso".
Proof.
  assert (Hmiss : (∅ : gmap str verdict) !! @lower latin1 (codes "10.1234/abcd") = None)
    by (vm_compute; reflexivity).
  pose proof (shown_category_follows_status (U:=latin1) (codes "10.1234/abcd") 10 2 ∅
                rate_limiting_resolver Hmiss) as H.
  split; [vm_compute; reflexivity|]. exact H.
Defined.

(** A server error on the first attempt, a redirect on the second: two
    requests, a pause of 0.8 seconds, one request, and a valid DOI. *)
Example retry_after_server_error :
  validate_doi_http (U:=latin1) (codes "10.1234/ABCD") 10 3 ∅ recovering_resolver
  = ((codes "10.1234/ABCD", true, codes "valid", 302%Z,
      [10003] ++ codes " Resuelve (HTTP 302)", 3 # 2),
     {[ codes "10.1234/abcd" :=
          Verdict true (codes "valid") 302
                  ([10003] ++ codes " Resuelve (HTTP 302)") (3 # 2) ]},
     [SendHead 0; SendGet 0; Sleep (8 # 10); SendHead 1]).
Proof. vm_compute. reflexivity. Qed.

(** ** The end of a cleaned DOI *)

Section CleanDoiFacts.
Context `{U : Unicode}.
Import Re.

Lemma denotes_eos_inv (s s' : mstate) : denotes Eos s s' → s = s' ∧ at_end s = true.
Proof. by inversion 1; subst. Qed.

Lemma at_end_rest (s : mstate) : at_end s = true → m_rest s = [] ∨ m_rest s = [LF].
Proof.
  unfold at_end. destruct (m_rest s) as [|c [|d t]]; [by left | | done].
  intros ->%N.eqb_eq. by right.
Qed.

Lemma spells_plus (P : char → Prop) (g : bool) (r : regex) :
  spells P r → spells P (Plus g r).
Proof. intros. apply sp_seq; [done | by apply sp_star]. Qed.

Lemma rmatch_plus_cls_then {A} (p : char → bool) (r2 : regex) (k : mstate → option A)
  (s : mstate) (c : char) (t : str) :
  m_rest s = c :: t → p c = true →
  rmatch (Seq (Plus true (Cls p)) r2) k s
  = star_loop (@rmatch (Cls p) A) true (rmatch r2 k) (S (length t)) (step_char c t s).
Proof. intros Hs Hc. cbn [rmatch Plus]. by rewrite Hs, Hc. Qed.

(** A run that ends the text is matched whole. *)
Lemma trailing_run_match (p : char → bool) prev pos (c : char) (ws : str) :
  p c = true → Forall (λ c, p c = true) ws →
  ∃ m, match_at (Seq (Plus true (Cls p)) Eos) prev pos (c :: ws) = Some m
       ∧ (mo_end m - pos)%nat = S (length ws).
Proof.
  intros Hc Hws. unfold match_at.
  rewrite (rmatch_plus_cls_then p Eos Some (MState prev pos (c :: ws) []) c ws eq_refl Hc).
  erewrite (star_cls_run p _ _ ws []); [| done | done | by rewrite app_nil_r | | done].
  - eexists. split; [done|]. simpl. lia.
  - simpl. lia.
Qed.

(** Text that does not end with the run has no match. *)
Lemma trailing_run_no_match (p : char → bool) prev pos (suf : str) (d : char) :
  LF ∉ suf → d ∈ suf → p d = false →
  match_at (Seq (Plus true (Cls p)) Eos) prev pos suf = None.
Proof.
  intros Hlf Hd Hp. unfold match_at.
  destruct (rmatch _ Some _) as [e|] eqn:E; [|done].
  apply rmatch_sound in E as (e' & Hden & _).
  apply denotes_seq_inv in Hden as (s1 & Hrun & Heos).
  apply (denotes_spells (λ c, p c = true)) in Hrun as (w & Hw & Fw);
    [|apply spells_plus; by constructor].
  apply denotes_eos_inv in Heos as [_ Hend%at_end_rest]. simpl in Hw.
  destruct Hend as [Hr|Hr]; rewrite Hr in Hw.
  - rewrite app_nil_r in Hw. subst suf.
    rewrite Forall_forall in Fw. specialize (Fw d Hd). congruence.
  - exfalso. apply Hlf. rewrite Hw. apply elem_of_app. right. by left.
Qed.

Lemma forallb_false (p : char → bool) (s : str) :
  forallb p s = false → ∃ d, d ∈ s ∧ p d = false.
Proof.
  induction s as [|c s IH]; simpl; [done|].
  destruct (p c) eqn:E; simpl.
  - intros (d & Hd & Hp)%IH. exists d. split; [by right | done].
  - intros _. exists c. split; [by left | done].
Qed.

(** Removing the matches of [[p]+$] removes the run the text ends with. *)
Lemma sub_trailing_run (p : char → bool) (s : str) :
  LF ∉ s →
  ∀ prev pos, rebuild (λ _, []) (scan (Seq (Plus true (Cls p)) Eos) prev pos 0 s)
              = without_trailing p s.
Proof.
  induction s as [|c t IH]; intros Hlf prev pos.
  - done.
  - cbn [without_trailing]. destruct (forallb p (c :: t)) eqn:E.
    + simpl in E. apply andb_true_iff in E as [Hc Ht].
      assert (Hws : Forall (λ c, p c = true) t).
      { apply Forall_forall. intros x Hx. rewrite forallb_forall in Ht.
        by apply Ht, list_elem_of_In. }
      destruct (trailing_run_match p prev pos c t Hc Hws) as (m & Hm & Hlen).
      cbn [scan]. rewrite Hm, Hlen. cbn [rebuild app].
      pose proof (scan_skip (Seq (Plus true (Cls p)) Eos) t [] (Some c) (S pos)) as Hskip.
      rewrite app_nil_r in Hskip. rewrite Hskip. done.
    + apply forallb_false in E as (d & Hd & Hp).
      cbn [scan]. rewrite (trailing_run_no_match p prev pos (c :: t) d) by done.
      cbn [rebuild]. f_equal. apply IH. intros ?. apply Hlf. by right.
Qed.

Lemma without_trailing_nil (p : char → bool) (s : str) :
  without_trailing p s = [] → forallb p s = true.
Proof. destruct s as [|c t]; [done|]. cbn [without_trailing]. by destruct (forallb p (c :: t)). Qed.

Lemma without_trailing_last (p : char → bool) (s : str) (x : char) :
  last (without_trailing p s) = Some x → p x = false.
Proof.
  induction s as [|c t IH]; [done|]. cbn [without_trailing].
  destruct (forallb p (c :: t)) eqn:E; [done|].
  destruct (without_trailing p t) as [|y r] eqn:Et.
  - intros [= <-]. apply without_trailing_nil in Et. simpl in E.
    rewrite Et, andb_true_r in E. done.
  - intros H. apply IH. by rewrite <- H.
Qed.

Lemma without_trailing_elem (p : char → bool) (s : str) (x : char) :
  x ∈ without_trailing p s → x ∈ s.
Proof.
  induction s as [|c t IH]; [done|]. cbn [without_trailing].
  destruct (forallb p (c :: t)); [by intros ?%elem_of_nil|].
  intros [->|?]%elem_of_cons; [by left | right; auto].
Qed.

(** X25: the DOI [clean_doi] returns does not end with one of the
    characters . , ; : ) ] } ' or the double quote. *)
Theorem clean_doi_ends_clean (raw : str) (c : char) :
  last (clean_doi raw) = Some c → dangling c = false.
Proof.
  unfold clean_doi.
  set (d6 := Py.replace (codes "&gt;") _ _).
  assert (Hns : ∀ x, x ∈ d6 → is_space x = false).
  { subst d6. intros x H.
    repeat (apply replace_elem in H as [H|H];
            [|first [ by apply elem_of_nil in H
                    | apply list_elem_of_singleton in H; subst; reflexivity ]]).
    by eapply compact_no_space. }
  assert (Hlf : LF ∉ d6) by (intros H%Hns; done).
  assert (E7 : sub_const trailing_punct_re [] d6 = without_trailing dangling d6).
  { unfold sub_const, sub, trailing_punct_re. by apply sub_trailing_run. }
  rewrite E7. set (d7 := without_trailing dangling d6).
  assert (Hd7 : ∀ x, x ∈ d7 → x ∈ d6) by (intros x; apply without_trailing_elem).
  assert (E8 : sub_const trailing_dots_re [] d7 = d7).
  { unfold sub_const, sub. rewrite scan_no_match; [apply rebuild_inl|].
    intros prev pos suf [k Hk]. unfold match_at.
    destruct (rmatch trailing_dots_re Some _) as [e|] eqn:E; [|done]. exfalso.
    apply rmatch_sound in E as (e' & Hden & _). unfold trailing_dots_re in Hden.
    apply denotes_seq_inv in Hden as (s1 & Htwo & Hden).
    apply denotes_seq_inv in Hden as (s2 & Hmore & Heos).
    apply denotes_times in Htwo as (w1 & Hn1 & F1 & E1).
    apply (denotes_spells (λ x, x = ch ".")) in Hmore as (w2 & E2 & F2);
      [|apply sp_star, sp_cls; by intros ? ->%N.eqb_eq].
    apply denotes_eos_inv in Heos as [_ Hend%at_end_rest]. simpl in E1.
    assert (Hdots : Forall (λ x, x = ch ".") (w1 ++ w2)).
    { apply Forall_app. split; [|done]. eapply Forall_impl; [exact F1|].
      by intros ? ->%N.eqb_eq. }
    assert (Hw : w1 ++ w2 ≠ []) by (destruct w1; [done | done]).
    destruct Hend as [Hr|Hr]; rewrite E2, Hr in E1.
    - rewrite app_nil_r in E1.
      assert (Hlast : last d7 = Some (ch ".")).
      { rewrite Hk, E1, last_app.
        destruct (w1 ++ w2) as [|y l] using rev_ind; [done|].
        rewrite last_snoc. apply Forall_app in Hdots as [_ Hy].
        by apply Forall_singleton in Hy as ->. }
      by apply without_trailing_last in Hlast.
    - apply Hlf, Hd7. rewrite Hk, E1. rewrite !elem_of_app. right. right. right. by left. }
  rewrite E8.
  rewrite strip_fixed.
  - apply without_trailing_last.
  - intros x t Hx. apply Hns, Hd7. rewrite Hx. by left.
  - intros x Hx. apply Hns, Hd7. destruct d7 as [|y l] using rev_ind; [done|].
    rewrite last_snoc in Hx. injection Hx as <-. apply elem_of_app. right. by left.
Qed.

End CleanDoiFacts.

(** ** The slashes of the harvested text *)

Section SlashFacts.
Context `{U : Unicode}.
Import Re.

Lemma scan_match_skip (r : regex) prev pos (w rest : str) (m : mobj) :
  w ≠ [] → match_at r prev pos (w ++ rest) = Some m → (mo_end m - pos)%nat = length w →
  scan r prev pos 0 (w ++ rest)
  = inr m :: scan r (prev_after w prev) (pos + length w) 0 rest.
Proof.
  destruct w as [|c w]; [done|]. intros _ Hm Hlen. simpl app in *.
  cbn [scan]. rewrite Hm, Hlen. cbn [length].
  rewrite scan_skip. by rewrite Nat.add_succ_r.
Qed.

Lemma scan_no_match_step (r : regex) prev pos (c : char) (t : str) :
  match_at r prev pos (c :: t) = None →
  scan r prev pos 0 (c :: t) = inl c :: scan r (Some c) (S pos) 0 t.
Proof. intros H. cbn [scan]. by rewrite H. Qed.

Lemma drop_while_run (p : char → bool) (ws rest : str) :
  Forall (λ c, p c = true) ws → starts_outside p rest →
  Py.drop_while p (ws ++ rest) = rest.
Proof.
  induction 1 as [|c ws Hc _ IH]; intros Hrest; simpl.
  - destruct rest as [|d rest]; [done|]. simpl in *. by rewrite Hrest.
  - rewrite Hc. by apply IH.
Qed.

Lemma run_unique (p : char → bool) (ws ws' rest rest' : str) (c : char) :
  Forall (λ c, p c = true) ws → Forall (λ c, p c = true) ws' →
  starts_outside p rest → p c = false →
  ws ++ rest = ws' ++ c :: rest' → rest = c :: rest'.
Proof.
  intros Hws. revert ws'. induction Hws as [|x ws Hx _ IH]; intros ws' Hws' Hrest Hc E.
  - destruct Hws' as [|y ws' Hy _]; [done|]. simpl in E. subst rest.
    simpl in Hrest. congruence.
  - destruct Hws' as [|y ws' Hy Hws']; simpl in E.
    + injection E as -> _. congruence.
    + injection E as _ E. by eapply IH.
Qed.

(** The pattern of the slash takes the whitespace on both sides. *)
Lemma slash_match_run prev pos (ws ws1 rest : str) :
  Forall (λ c, is_space c = true) ws → Forall (λ c, is_space c = true) ws1 →
  starts_outside is_space rest →
  ∃ m, match_at slash_re prev pos (ws ++ ch "/" :: ws1 ++ rest) = Some m
       ∧ (mo_end m - pos)%nat = length (ws ++ ch "/" :: ws1).
Proof.
  intros Hws Hws1 Hrest. unfold match_at, slash_re, Space.
  change (rmatch (Seq (Star true (Cls is_space)) ?r2) Some ?s)
    with (star_loop (@rmatch (Cls is_space) _) true (rmatch r2 Some)
            (S (length (m_rest s))) s).
  set (s1 := MState (prev_after ws prev) (pos + length ws) (ch "/" :: ws1 ++ rest) []).
  set (s2 := step_char (ch "/") (ws1 ++ rest) s1).
  set (s3 := MState (prev_after ws1 (m_prev s2)) (m_pos s2 + length ws1) rest (m_caps s2)).
  assert (H3 : rmatch (Seq (Chr (ch "/")) (Star true (Cls is_space))) Some s1 = Some s3).
  { change (rmatch (Seq (Chr (ch "/")) (Star true (Cls is_space))) Some s1)
      with (rmatch (Cls (N.eqb (ch "/")))
              (λ s, star_loop (@rmatch (Cls is_space) _) true Some
                      (S (length (m_rest s))) s) s1).
    rewrite (rmatch_cls_step _ _ s1 (ch "/") (ws1 ++ rest)) by done.
    apply (star_cls_run is_space Some s3 ws1 rest); [done | done | done | | done].
    simpl. rewrite length_app. lia. }
  rewrite (star_cls_run is_space _ s3 ws (ch "/" :: ws1 ++ rest));
    [| done | done | done | | exact H3].
  - eexists. split; [done|]. simpl. rewrite !length_app. simpl. lia.
  - simpl. rewrite length_app. lia.
Qed.

Lemma slash_no_match prev pos (ws rest : str) :
  Forall (λ c, is_space c = true) ws → starts_outside is_space rest →
  match rest with c :: _ => c ≠ ch "/" | [] => True end →
  match_at slash_re prev pos (ws ++ rest) = None.
Proof.
  intros Hws Hrest Hc. unfold match_at.
  destruct (rmatch slash_re Some _) as [e|] eqn:E; [|done].
  apply rmatch_sound in E as (s' & Hd & _).
  apply denotes_slash in Hd as (ws' & rest' & Hw & F). simpl in Hw.
  apply (run_unique is_space) in Hw; [|done..].
  by rewrite Hw in Hc.
Qed.

Lemma sub_slash_head prev pos (t : str) :
  starts_outside is_space t →
  starts_outside is_space (rebuild (λ _, [ch "/"]) (scan slash_re prev pos 0 t)).
Proof.
  destruct t as [|d t]; intros Hd.
  - cbn [scan]. by destruct (match_at slash_re prev pos []).
  - cbn [scan]. destruct (match_at slash_re prev pos (d :: t)); [done|]. done.
Qed.

Lemma sub_slash_tight_from (n : nat) :
  ∀ t prev pos b,
    (length t <= n)%nat → (b = true → slash_ahead t = false) →
    slash_tight b (rebuild (λ _, [ch "/"]) (scan slash_re prev pos 0 t)) = true.
Proof.
  induction n as [|n IH]; intros t prev pos b Hlen Hb.
  { destruct t; [|simpl in Hlen; lia]. cbn [scan].
    pose proof (slash_no_match prev pos [] []) as Hnone. simpl in Hnone.
    by rewrite Hnone. }
  destruct (run_split is_space t) as (ws & rest & -> & Hws & Hrest).
  assert (Hcase : (∃ rest1, rest = ch "/" :: rest1)
                  ∨ match rest with c :: _ => c ≠ ch "/" | [] => True end).
  { destruct rest as [|c r]; [by right|].
    destruct (decide (c = ch "/")) as [->|?]; [left; by eexists | by right]. }
  destruct Hcase as [[rest1 ->]|Hno].
  - destruct (run_split is_space rest1) as (ws1 & rest2 & -> & Hws1 & Hrest2).
    destruct (slash_match_run prev pos ws ws1 rest2 Hws Hws1 Hrest2) as (m & Hm & Hend).
    assert (Hb' : b = false).
    { destruct b; [|done]. specialize (Hb eq_refl). unfold slash_ahead in Hb.
      by rewrite drop_while_run in Hb. }
    subst b.
    replace (ws ++ ch "/" :: ws1 ++ rest2) with ((ws ++ ch "/" :: ws1) ++ rest2) in *
      by by rewrite <- app_assoc.
    rewrite (scan_match_skip _ _ _ _ _ m); [| by destruct ws | done | done].
    cbn [rebuild app slash_tight]. change (ch "/" =? ch "/") with true. cbn iota.
    cbn [negb andb].
    set (out := rebuild _ _).
    assert (Hhead : starts_outside is_space out) by by apply sub_slash_head.
    assert (Htight : slash_tight false out = true).
    { apply IH; [|done]. rewrite !length_app in Hlen. simpl in Hlen. lia. }
    rewrite Htight, andb_true_r. destruct out as [|d out]; [done|].
    simpl in Hhead. by rewrite Hhead.
  - assert (Hnone : match_at slash_re prev pos (ws ++ rest) = None)
      by by apply slash_no_match.
    destruct (ws ++ rest) as [|c t'] eqn:Et.
    { cbn [scan]. by rewrite Hnone. }
    rewrite scan_no_match_step by done. cbn [rebuild slash_tight].
    assert (Hc : (c =? ch "/") = false).
    { apply N.eqb_neq. intros ->. destruct ws as [|x ws]; simpl in Et.
      - by subst rest.
      - injection Et as -> _. by apply Forall_cons in Hws as [? _]. }
    rewrite Hc. apply IH; [simpl in Hlen; lia|].
    intros Hsp. unfold slash_ahead. destruct ws as [|x ws]; simpl in Et.
    + subst rest. simpl in Hrest. congruence.
    + injection Et as -> <-. apply Forall_cons in Hws as [_ Hws].
      rewrite drop_while_run by done. destruct rest as [|y rest]; [done|].
      by apply N.eqb_neq.
Qed.

(** X26: in the text [_normalize_for_doi_harvest] returns, no slash
    has whitespace before it or after it. *)
Theorem harvested_slashes_are_tight (t : str) :
  slash_tight false (_normalize_for_doi_harvest t) = true.
Proof.
  unfold _normalize_for_doi_harvest. destruct t as [|c t]; [done|].
  unfold sub_const, sub. by eapply sub_slash_tight_from.
Qed.

End SlashFacts.

(** ** The attempt a verdict comes from *)

Section AttemptFacts.

Lemma attempts_step (net : network) (max_retries : Z) (remaining attempt : nat) :
  attempts net max_retries (S remaining) attempt
  = let (sent, d) := attempt_once net attempt in
    match d with
    | Final a => (sent, (a, attempt))
    | RetryOr factor a =>
        if (Z.of_nat attempt <? max_retries - 1)%Z then
          let (later, r) := attempts net max_retries remaining (S attempt) in
          (sent ++ Sleep (backoff attempt factor) :: later, r)
        else (sent, (a, attempt))
    end.
Proof. done. Qed.

Lemma attempts_come_from_one (net : network) (max_retries : Z) (remaining : nat) :
  ∀ attempt,
    (Z.of_nat attempt + Z.of_nat (S remaining) = max_retries)%Z →
    ∃ k, (attempt <= k)%nat ∧ (Z.of_nat k < max_retries)%Z
         ∧ (attempts net max_retries (S remaining) attempt).2
           = (decision_answer (attempt_once net k).2, k).
Proof.
  induction remaining as [|remaining IH]; intros attempt Hsum; rewrite attempts_step.
  - destruct (attempt_once net attempt) as [sent [a|factor a]] eqn:E.
    + exists attempt. rewrite E. split_and!; [lia | lia | done].
    + destruct (Z.of_nat attempt <? max_retries - 1)%Z eqn:El;
        [apply Z.ltb_lt in El; lia|].
      exists attempt. rewrite E. split_and!; [lia | lia | done].
  - destruct (attempt_once net attempt) as [sent [a|factor a]] eqn:E.
    + exists attempt. rewrite E. split_and!; [lia | lia | done].
    + destruct (Z.of_nat attempt <? max_retries - 1)%Z eqn:El.
      * destruct (IH (S attempt)) as (k & Hk1 & Hk2 & Hk3); [lia|].
        exists k. split_and!; [lia | done |].
        by destruct (attempts net max_retries (S remaining) (S attempt)).
      * exists attempt. rewrite E. split_and!; [lia | lia | done].
Qed.

Context `{U : Unicode}.

(** X27: with one attempt or more allowed, a verdict [validate_doi_http]
    reaches by asking the resolver is what one of the attempts decided,
    with the time read in that attempt: the verdict that the attempts
    are used up is given only when none is allowed. *)
Theorem verdict_comes_from_an_attempt (doi : str) (timeout : Q) (max_retries : Z)
  (cache : gmap str verdict) (net : network) :
  (1 <= max_retries)%Z → cache !! lower doi = None →
  let '((_, o, c, s, m, t), _, _) := validate_doi_http doi timeout max_retries cache net in
  ∃ attempt, (Z.of_nat attempt < max_retries)%Z
             ∧ (o, c, s, m) = decision_answer (attempt_once net attempt).2
             ∧ t = elapsed net attempt.
Proof.
  intros Hmr E. unfold validate_doi_http. rewrite E.
  destruct (Z.to_nat max_retries) as [|remaining] eqn:En; [lia|].
  destruct (attempts_come_from_one net max_retries remaining 0) as (k & _ & Hk & Ha); [lia|].
  destruct (attempts net max_retries (S remaining) 0) as [sent [[[[o c] s] m] attempt]].
  cbn [snd] in Ha. injection Ha as Ha ->. exists k. by rewrite <- Ha.
Qed.

End AttemptFacts.

(** X27, at work: the second attempt decides. *)
Lemma verdict_comes_from_an_attempt_witness :
  let '((_, o, c, s, m, t), _, _) :=
    validate_doi_http (U:=latin1) (codes "10.1234/ABCD") 10 3 ∅ recovering_resolver in
  ∃ attempt, (Z.of_nat attempt < 3)%Z
             ∧ (o, c, s, m) = decision_answer (attempt_once recovering_resolver attempt).2
             ∧ t = elapsed recovering_resolver attempt.
Proof.
  assert (Hmiss : (∅ : gmap str verdict) !! @lower latin1 (codes "10.1234/ABCD") = None)
    by (vm_compute; reflexivity).
  exact (verdict_comes_from_an_attempt (U:=latin1) (codes "10.1234/ABCD") 10 3 ∅
           recovering_resolver ltac:(lia) Hmiss).
Defined.

(** X25, at work: a DOI with a closing parenthesis, a full stop and a comma
    after it. *)
Lemma clean_doi_ends_clean_witness :
  clean_doi (U:=latin1) (codes "10.1234/abcd).,") = codes "10.1234/abcd"
  ∧ dangling (ch "d") = false.
Proof.
  split; [vm_compute; reflexivity|].
  apply (clean_doi_ends_clean (U:=latin1) (codes "10.1234/abcd).,")).
  vm_compute. reflexivity.
Defined.
